(** * Keystroke synthesis and scrolling-digit decoding: a shallow embedding

    The Python sources under [skills/human_typer] and [skills/video_solver]
    are embedded as Rocq functions, one module per source file.

    Conventions of the embedding:
    - a Python [str] is a list of characters ([str]) with code points
      below 256, on which [lower]/[upper] act as Python does;
    - Python [float]s are idealised as exact rationals ([Q]); the [math]
      library ([log], [exp], [sqrt], [cos], [pi]) is an interface
      ([MathLib]) with the sign facts the code relies on;
    - a raised exception is the [Raise] outcome of the [outcome] monad;
    - the results of the calls into the [random] module are given call
      by call ([RandomSource]); the number of calls made so far is the
      generator state;
    - the outside world (frame decoder, vision client, wall clock) enters
      through explicit interfaces. *)

From Stdlib Require Import List String Ascii Bool Arith ZArith QArith Qround Qabs Qpower.
From Stdlib Require Import Lia Lqa Sorted.
Import ListNotations.

Local Open Scope nat_scope.

(* ================================================================== *)
(** * Python primitives *)
(* ================================================================== *)

Module Py.

(** A Python string, as the sequence of its characters. *)
Definition str : Type := list ascii.

Definition str_of (s : string) : str := list_ascii_of_string s.

Fixpoint str_eqb (a b : str) : bool :=
  match a, b with
  | [], [] => true
  | x :: a', y :: b' => Ascii.eqb x y && str_eqb a' b'
  | _, _ => false
  end.

(** Exceptions the modelled code can raise. *)
Inductive exn : Type :=
| ZeroDivisionError
| IndexError
| ValueError
| OverflowError
| ExternalError (what : str).

(** Result of running a piece of Python: a value, a raised exception, or
    [OutOfFuel] when a [while] loop was still running after the number of
    turns the model was given. *)
Inductive outcome (A : Type) : Type :=
| Ok (a : A)
| Raise (e : exn)
| OutOfFuel.
Arguments Ok {A} a.
Arguments Raise {A} e.
Arguments OutOfFuel {A}.

Definition obind {A B} (m : outcome A) (k : A -> outcome B) : outcome B :=
  match m with
  | Ok a => k a
  | Raise e => Raise e
  | OutOfFuel => OutOfFuel
  end.

(** [a / b] on floats and on integers (true division). *)
Definition truediv (a b : Q) : outcome Q :=
  if Qeq_bool b 0 then Raise ZeroDivisionError else Ok (a / b)%Q.

(** [await asyncio.gather(...)]: every result in argument order, or the
    exception of a failed awaitable. *)
Fixpoint gather {A} (tasks : list (outcome A)) : outcome (list A) :=
  match tasks with
  | [] => Ok []
  | t :: rest =>
      obind t (fun a => obind (gather rest) (fun r => Ok (a :: r)))
  end.

(** [s[i:j]] for [0 <= i], [0 <= j]: both ends are clamped to [len(s)]. *)
Definition slice {A} (s : list A) (i j : nat) : list A :=
  firstn (j - i) (skipn i s).

(** [range(start, stop, step)] for a positive [step]: the values
    [start, start+step, ...] below [stop]. *)
Definition range (start stop step : nat) : list nat :=
  map (fun k => start + k * step) (seq 0 ((stop - start + (step - 1)) / step)).

(** [range(start, stop, step)] over Python integers; a zero step raises
    [ValueError]; a negative step counts down. *)
Definition rangeZ (start stop step : Z) : outcome (list Z) :=
  if (step =? 0)%Z then Raise ValueError
  else if (0 <? step)%Z then
    Ok (map (fun k => (start + Z.of_nat k * step)%Z)
            (seq 0 (Z.to_nat ((stop - start + step - 1) / step))))
  else
    Ok (map (fun k => (start + Z.of_nat k * step)%Z)
            (seq 0 (Z.to_nat ((start - stop - step - 1) / (- step))))).

(** [seq[i]] for [0 <= i]: [IndexError] beyond the end. *)
Definition index {A} (s : list A) (i : nat) : outcome A :=
  match nth_error s i with
  | Some a => Ok a
  | None => Raise IndexError
  end.

(** The characters [str.lower] changes: the letters A-Z and the Latin-1
    capitals (192-222 without the multiplication sign 215). *)
Definition is_upper (c : ascii) : bool :=
  let n := nat_of_ascii c in
  ((65 <=? n) && (n <=? 90))
  || ((192 <=? n) && (n <=? 222) && negb (n =? 215)).

(** The characters whose upper case is a character below 256: the
    letters a-z and the Latin-1 small letters (224-254 without the
    division sign 247). The upper case of the micro sign (181), of the
    sharp s (223) and of y with diaeresis (255) lies outside this range;
    the code upper-cases table entries and the letters a-z only. *)
Definition is_lower (c : ascii) : bool :=
  let n := nat_of_ascii c in
  ((97 <=? n) && (n <=? 122))
  || ((224 <=? n) && (n <=? 254) && negb (n =? 247)).

Definition lower_char (c : ascii) : ascii :=
  if is_upper c then ascii_of_nat (nat_of_ascii c + 32) else c.

Definition upper_char (c : ascii) : ascii :=
  if is_lower c then ascii_of_nat (nat_of_ascii c - 32) else c.

(** [s.lower()] and [s.upper()]. *)
Definition lower (s : str) : str := map lower_char s.
Definition upper (s : str) : str := map upper_char s.

(** Characters [str.strip()] removes (and [str.isspace] accepts). *)
Definition is_space (c : ascii) : bool :=
  let n := nat_of_ascii c in
  ((9 <=? n) && (n <=? 13)) || ((28 <=? n) && (n <=? 32))
  || (n =? 133) || (n =? 160).

Fixpoint lstrip_by (p : ascii -> bool) (s : str) : str :=
  match s with
  | c :: s' => if p c then lstrip_by p s' else s
  | [] => []
  end.

(** [s.strip()]. *)
Definition strip (s : str) : str :=
  rev (lstrip_by is_space (rev (lstrip_by is_space s))).

(** The characters the pattern [\d] matches. *)
Definition is_digit (c : ascii) : bool :=
  let n := nat_of_ascii c in (48 <=? n) && (n <=? 57).

(** [max(a, b)]: the first argument unless the second is greater. *)
Definition max (a b : Q) : Q := if Qlt_le_dec a b then b else a.

End Py.

Import Py.

Notation "x <- m ;; k" := (obind m (fun x => k))
  (at level 61, m at next level, right associativity).

(* ================================================================== *)
(** * Python floats: IEEE 754 double precision *)
(* ================================================================== *)

Module Binary64.
Local Open Scope Q_scope.

(** A Python [float]: a finite double, given by the rational number it
    is, an infinity, or not-a-number. The two zeros are one value: the
    code never gets to see the sign of a zero (a division by either
    raises). *)
Inductive float : Type := Fin (q : Q) | PInf | NInf | NaN.

Definition pow2 (k : Z) : Q := 2 ^ k.

(** [floor(log2(q))] for a positive [q]. *)
Definition ilog2 (q : Q) : Z :=
  let e := (Z.log2 (Qnum q) - Z.log2 (Zpos (Qden q)))%Z in
  if Qle_bool (pow2 e) q then e else (e - 1)%Z.

(** The integer nearest to [x], the even one of two equally near. *)
Definition rne (x : Q) : Z :=
  let f := Qfloor x in
  match Qcompare (x - inject_Z f) (1 # 2) with
  | Lt => f
  | Gt => (f + 1)%Z
  | Eq => if Z.even f then f else (f + 1)%Z
  end.

(** The exponent of the last place of a double near the positive [q]:
    53 significant bits, and the spacing [2^-1074] below [2^-1022]. *)
Definition ulp_exp (q : Q) : Z := (Z.max (ilog2 q) (-1022) - 52)%Z.

(** The multiple of [2^k] nearest to [q]. *)
Definition grid (k : Z) (q : Q) : Q := inject_Z (rne (q / pow2 k)) * pow2 k.

(** The double nearest to a positive [q]; what rounds to [2^1024] or
    beyond is infinite. *)
Definition round_pos (q : Q) : float :=
  let v := grid (ulp_exp q) q in
  if Qle_bool (pow2 1024) v then PInf else Fin (Qred v).

(** [-a]. *)
Definition fneg (a : float) : float :=
  match a with
  | Fin q => Fin (Qred (- q))
  | PInf => NInf
  | NInf => PInf
  | NaN => NaN
  end.

(** The double nearest to the real number [q], the one with the even
    significand of two equally near: the rounding of every arithmetic
    operation and of every literal. *)
Definition round64 (q : Q) : float :=
  match Qcompare q 0 with
  | Eq => Fin 0
  | Gt => round_pos q
  | Lt => fneg (round_pos (- q))
  end.

(** The double a literal or a stored number denotes. *)
Definition float_of (q : Q) : float := round64 q.

(** [a + b]. *)
Definition fadd (a b : float) : float :=
  match a, b with
  | NaN, _ | _, NaN => NaN
  | PInf, NInf | NInf, PInf => NaN
  | PInf, _ | _, PInf => PInf
  | NInf, _ | _, NInf => NInf
  | Fin x, Fin y => round64 (x + y)
  end.

(** [a - b]. *)
Definition fsub (a b : float) : float := fadd a (fneg b).

Definition is_zero (a : float) : bool :=
  match a with Fin q => Qeq_bool q 0 | _ => false end.

Definition negative (a : float) : bool :=
  match a with Fin q => negb (Qle_bool 0 q) | NInf => true | _ => false end.

(** [a * b]. *)
Definition fmul (a b : float) : float :=
  match a, b with
  | NaN, _ | _, NaN => NaN
  | Fin x, Fin y => round64 (x * y)
  | _, _ =>
      if is_zero a || is_zero b then NaN
      else if xorb (negative a) (negative b) then NInf else PInf
  end.

(** [a / b]: Python raises on a zero divisor; an overflowing quotient is
    an infinity. *)
Definition fdiv (a b : float) : outcome float :=
  if is_zero b then Raise ZeroDivisionError
  else
    Ok match a, b with
       | NaN, _ | _, NaN => NaN
       | Fin x, Fin y => round64 (x / y)
       | Fin _, _ => Fin 0
       | _, Fin _ => if xorb (negative a) (negative b) then NInf else PInf
       | _, _ => NaN
       end.

(** [abs(a)]. *)
Definition fabs (a : float) : float :=
  match a with
  | Fin q => Fin (Qred (Qabs q))
  | PInf | NInf => PInf
  | NaN => NaN
  end.

(** [a < b]: false when either side is not a number. *)
Definition flt (a b : float) : bool :=
  match a, b with
  | NaN, _ | _, NaN => false
  | _, NInf => false
  | PInf, _ => false
  | NInf, _ => true
  | _, PInf => true
  | Fin x, Fin y => negb (Qle_bool y x)
  end.

(** [a <= b]. *)
Definition fle (a b : float) : bool :=
  match a, b with
  | NaN, _ | _, NaN => false
  | NInf, _ => true
  | _, PInf => true
  | _, NInf => false
  | PInf, _ => false
  | Fin x, Fin y => Qle_bool x y
  end.

(** [max(a, b)]: the first argument unless the second is greater (so a
    first argument that is not a number is returned). *)
Definition fmax (a b : float) : float := if flt a b then b else a.

End Binary64.

Import Binary64.

(* ================================================================== *)
(** * skills/video_solver/__init__.py *)
(* ================================================================== *)

Module VideoSolver.

(** One turn of the inner loop of [detect_repeating_sequence]: [false]
    is the [matches = False; break] branch. *)
Definition chunk_matches (digits : str) (length : nat) (candidate : str)
    (i : nat) : bool :=
  let chunk := slice digits i (i + length) in
  negb ((List.length chunk =? length) && negb (str_eqb chunk candidate)).

(** [detect_repeating_sequence(digits)]: the outer loop returns at the
    first candidate length whose inner loop ran without a mismatch. *)
Definition detect_repeating_sequence (digits : str) : str :=
  match
    find (fun length =>
            forallb (chunk_matches digits length (slice digits 0 length))
                    (range length (List.length digits) length))
         (range 1 (List.length digits / 2 + 1) 1)
  with
  | Some length => slice digits 0 length
  | None => digits
  end.

(** The candidate test as the specification words it: every later chunk
    equals the candidate cut to that chunk's own length. *)
Definition chunks_agree_truncated (s : str) (L : nat) : Prop :=
  forall k, 1 <= k -> k * L < List.length s ->
    slice s (k * L) (k * L + L)
    = firstn (List.length (slice s (k * L) (k * L + L))) (slice s 0 L).

(** The candidate test the code performs: only chunks of full length are
    compared. *)
Definition full_chunks_agree (s : str) (L : nat) : Prop :=
  forall k, 1 <= k -> k * L + L <= List.length s ->
    slice s (k * L) (k * L + L) = slice s 0 L.

End VideoSolver.

(* ================================================================== *)
(** * The random source and the math library *)
(* ================================================================== *)

Module Rng.
Local Open Scope Q_scope.

(** What the calls into the [random] module return, call by call:
    [draws n] is the variate in [[0, 1)] the call number [n] returns when
    it is [random.random()], and [below n k] the index it picks when it
    is [random.choice] on a sequence of length [k] (which draws an
    integer below [k] from the generator's bits, not a variate). *)
Class RandomSource : Type := {
  draws : nat -> Q;
  draws_range : forall n, 0 <= draws n /\ draws n < 1;
  below : nat -> nat -> nat;
  below_range : forall n k, (0 < k)%nat -> (below n k < k)%nat
}.

(** A computation that calls into the [random] module: the number of
    calls made so far goes in, the value and the number of calls made
    afterwards come out. *)
Definition Rand (A : Type) : Type := nat -> outcome (A * nat).

Definition rret {A} (a : A) : Rand A := fun c => Ok (a, c).

Definition rbind {A B} (m : Rand A) (k : A -> Rand B) : Rand B :=
  fun c =>
    match m c with
    | Ok (a, c') => k a c'
    | Raise e => Raise e
    | OutOfFuel => OutOfFuel
    end.

Definition lift {A} (o : outcome A) : Rand A :=
  fun c =>
    match o with
    | Ok a => Ok (a, c)
    | Raise e => Raise e
    | OutOfFuel => OutOfFuel
    end.

(** [random.random()]. *)
Definition random `{RandomSource} : Rand Q := fun c => Ok (draws c, S c).

(** [random.choice(seq)]: one call, which returns the element at the
    index picked; an empty sequence raises [IndexError]. *)
Definition choice `{RandomSource} {A} (seq : list A) : Rand A :=
  fun c =>
    match index seq (below c (List.length seq)) with
    | Ok a => Ok (a, S c)
    | Raise e => Raise e
    | OutOfFuel => OutOfFuel
    end.

(** The [math] module: real functions, known here by the signs the code
    depends on. *)
Class MathLib : Type := {
  m_log : Q -> Q;
  m_exp : Q -> Q;
  m_sqrt : Q -> Q;
  m_cos : Q -> Q;
  m_pi : Q;
  m_log_nonneg : forall x, 1 <= x -> 0 <= m_log x;
  m_log_nonpos : forall x, 0 < x -> x <= 1 -> m_log x <= 0
}.

(** [math.log(x)]: a domain error outside [x > 0]. *)
Definition math_log `{MathLib} (x : Q) : outcome Q :=
  if Qlt_le_dec 0 x then Ok (m_log x) else Raise ValueError.

(** [math.sqrt(x)]: a domain error for [x < 0]. *)
Definition math_sqrt `{MathLib} (x : Q) : outcome Q :=
  if Qlt_le_dec x 0 then Raise ValueError else Ok (m_sqrt x).

End Rng.

Import Rng.

Notation "x <~ m ;; k" := (rbind m (fun x => k))
  (at level 61, m at next level, right associativity).

(* ================================================================== *)
(** * skills/human_typer/distributions.py *)
(* ================================================================== *)

Module Distributions.
Local Open Scope Q_scope.

Section Sampling.
Context `{RandomSource} `{MathLib}.

(** [u = 0.0; while u == 0.0: u = random.random()]. *)
Fixpoint draw_nonzero (fuel : nat) : Rand Q :=
  match fuel with
  | O => fun _ => OutOfFuel
  | S fuel' =>
      u <~ random ;;
      if Qeq_bool u 0 then draw_nonzero fuel' else rret u
  end.

(** [standard_normal()]: the Box-Muller transform. *)
Definition standard_normal (fuel : nat) : Rand Q :=
  u1 <~ draw_nonzero fuel ;;
  u2 <~ draw_nonzero fuel ;;
  l <~ lift (math_log u1) ;;
  r <~ lift (math_sqrt (-2 * l)) ;;
  rret (r * m_cos (2 * m_pi * u2)).

(** [log_normal(mu, sigma)]. *)
Definition log_normal (fuel : nat) (mu sigma : Q) : Rand Q :=
  z <~ standard_normal fuel ;;
  rret (m_exp (mu + sigma * z)).

(** [wpm_to_log_normal_params(wpm, wpm_std_dev)]: [(mu, sigma)]. *)
Definition wpm_to_log_normal_params (wpm wpm_std_dev : Q) : outcome (Q * Q) :=
  let chars_per_minute := wpm * 5 in
  mean_iki_ms <- truediv 60000 chars_per_minute ;;
  cv <- truediv wpm_std_dev wpm ;;
  sigma2 <- math_log (1 + cv * cv) ;;
  sigma <- math_sqrt sigma2 ;;
  l <- math_log mean_iki_ms ;;
  let mu := l - sigma2 / 2 in
  Ok (mu, sigma).

(** [sample_iki(wpm, wpm_std_dev)]. *)
Definition sample_iki (fuel : nat) (wpm wpm_std_dev : Q) : Rand Q :=
  p <~ lift (wpm_to_log_normal_params wpm wpm_std_dev) ;;
  log_normal fuel (fst p) (snd p).

End Sampling.

Definition entry (k : string) (ns : list string) : str * list str :=
  (str_of k, List.map str_of ns).

Local Open Scope string_scope.

(** [QWERTY_NEIGHBORS]. *)
Definition QWERTY_NEIGHBORS : list (str * list str) := Eval cbv in
  [ (* Number row *)
    entry "1" ["2"; "q"];
    entry "2" ["1"; "3"; "q"; "w"];
    entry "3" ["2"; "4"; "w"; "e"];
    entry "4" ["3"; "5"; "e"; "r"];
    entry "5" ["4"; "6"; "r"; "t"];
    entry "6" ["5"; "7"; "t"; "y"];
    entry "7" ["6"; "8"; "y"; "u"];
    entry "8" ["7"; "9"; "u"; "i"];
    entry "9" ["8"; "0"; "i"; "o"];
    entry "0" ["9"; "-"; "o"; "p"];
    (* Top row *)
    entry "q" ["1"; "2"; "w"; "a"];
    entry "w" ["2"; "3"; "q"; "e"; "a"; "s"];
    entry "e" ["3"; "4"; "w"; "r"; "s"; "d"];
    entry "r" ["4"; "5"; "e"; "t"; "d"; "f"];
    entry "t" ["5"; "6"; "r"; "y"; "f"; "g"];
    entry "y" ["6"; "7"; "t"; "u"; "g"; "h"];
    entry "u" ["7"; "8"; "y"; "i"; "h"; "j"];
    entry "i" ["8"; "9"; "u"; "o"; "j"; "k"];
    entry "o" ["9"; "0"; "i"; "p"; "k"; "l"];
    entry "p" ["0"; "-"; "o"; "["; "l"; ";"];
    (* Home row *)
    entry "a" ["q"; "w"; "s"; "z"];
    entry "s" ["w"; "e"; "a"; "d"; "z"; "x"];
    entry "d" ["e"; "r"; "s"; "f"; "x"; "c"];
    entry "f" ["r"; "t"; "d"; "g"; "c"; "v"];
    entry "g" ["t"; "y"; "f"; "h"; "v"; "b"];
    entry "h" ["y"; "u"; "g"; "j"; "b"; "n"];
    entry "j" ["u"; "i"; "h"; "k"; "n"; "m"];
    entry "k" ["i"; "o"; "j"; "l"; "m"; ","];
    entry "l" ["o"; "p"; "k"; ";"; ","; "."];
    entry ";" ["p"; "["; "l"; "'"; "."; "/"];
    (* Bottom row *)
    entry "z" ["a"; "s"; "x"];
    entry "x" ["s"; "d"; "z"; "c"];
    entry "c" ["d"; "f"; "x"; "v"];
    entry "v" ["f"; "g"; "c"; "b"];
    entry "b" ["g"; "h"; "v"; "n"];
    entry "n" ["h"; "j"; "b"; "m"];
    entry "m" ["j"; "k"; "n"; ","];
    entry "," ["k"; "l"; "m"; "."];
    entry "." ["l"; ";"; ","; "/"];
    entry "/" [";"; "'"; "."];
    (* Space has no neighbors *)
    entry " " [] ].

Definition letters : str := Eval cbv in str_of "abcdefghijklmnopqrstuvwxyz".

Local Close Scope string_scope.

(** [d.get(k)] on a dict literal. *)
Fixpoint dict_get {V} (d : list (str * V)) (k : str) : option V :=
  match d with
  | [] => None
  | (k', v) :: d' => if str_eqb k' k then Some v else dict_get d' k
  end.

(** [key != key.lower()]. *)
Definition is_shifted (key : str) : bool := negb (str_eqb key (lower key)).

(** [nearby_key(key)]. *)
Definition nearby_key `{RandomSource} (key : str) : Rand str :=
  let lower := Py.lower key in
  let neighbors := dict_get QWERTY_NEIGHBORS lower in
  match neighbors with
  | Some ((_ :: _) as neighbors) =>
      picked <~ choice neighbors ;;
      if is_shifted key then rret (upper picked) else rret picked
  | _ =>
      (* Fallback: random letter *)
      picked <~ choice letters ;;
      rret (if is_shifted key then upper [picked] else [picked])
  end.

End Distributions.

(* ================================================================== *)
(** * skills/human_typer/typer.py *)
(* ================================================================== *)

Module Typer.
Import Distributions.
Local Open Scope Q_scope.

Record HumanTyperConfig : Type := {
  average_wpm : Q;
  wpm_std_dev : Q;
  typo_rate : Q;
  typo_correction_rate : Q;
  word_boundary_pause_ms : Q;
  sentence_boundary_pause_ms : Q;
  long_pause_chance : Q;
  long_pause_max_ms : Q
}.

(** The generated [__init__] of the dataclass: every keyword is optional
    and falls back to the field's default; nothing is checked. *)
Definition HumanTyperConfig_init
    (average_wpm wpm_std_dev typo_rate typo_correction_rate
     word_boundary_pause_ms sentence_boundary_pause_ms
     long_pause_chance long_pause_max_ms : option Q)
    : outcome HumanTyperConfig :=
  let dflt (d : Q) (o : option Q) := match o with Some v => v | None => d end in
  Ok {| average_wpm := dflt 70 average_wpm;
        wpm_std_dev := dflt 17.5 wpm_std_dev;
        typo_rate := dflt 0.01 typo_rate;
        typo_correction_rate := dflt 0.96 typo_correction_rate;
        word_boundary_pause_ms := dflt 300 word_boundary_pause_ms;
        sentence_boundary_pause_ms := dflt 800 sentence_boundary_pause_ms;
        long_pause_chance := dflt 0.05 long_pause_chance;
        long_pause_max_ms := dflt 2000 long_pause_max_ms |}.

(** [HumanTyperConfig()]. *)
Definition HumanTyperConfig_default : HumanTyperConfig :=
  {| average_wpm := 70; wpm_std_dev := 17.5; typo_rate := 0.01;
     typo_correction_rate := 0.96; word_boundary_pause_ms := 300;
     sentence_boundary_pause_ms := 800; long_pause_chance := 0.05;
     long_pause_max_ms := 2000 |}.

Inductive config_field : Type :=
| f_average_wpm | f_wpm_std_dev | f_typo_rate | f_typo_correction_rate
| f_word_boundary_pause_ms | f_sentence_boundary_pause_ms
| f_long_pause_chance | f_long_pause_max_ms.

(** [cfg.<field>]. *)
Definition getattr (cfg : HumanTyperConfig) (f : config_field) : Q :=
  match f with
  | f_average_wpm => average_wpm cfg
  | f_wpm_std_dev => wpm_std_dev cfg
  | f_typo_rate => typo_rate cfg
  | f_typo_correction_rate => typo_correction_rate cfg
  | f_word_boundary_pause_ms => word_boundary_pause_ms cfg
  | f_sentence_boundary_pause_ms => sentence_boundary_pause_ms cfg
  | f_long_pause_chance => long_pause_chance cfg
  | f_long_pause_max_ms => long_pause_max_ms cfg
  end.

(** [cfg.<field> = v]: the dataclass is not frozen, the assignment goes
    through and the object now holds [v]. *)
Definition setattr (cfg : HumanTyperConfig) (f : config_field) (v : Q)
    : outcome HumanTyperConfig :=
  let '{| average_wpm := a; wpm_std_dev := b; typo_rate := c;
          typo_correction_rate := d; word_boundary_pause_ms := e;
          sentence_boundary_pause_ms := g; long_pause_chance := h;
          long_pause_max_ms := i |} := cfg in
  Ok match f with
     | f_average_wpm => Build_HumanTyperConfig v b c d e g h i
     | f_wpm_std_dev => Build_HumanTyperConfig a v c d e g h i
     | f_typo_rate => Build_HumanTyperConfig a b v d e g h i
     | f_typo_correction_rate => Build_HumanTyperConfig a b c v e g h i
     | f_word_boundary_pause_ms => Build_HumanTyperConfig a b c d v g h i
     | f_sentence_boundary_pause_ms => Build_HumanTyperConfig a b c d e v h i
     | f_long_pause_chance => Build_HumanTyperConfig a b c d e g v i
     | f_long_pause_max_ms => Build_HumanTyperConfig a b c d e g h v
     end.

Record KeystrokeEvent : Type := {
  key : str;
  time : Q;
  is_typo : bool;
  is_correction : bool
}.

(** [KeystrokeEvent(key=k, time=t)] with the flags at their defaults. *)
Definition plain_event (k : str) (t : Q) : KeystrokeEvent :=
  {| key := k; time := t; is_typo := false; is_correction := false |}.

Definition SENTENCE_ENDINGS : list str := Eval cbv in map str_of ["."; "!"; "?"]%string.
Definition WORD_BOUNDARIES : list str :=
  [[" "%char]; [ascii_of_nat 9]; [ascii_of_nat 10]].

(** [x in frozenset]. *)
Definition member (x : str) (s : list str) : bool := existsb (str_eqb x) s.

(** Truth value of an [Optional[str]]. *)
Definition truthy (s : option str) : bool :=
  match s with
  | Some (_ :: _) => true
  | _ => false
  end.

Definition Backspace : str := Eval cbv in str_of "Backspace".

Section Typing.
Context `{RandomSource} `{MathLib}.

(** [compute_delay(char, prev_char, config)]. *)
Definition compute_delay (fuel : nat) (char : str) (prev_char : option str)
    (config : HumanTyperConfig) : Rand Q :=
  delay <~ sample_iki fuel (average_wpm config) (wpm_std_dev config) ;;
  delay <~
    (if truthy prev_char
        && member (match prev_char with Some p => p | None => [] end) SENTENCE_ENDINGS
        && member char WORD_BOUNDARIES
     then
       u <~ random ;;
       rret (delay + sentence_boundary_pause_ms config * (0.5 + u))
     else if member char WORD_BOUNDARIES then
       u <~ random ;;
       rret (delay + word_boundary_pause_ms config * (0.3 + u * 0.7))
     else rret delay) ;;
  r <~ random ;;
  delay <~
    (if Qlt_le_dec r (long_pause_chance config) then
       u <~ random ;;
       rret (delay + u * long_pause_max_ms config)
     else rret delay) ;;
  rret (Py.max delay 10).

(** The body of [for char in text] in [simulate_typing], from the
    characters still to type; [log], [prev_char] and [current_time] are
    the loop's variables. *)
Fixpoint simulate_typing_loop (fuel : nat) (cfg : HumanTyperConfig)
    (text : str) (prev_char : option str) (current_time : Q)
    (log : list KeystrokeEvent) : Rand (list KeystrokeEvent) :=
  match text with
  | [] => rret log
  | c :: text' =>
      let char := [c] in
      delay <~ compute_delay fuel char prev_char cfg ;;
      let current_time := current_time + delay in
      r <~ random ;;
      if Qlt_le_dec r (typo_rate cfg) then
        wrong_key <~ nearby_key char ;;
        let log := log ++ [ {| key := wrong_key; time := current_time;
                               is_typo := true; is_correction := false |} ] in
        r' <~ random ;;
        if Qlt_le_dec r' (typo_correction_rate cfg) then
          u <~ random ;;
          let current_time := current_time + (200 + u * 300) in
          let log := log ++ [ {| key := Backspace; time := current_time;
                                 is_typo := false; is_correction := true |} ] in
          u' <~ random ;;
          let current_time := current_time + (100 + u' * 100) in
          let log := log ++ [ plain_event char current_time ] in
          simulate_typing_loop fuel cfg text' (Some char) current_time log
        else
          simulate_typing_loop fuel cfg text' (Some char) current_time log
      else
        let log := log ++ [ plain_event char current_time ] in
        simulate_typing_loop fuel cfg text' (Some char) current_time log
  end.

(** [simulate_typing(text, config)]; [now] is the value of [time.time()]. *)
Definition simulate_typing (fuel : nat) (now : Q) (text : str)
    (config : option HumanTyperConfig) : Rand (list KeystrokeEvent) :=
  let cfg := match config with Some c => c | None => HumanTyperConfig_default end in
  let current_time := now * 1000 in
  simulate_typing_loop fuel cfg text None current_time [].

End Typing.

(** The [params] dict of one [Input.dispatchKeyEvent] call. *)
Record KeyEventParams : Type := {
  ev_type : str;
  ev_key : str;
  ev_text : option str
}.

(** What [human_type_cdp] does to the outside, in order. *)
Inductive action : Type :=
| Sleep (seconds : Q)
| SendRaw (method : str) (params : KeyEventParams) (session_id : str).

(** [CDPDispatcher]: the client is the channel the [SendRaw] actions go
    to. *)
Record CDPDispatcher : Type := { _session_id : str }.

Definition keyDown : str := Eval cbv in str_of "keyDown".
Definition keyUp : str := Eval cbv in str_of "keyUp".
Definition dispatchKeyEvent : str := Eval cbv in str_of "Input.dispatchKeyEvent".

(** [dispatcher.send(method, params)]. *)
Definition send (dispatcher : CDPDispatcher) (method : str)
    (params : KeyEventParams) : list action :=
  [SendRaw method params (_session_id dispatcher)].

(** [_dispatch_char(dispatcher, char)]. *)
Definition _dispatch_char (dispatcher : CDPDispatcher) (char : str) : list action :=
  send dispatcher dispatchKeyEvent
       {| ev_type := keyDown; ev_key := char; ev_text := Some char |}
  ++ send dispatcher dispatchKeyEvent
       {| ev_type := keyUp; ev_key := char; ev_text := None |}.

(** [_dispatch_key(dispatcher, key)]. *)
Definition _dispatch_key (dispatcher : CDPDispatcher) (key : str) : list action :=
  send dispatcher dispatchKeyEvent
       {| ev_type := keyDown; ev_key := key; ev_text := None |}
  ++ send dispatcher dispatchKeyEvent
       {| ev_type := keyUp; ev_key := key; ev_text := None |}.

Definition space : str := [" "%char].

Section LiveTyping.
Context `{RandomSource} `{MathLib}.

(** The body of [for i, char in enumerate(text)] in [human_type_cdp];
    [prev] is [text[i - 1]] when [i > 0], and [trace] what was done so
    far. *)
Fixpoint human_type_cdp_loop (fuel : nat) (dispatcher : CDPDispatcher)
    (average_wpm wpm_std_dev typo_rate : Q)
    (text : str) (prev : option str) (trace : list action)
    : Rand (list action) :=
  match text with
  | [] => rret trace
  | c :: text' =>
      let char := [c] in
      delay <~ sample_iki fuel average_wpm wpm_std_dev ;;
      (* Add word/sentence boundary pauses *)
      let extra_delay := 0 in
      extra_delay <~
        (if str_eqb char space then
           u <~ random ;; rret (extra_delay + (100 + u * 200))
         else rret extra_delay) ;;
      extra_delay <~
        (if match prev with
            | Some p => member p (map (fun x => [x]) (str_of ".!?"))
            | None => false
            end && str_eqb char space
         then u <~ random ;; rret (extra_delay + (300 + u * 500))
         else rret extra_delay) ;;
      let trace := trace ++ [Sleep ((delay + extra_delay) / 1000)] in
      (* Roll for typo *)
      r <~ random ;;
      trace <~
        (if Qlt_le_dec r typo_rate then
           wrong_char <~ nearby_key char ;;
           let trace := trace ++ _dispatch_char dispatcher wrong_char in
           u <~ random ;;
           let trace := trace ++ [Sleep ((200 + u * 300) / 1000)] in
           let trace := trace ++ _dispatch_key dispatcher Backspace in
           u' <~ random ;;
           rret (trace ++ [Sleep ((100 + u' * 100) / 1000)])
         else rret trace) ;;
      let trace := trace ++ _dispatch_char dispatcher char in
      human_type_cdp_loop fuel dispatcher average_wpm wpm_std_dev typo_rate
        text' (Some char) trace
  end.

(** [human_type_cdp(dispatcher, text, average_wpm=..., typo_rate=...)];
    the keyword defaults are [60] and [0.01]. *)
Definition human_type_cdp (fuel : nat) (dispatcher : CDPDispatcher)
    (text : str) (average_wpm typo_rate : Q) : Rand (list action) :=
  let wpm_std_dev := average_wpm * 0.25 in
  human_type_cdp_loop fuel dispatcher average_wpm wpm_std_dev typo_rate
    text None [].

End LiveTyping.

(** The keys pressed by a trace: the [key] of every key-down call. *)
Definition typed_keys (trace : list action) : list str :=
  flat_map (fun a =>
              match a with
              | SendRaw _ p _ => if str_eqb (ev_type p) keyDown then [ev_key p] else []
              | Sleep _ => []
              end) trace.

End Typer.

(* ================================================================== *)
(** * skills/video_solver/extract_frames.py *)
(* ================================================================== *)

Module ExtractFrames.
Local Open Scope Q_scope.

Record FrameAnalysis : Type := {
  path : str;
  is_blank : bool;
  top_margin : Q;
  bottom_margin : Q;
  is_fully_visible : bool;
  content_hash : Q
}.

Record ExtractionConfig : Type := {
  fps : Z;
  blank_threshold : Q;
  bright_luminance : Z;
  edge_margin_threshold : Q;
  content_luminance_threshold : Z;
  content_row_threshold : Q
}.

(** [ExtractionConfig()]. *)
Definition ExtractionConfig_default : ExtractionConfig :=
  {| fps := 5; blank_threshold := 0.999; bright_luminance := 250;
     edge_margin_threshold := 0.10; content_luminance_threshold := 200;
     content_row_threshold := 0.005 |}.

(** The ffmpeg / ffprobe subprocesses: [ffmpeg_frames video_path fps] is
    the sorted list of frame files [extract_frames] finds, and
    [_get_grayscale_pixels frame_path] the raw gray bytes with the
    probed width and height. *)
Class FrameDecoder : Type := {
  ffmpeg_frames : str -> Z -> outcome (list str);
  _get_grayscale_pixels : str -> outcome (list Z * nat * nat)
}.

Definition nQ (n : nat) : Q := inject_Z (Z.of_nat n).

(** [config or ExtractionConfig()]. *)
Definition config_or_default (config : option ExtractionConfig) : ExtractionConfig :=
  match config with
  | Some c => c
  | None => ExtractionConfig_default
  end.

(** [extract_frames(video_path, config)]. *)
Definition extract_frames `{FrameDecoder} (video_path : str)
    (config : option ExtractionConfig) : outcome (list str) :=
  let cfg := config_or_default config in
  ffmpeg_frames video_path (fps cfg).

(** The first loop of [analyze_frame]: the number of bytes at or above
    [bright_luminance]. *)
Definition count_bright (data : list Z) (bright_luminance : Z) : nat :=
  fold_left (fun bright_pixels p =>
               if (bright_luminance <=? p)%Z then S bright_pixels else bright_pixels)
            data O.

(** [for x in range(width)] of the row scan: the dark pixels of row [y]. *)
Fixpoint dark_in_row (data : list Z) (width : nat) (threshold : Z) (y : nat)
    (xs : list nat) (dark_pixels_in_row : nat) : outcome nat :=
  match xs with
  | [] => Ok dark_pixels_in_row
  | x :: xs' =>
      pixel <- index data (y * width + x) ;;
      dark_in_row data width threshold y xs'
        (if (pixel <? threshold)%Z then S dark_pixels_in_row else dark_pixels_in_row)
  end.

(** [for y in range(height)]: the running [(y_min, y_max)]. *)
Fixpoint scan_rows (cfg : ExtractionConfig) (data : list Z) (width : nat)
    (ys : list nat) (y_min y_max : nat) : outcome (nat * nat) :=
  match ys with
  | [] => Ok (y_min, y_max)
  | y :: ys' =>
      dark_pixels_in_row <-
        dark_in_row data width (content_luminance_threshold cfg) y (seq 0 width) O ;;
      dark_fraction <- truediv (nQ dark_pixels_in_row) (nQ width) ;;
      if Qle_bool (content_row_threshold cfg) dark_fraction then
        scan_rows cfg data width ys' (Nat.min y_min y) (Nat.max y_max y)
      else
        scan_rows cfg data width ys' y_min y_max
  end.

(** [for x in range(width)] of the darkness sum. *)
Fixpoint darkness_in_row (data : list Z) (width : nat) (threshold : Z) (y : nat)
    (xs : list nat) (content_darkness : Z) (content_pixel_count : nat)
    : outcome (Z * nat) :=
  match xs with
  | [] => Ok (content_darkness, content_pixel_count)
  | x :: xs' =>
      pixel <- index data (y * width + x) ;;
      if (pixel <? threshold)%Z then
        darkness_in_row data width threshold y xs'
          (content_darkness + (255 - pixel))%Z (S content_pixel_count)
      else
        darkness_in_row data width threshold y xs'
          content_darkness content_pixel_count
  end.

(** [for y in range(y_min, y_max + 1)] of the darkness sum. *)
Fixpoint darkness_in_rows (data : list Z) (width : nat) (threshold : Z)
    (ys : list nat) (content_darkness : Z) (content_pixel_count : nat)
    : outcome (Z * nat) :=
  match ys with
  | [] => Ok (content_darkness, content_pixel_count)
  | y :: ys' =>
      acc <- darkness_in_row data width threshold y (seq 0 width)
               content_darkness content_pixel_count ;;
      darkness_in_rows data width threshold ys' (fst acc) (snd acc)
  end.

(** [analyze_frame(frame_path, config)]. *)
Definition analyze_frame `{FrameDecoder} (frame_path : str)
    (config : option ExtractionConfig) : outcome FrameAnalysis :=
  let cfg := config_or_default config in
  decoded <- _get_grayscale_pixels frame_path ;;
  let '(data, width, height) := decoded in
  let bright_pixels := count_bright data (bright_luminance cfg) in
  let total_pixels := (width * height)%nat in
  bright_fraction <- truediv (nQ bright_pixels) (nQ total_pixels) ;;
  let is_blank := Qle_bool (blank_threshold cfg) bright_fraction in
  if is_blank then
    Ok {| path := frame_path; is_blank := true; top_margin := 1.0;
          bottom_margin := 1.0; is_fully_visible := false; content_hash := 0 |}
  else
    rows <- scan_rows cfg data width (seq 0 height) height O ;;
    let '(y_min, y_max) := rows in
    content <-
      (if (y_min <=? y_max)%nat then
         darkness_in_rows data width (content_luminance_threshold cfg)
           (seq y_min (y_max + 1 - y_min)) 0%Z O
       else Ok (0%Z, O)) ;;
    let '(content_darkness, content_pixel_count) := content in
    top_margin <- truediv (nQ y_min) (nQ height) ;;
    bottom_margin <-
      truediv (inject_Z (Z.of_nat height - 1 - Z.of_nat y_max)) (nQ height) ;;
    let is_fully_visible :=
      Qle_bool (edge_margin_threshold cfg) top_margin
      && Qle_bool (edge_margin_threshold cfg) bottom_margin in
    content_hash <-
      (if (0 <? content_pixel_count)%nat
       then truediv (inject_Z content_darkness) (nQ content_pixel_count)
       else Ok 0) ;;
    Ok {| path := frame_path; is_blank := false; top_margin := top_margin;
          bottom_margin := bottom_margin; is_fully_visible := is_fully_visible;
          content_hash := content_hash |}.

(** [groups[-1].append(x)]. *)
Definition append_to_last {A} (groups : list (list A)) (x : A) : list (list A) :=
  removelast groups ++ [last groups [] ++ [x]].

(** [for i in range(1, len(frames))] of [deduplicate_frames]. *)
Fixpoint group_frames (frames : list FrameAnalysis) (original_indices : list Z)
    (steps : list nat) (groups : list (list FrameAnalysis))
    : outcome (list (list FrameAnalysis)) :=
  match steps with
  | [] => Ok groups
  | i :: steps' =>
      prev_idx <- index original_indices (i - 1) ;;
      curr_idx <- index original_indices i ;;
      frame <- index frames i ;;
      if (curr_idx - prev_idx <=? 1)%Z then
        group_frames frames original_indices steps' (append_to_last groups frame)
      else
        group_frames frames original_indices steps' (groups ++ [[frame]])
  end.

(** [abs(frame.top_margin - frame.bottom_margin)], on the doubles the
    two margins are. *)
Definition center_score (frame : FrameAnalysis) : float :=
  fabs (fsub (float_of (top_margin frame)) (float_of (bottom_margin frame))).

(** [for frame in group[1:]]: the running [best] and its score. *)
Fixpoint pick_best (rest : list FrameAnalysis) (best : FrameAnalysis)
    (best_center_score : float) : FrameAnalysis :=
  match rest with
  | [] => best
  | frame :: rest' =>
      let score := center_score frame in
      if flt score best_center_score
      then pick_best rest' frame score
      else pick_best rest' best best_center_score
  end.

(** [for group in groups]: one representative per group. *)
Fixpoint pick_representatives (groups : list (list FrameAnalysis))
    (result : list FrameAnalysis) : outcome (list FrameAnalysis) :=
  match groups with
  | [] => Ok result
  | group :: groups' =>
      best <- index group 0 ;;
      let best_center_score := center_score best in
      pick_representatives groups'
        (result ++ [pick_best (tl group) best best_center_score])
  end.

(** [deduplicate_frames(frames, original_indices)]. *)
Definition deduplicate_frames (frames : list FrameAnalysis)
    (original_indices : list Z) : outcome (list FrameAnalysis) :=
  match frames with
  | [] => Ok []
  | frame0 :: _ =>
      groups <- group_frames frames original_indices
                  (range 1 (List.length frames) 1) [[frame0]] ;;
      pick_representatives groups []
  end.

(** [for i, analysis in enumerate(analyses)] of
    [extract_distinct_frames]: the frames kept, with their indices. *)
Fixpoint keep_fully_visible (analyses : list FrameAnalysis) (i : Z)
    (fully_visible : list FrameAnalysis) (original_indices : list Z)
    : list FrameAnalysis * list Z :=
  match analyses with
  | [] => (fully_visible, original_indices)
  | analysis :: rest =>
      if negb (is_blank analysis) && is_fully_visible analysis then
        keep_fully_visible rest (i + 1)%Z
          (fully_visible ++ [analysis]) (original_indices ++ [i])
      else
        keep_fully_visible rest (i + 1)%Z fully_visible original_indices
  end.

(** [extract_distinct_frames(video_path, config)]. *)
Definition extract_distinct_frames `{FrameDecoder} (video_path : str)
    (config : option ExtractionConfig) : outcome (list str) :=
  frame_paths <- extract_frames video_path config ;;
  analyses <- gather (map (fun fp => analyze_frame fp config) frame_paths) ;;
  let kept := keep_fully_visible analyses 0%Z [] [] in
  representatives <- deduplicate_frames (fst kept) (snd kept) ;;
  Ok (map path representatives).

End ExtractFrames.

(* ================================================================== *)
(** * skills/video_solver/read_digits.py *)
(* ================================================================== *)

Module ReadDigits.

(** A block of [response.content]. *)
Record ContentBlock : Type := {
  block_type : str;
  block_text : str
}.

(** What [read_digit_from_frame] reaches outside for: the file system
    ([Path.read_bytes], [Path.suffix]), base64, and the vision client's
    [messages.create] called with a media type and the encoded image (the
    model name, token limit and prompt are constants of the call). *)
Class VisionClient : Type := {
  read_bytes : str -> outcome str;
  path_suffix : str -> str;
  standard_b64encode : str -> str;
  messages_create : str -> str -> outcome (list ContentBlock)
}.

Definition image_png : str := Eval cbv in str_of "image/png".
Definition image_jpeg : str := Eval cbv in str_of "image/jpeg".

(** [re.search(r"\d", text)]: the first digit of [text], if any. *)
Definition search_digit (text : str) : option ascii := find is_digit text.

Section Reading.
Context `{VisionClient}.

(** [read_digit_from_frame(frame_path)]. *)
Definition read_digit_from_frame (frame_path : str) : outcome str :=
  image_data <- read_bytes frame_path ;;
  let b64 := standard_b64encode image_data in
  let ext := lower (lstrip_by (Ascii.eqb "."%char) (path_suffix frame_path)) in
  let media_type :=
    if str_eqb ext (str_of "png") then image_png
    else if str_eqb ext (str_of "jpg") || str_eqb ext (str_of "jpeg") then image_jpeg
    else image_png in
  response <- messages_create media_type b64 ;;
  block <- index response 0 ;;
  let text :=
    if str_eqb (block_type block) (str_of "text")
    then strip (block_text block) else [] in
  (* Extract just the digit from the response *)
  match search_digit text with
  | Some d => Ok [d]
  | None => Ok text
  end.

(** [read_digits_from_frames(frame_paths)]. *)
Definition read_digits_from_frames (frame_paths : list str) : outcome str :=
  match frame_paths with
  | [] => Ok []
  | _ =>
      results <- gather (map read_digit_from_frame frame_paths) ;;
      Ok (List.concat results)
  end.

(** [votes[digit] = votes.get(digit, 0) + 1] on a dict kept in insertion
    order. *)
Fixpoint vote (votes : list (ascii * nat)) (digit : ascii) : list (ascii * nat) :=
  match votes with
  | [] => [(digit, 1)]
  | (k, n) :: rest =>
      if Ascii.eqb k digit then (k, n + 1) :: rest
      else (k, n) :: vote rest digit
  end.

(** [for loop in loops]: the votes for position [pos]. *)
Definition tally (loops : list str) (pos : nat) : list (ascii * nat) :=
  fold_left (fun votes loop =>
               if pos <? List.length loop then
                 match nth_error loop pos with
                 | Some digit => vote votes digit
                 | None => votes
                 end
               else votes)
            loops [].

(** [for digit, count in votes.items()]: the running
    [(best_digit, best_count)], then [best_digit]. *)
Definition best_of (votes : list (ascii * nat)) : str :=
  fst (fold_left (fun best dc =>
                    if snd best <? snd dc then ([fst dc], snd dc) else best)
                 votes ([], 0)).

(** [read_digits_with_validation(frame_paths, sequence_length)]. *)
Definition read_digits_with_validation (frame_paths : list str)
    (sequence_length : Z) : outcome str :=
  all_digits <- read_digits_from_frames frame_paths ;;
  if (Z.of_nat (List.length all_digits) <=? sequence_length)%Z then Ok all_digits
  else
    (* Split into loops *)
    starts <- rangeZ 0 (Z.of_nat (List.length all_digits)) sequence_length ;;
    let loops :=
      map (fun i => slice all_digits (Z.to_nat i) (Z.to_nat (i + sequence_length)))
          starts in
    (* Majority vote per position *)
    let result :=
      map (fun pos => best_of (tally loops pos)) (seq 0 (Z.to_nat sequence_length)) in
    Ok (List.concat result).

End Reading.

End ReadDigits.

(* ================================================================== *)
(** * The browser action of skills/video_solver/__init__.py *)
(* ================================================================== *)

Module VideoSolverTool.
Import VideoSolver ExtractFrames ReadDigits.

(** The files on disk: the content last written to each path comes
    first. *)
Definition files : Type := list (str * str).

(** What [download_video] reaches outside for: [tempfile.mkdtemp] with
    its prefix, and the GET request with [raise_for_status] and [read]. *)
Class Web : Type := {
  mkdtemp : str -> str;
  http_get : str -> outcome str
}.

(** [s.endswith(suffix)]. *)
Definition endswith (s suffix : str) : bool :=
  (List.length suffix <=? List.length s)
  && str_eqb (skipn (List.length s - List.length suffix) s) suffix.

(** [download_video(url)]: the path written, and the files afterwards. *)
Definition download_video `{Web} (url : str) (disk : files) : outcome (str * files) :=
  let temp_dir := mkdtemp (str_of "video-dl-") in
  let ext := if endswith url (str_of ".gif") then str_of "gif" else str_of "mp4" in
  let output_path := temp_dir ++ str_of "/" ++ str_of "video." ++ ext in
  data <- http_get url ;;
  Ok (output_path, (output_path, data) :: disk).

(** [ActionResult] of browser_use, with the two fields the action sets. *)
Record ActionResult : Type := {
  extracted_content : option str;
  error : option str
}.

(** [solve_attention_video_tool(gif_url)]. *)
Definition solve_attention_video_tool `{Web} `{FrameDecoder} `{VisionClient}
    (gif_url : str) (disk : files) : outcome (ActionResult * files) :=
  downloaded <- download_video gif_url disk ;;
  let '(video_path, disk) := downloaded in
  frames <- extract_distinct_frames video_path None ;;
  match frames with
  | [] =>
      Ok ({| extracted_content := None;
             error := Some (str_of "No fully-visible digit frames found in the video") |},
          disk)
  | _ :: _ =>
      all_digits <- read_digits_from_frames frames ;;
      let sequence := detect_repeating_sequence all_digits in
      Ok ({| extracted_content := Some (str_of "The digit sequence is: " ++ sequence);
             error := None |},
          disk)
  end.

End VideoSolverTool.

(* ================================================================== *)
(** * Properties *)
(* ================================================================== *)

Import VideoSolver Distributions Typer ExtractFrames ReadDigits.

(** ** Double-precision rounding *)

Section Rounding.
Local Open Scope Q_scope.

Lemma pow2_pos (k : Z) : 0 < pow2 k.
Proof. apply Qpower_0_lt. reflexivity. Qed.

Lemma pow2_plus (a b : Z) : pow2 (a + b) == pow2 a * pow2 b.
Proof. apply Qpower_plus. discriminate. Qed.

Lemma pow2_succ (a : Z) : pow2 (a + 1) == 2 * pow2 a.
Proof. rewrite pow2_plus. unfold pow2 at 2. simpl. ring. Qed.

Lemma pow2_le (a b : Z) : (a <= b)%Z -> pow2 a <= pow2 b.
Proof. intros H. apply Qpower_le_compat_l; [exact H | discriminate]. Qed.

Lemma pow2_lt_inv (a b : Z) : pow2 a < pow2 b -> (a < b)%Z.
Proof. intros H. apply (Qpower_lt_compat_l_inv 2); [exact H | reflexivity]. Qed.

Lemma pow2_inject (n : Z) : (0 <= n)%Z -> inject_Z (2 ^ n) == pow2 n.
Proof. intros H. apply (Zpower_Qpower 2 n H). Qed.

Lemma rne_cases (x : Q) : rne x = Qfloor x \/ rne x = (Qfloor x + 1)%Z.
Proof.
  unfold rne. destruct (Qcompare _ _); auto. destruct (Z.even _); auto.
Qed.

Lemma rne_bounds (x : Q) :
  - (1 # 2) <= inject_Z (rne x) - x /\ inject_Z (rne x) - x <= 1 # 2.
Proof.
  unfold rne. pose proof (Qfloor_le x) as Hl. pose proof (Qlt_floor x) as Hu.
  rewrite inject_Z_plus in Hu. change (inject_Z 1) with 1 in Hu.
  destruct (Qcompare_spec (x - inject_Z (Qfloor x)) (1 # 2)) as [E | E | E].
  - destruct (Z.even (Qfloor x));
      [| rewrite inject_Z_plus; change (inject_Z 1) with 1]; lra.
  - lra.
  - rewrite inject_Z_plus; change (inject_Z 1) with 1; lra.
Qed.

Lemma rne_comp (x y : Q) : x == y -> rne x = rne y.
Proof.
  intros E. unfold rne. rewrite (Qfloor_comp _ _ E).
  assert (Hc : Qcompare (x - inject_Z (Qfloor y)) (1 # 2)
               = Qcompare (y - inject_Z (Qfloor y)) (1 # 2)).
  { apply Qcompare_comp; [rewrite E; reflexivity | reflexivity]. }
  rewrite Hc. reflexivity.
Qed.

Lemma rne_inject (n : Z) : rne (inject_Z n) = n.
Proof.
  unfold rne. rewrite Qfloor_Z.
  destruct (Qcompare_spec (inject_Z n - inject_Z n) (1 # 2)) as [E | E | E];
    [exfalso; lra | reflexivity | exfalso; lra].
Qed.

Lemma rne_mono (x y : Q) : x <= y -> (rne x <= rne y)%Z.
Proof.
  intros Hxy. pose proof (Qfloor_resp_le _ _ Hxy) as Hf.
  destruct (Z.eq_dec (Qfloor x) (Qfloor y)) as [E | N].
  - unfold rne. rewrite E.
    destruct (Qcompare_spec (x - inject_Z (Qfloor y)) (1 # 2)) as [Ex | Ex | Ex];
      destruct (Qcompare_spec (y - inject_Z (Qfloor y)) (1 # 2)) as [Ey | Ey | Ey];
      try (exfalso; lra); destruct (Z.even (Qfloor y)); lia.
  - destruct (rne_cases x) as [Hx | Hx], (rne_cases y) as [Hy | Hy]; lia.
Qed.

Lemma ilog2_spec (q : Q) :
  0 < q -> pow2 (ilog2 q) <= q /\ q < pow2 (ilog2 q + 1).
Proof.
  intros Hq. destruct q as [a b]. unfold ilog2. cbn [Qnum Qden].
  assert (Ha : (0 < a)%Z).
  { unfold Qlt in Hq. cbn in Hq. lia. }
  pose proof (Z.log2_spec a Ha) as [Hal Hau].
  pose proof (Z.log2_spec (Zpos b) (Pos2Z.is_pos b)) as [Hbl Hbu].
  pose proof (Z.log2_nonneg a) as Hla.
  pose proof (Z.log2_nonneg (Zpos b)) as Hlb.
  set (la := Z.log2 a) in *. set (lb := Z.log2 (Zpos b)) in *.
  assert (HA : pow2 la <= inject_Z a /\ inject_Z a < 2 * pow2 la).
  { split.
    - rewrite <- pow2_inject by exact Hla. rewrite <- Zle_Qle. exact Hal.
    - rewrite <- pow2_succ. rewrite <- pow2_inject by lia.
      rewrite <- Zlt_Qlt. exact Hau. }
  assert (HB : pow2 lb <= inject_Z (Zpos b) /\ inject_Z (Zpos b) < 2 * pow2 lb).
  { split.
    - rewrite <- pow2_inject by exact Hlb. rewrite <- Zle_Qle. exact Hbl.
    - rewrite <- pow2_succ. rewrite <- pow2_inject by lia.
      rewrite <- Zlt_Qlt. exact Hbu. }
  assert (Hq' : a # b == inject_Z a / inject_Z (Zpos b)) by apply Qmake_Qdiv.
  pose proof (pow2_pos la) as Hpa. pose proof (pow2_pos lb) as Hpb.
  assert (HB0 : 0 < inject_Z (Zpos b)) by lra.
  assert (He : pow2 (la - lb) == pow2 la / pow2 lb).
  { apply Qpower_minus. discriminate. }
  destruct (Qle_bool (pow2 (la - lb)) (a # b)) eqn:Hc.
  - apply Qle_bool_iff in Hc. split; [exact Hc |].
    rewrite pow2_succ, He, Hq'.
    apply Qlt_shift_div_r; [exact HB0 |].
    setoid_replace (2 * (pow2 la / pow2 lb) * inject_Z (Z.pos b))
      with ((2 * pow2 la) * (inject_Z (Z.pos b) / pow2 lb))
      by (field; lra).
    assert (H1 : 1 <= inject_Z (Z.pos b) / pow2 lb).
    { apply Qle_shift_div_l; lra. }
    nra.
  - assert (Hc' : a # b < pow2 (la - lb)).
    { apply Qnot_le_lt. intros H. apply Qle_bool_iff in H. congruence. }
    replace (la - lb - 1 + 1)%Z with (la - lb)%Z by lia.
    split; [| exact Hc'].
    assert (He' : pow2 (la - lb) == 2 * pow2 (la - lb - 1)).
    { rewrite <- pow2_succ. replace (la - lb - 1 + 1)%Z with (la - lb)%Z by lia.
      reflexivity. }
    assert (H2 : pow2 (la - lb - 1) == pow2 la / (2 * pow2 lb)).
    { setoid_replace (pow2 la / (2 * pow2 lb)) with ((pow2 la / pow2 lb) / 2)
        by (field; lra).
      rewrite <- He, He'. field. }
    rewrite H2, Hq'.
    apply Qle_shift_div_l; [exact HB0 |].
    setoid_replace (pow2 la / (2 * pow2 lb) * inject_Z (Z.pos b))
      with (pow2 la * (inject_Z (Z.pos b) / (2 * pow2 lb)))
      by (field; lra).
    assert (H1 : inject_Z (Z.pos b) / (2 * pow2 lb) <= 1).
    { apply Qle_shift_div_r; lra. }
    nra.
Qed.

Lemma ilog2_mono (p q : Q) : 0 < p -> p <= q -> (ilog2 p <= ilog2 q)%Z.
Proof.
  intros Hp Hpq.
  destruct (ilog2_spec p Hp) as [Hl _].
  destruct (ilog2_spec q) as [_ Hu]; [lra |].
  assert (H : (ilog2 p < ilog2 q + 1)%Z) by (apply pow2_lt_inv; lra).
  lia.
Qed.

Lemma grid_mono (k : Z) (x y : Q) : x <= y -> grid k x <= grid k y.
Proof.
  intros H. unfold grid. pose proof (pow2_pos k) as Hk.
  apply Qmult_le_compat_r; [| lra].
  rewrite <- Zle_Qle. apply rne_mono.
  unfold Qdiv. apply Qmult_le_compat_r; [exact H |].
  apply Qlt_le_weak, Qinv_lt_0_compat, Hk.
Qed.

Lemma grid_fix (k n : Z) (x : Q) : x == inject_Z n * pow2 k -> grid k x == x.
Proof.
  intros H. unfold grid. pose proof (pow2_pos k) as Hk.
  assert (E : x / pow2 k == inject_Z n) by (rewrite H; field; lra).
  rewrite (rne_comp _ _ E), rne_inject. rewrite H. reflexivity.
Qed.

Lemma grid_error (k : Z) (x : Q) :
  - (pow2 k / 2) <= grid k x - x /\ grid k x - x <= pow2 k / 2.
Proof.
  unfold grid. pose proof (pow2_pos k) as Hk.
  destruct (rne_bounds (x / pow2 k)) as [Hl Hu].
  set (m := inject_Z (rne (x / pow2 k))) in *.
  assert (E : x == (x / pow2 k) * pow2 k) by (field; lra).
  set (y := x / pow2 k) in *.
  split.
  - setoid_replace (m * pow2 k - x) with ((m - y) * pow2 k) by (rewrite E at 1; ring).
    setoid_replace (- (pow2 k / 2)) with (- (1 # 2) * pow2 k) by field.
    apply Qmult_le_compat_r; lra.
  - setoid_replace (m * pow2 k - x) with ((m - y) * pow2 k) by (rewrite E at 1; ring).
    setoid_replace (pow2 k / 2) with ((1 # 2) * pow2 k) by field.
    apply Qmult_le_compat_r; lra.
Qed.

(** The value [round_pos] rounds to, before the overflow test. *)
Definition value_pos (q : Q) : Q := grid (ulp_exp q) q.

Lemma pow2_on_grid (e k : Z) : (k <= e)%Z -> grid k (pow2 e) == pow2 e.
Proof.
  intros H. apply (grid_fix k (2 ^ (e - k))).
  rewrite pow2_inject by lia. rewrite <- pow2_plus.
  replace (e - k + k)%Z with e by lia. reflexivity.
Qed.

Lemma value_pos_mono (p q : Q) : 0 < p -> p <= q -> value_pos p <= value_pos q.
Proof.
  intros Hp Hpq. unfold value_pos, ulp_exp.
  pose proof (ilog2_mono p q Hp Hpq) as Hm.
  destruct (ilog2_spec p Hp) as [Hpl Hpu].
  destruct (ilog2_spec q) as [Hql Hqu]; [lra |].
  set (e1 := Z.max (ilog2 p) (-1022)). set (e2 := Z.max (ilog2 q) (-1022)).
  destruct (Z.eq_dec e1 e2) as [E | N].
  - rewrite E. apply grid_mono, Hpq.
  - assert (Hlt : (e1 < e2)%Z) by (subst e1 e2; lia).
    assert (He2 : e2 = ilog2 q) by (subst e1 e2; lia).
    apply Qle_trans with (pow2 (e1 + 1)).
    + rewrite <- (pow2_on_grid (e1 + 1) (e1 - 52)) by lia.
      apply grid_mono.
      apply Qle_trans with (pow2 (ilog2 p + 1)); [lra |].
      apply pow2_le. subst e1. lia.
    + apply Qle_trans with (pow2 e2); [apply pow2_le; lia |].
      rewrite <- (pow2_on_grid e2 (e2 - 52)) by lia.
      apply grid_mono. rewrite He2. exact Hql.
Qed.

Lemma value_pos_nonneg (q : Q) : 0 < q -> 0 <= value_pos q.
Proof.
  intros Hq. unfold value_pos.
  assert (E : grid (ulp_exp q) 0 == 0).
  { apply (grid_fix _ 0%Z). ring. }
  rewrite <- E. apply grid_mono. lra.
Qed.

Lemma round_pos_cases (q : Q) :
  (pow2 1024 <= value_pos q /\ round_pos q = PInf)
  \/ (value_pos q < pow2 1024 /\ round_pos q = Fin (Qred (value_pos q))).
Proof.
  unfold round_pos. fold (value_pos q).
  destruct (Qle_bool (pow2 1024) (value_pos q)) eqn:E.
  - left. split; [apply Qle_bool_iff, E | reflexivity].
  - right. split; [| reflexivity].
    apply Qnot_le_lt. intros H. apply Qle_bool_iff in H. congruence.
Qed.

Lemma round_pos_mono (p q : Q) :
  0 < p -> p <= q -> fle (round_pos p) (round_pos q) = true.
Proof.
  intros Hp Hpq. pose proof (value_pos_mono p q Hp Hpq) as Hv.
  destruct (round_pos_cases p) as [[H1 ->] | [H1 ->]],
           (round_pos_cases q) as [[H2 ->] | [H2 ->]]; cbn [fle fneg]; try reflexivity.
  - exfalso. lra.
  - apply Qle_bool_iff. rewrite !Qred_correct. exact Hv.
Qed.

Lemma round_pos_sign (q : Q) : 0 < q -> fle (Fin 0) (round_pos q) = true.
Proof.
  intros Hq. pose proof (value_pos_nonneg q Hq) as Hv.
  destruct (round_pos_cases q) as [[H ->] | [H ->]]; cbn [fle fneg]; [reflexivity |].
  apply Qle_bool_iff. rewrite Qred_correct. exact Hv.
Qed.

Lemma round_pos_not_nan (q : Q) : round_pos q <> NaN.
Proof. destruct (round_pos_cases q) as [[_ ->] | [_ ->]]; discriminate. Qed.

Lemma round_pos_not_NInf (q : Q) : round_pos q <> NInf.
Proof. destruct (round_pos_cases q) as [[_ ->] | [_ ->]]; discriminate. Qed.

Lemma round64_not_nan (q : Q) : round64 q <> NaN.
Proof.
  unfold round64. destruct (Qcompare q 0); [discriminate | |].
  - pose proof (round_pos_not_nan (- q)).
    destruct (round_pos (- q)); cbn [fneg]; congruence.
  - apply round_pos_not_nan.
Qed.

Lemma fle_fneg (a b : float) :
  a <> NaN -> b <> NaN -> fle (fneg a) (fneg b) = fle b a.
Proof.
  intros Ha Hb. destruct a, b ; cbn [fle fneg]; try reflexivity; try congruence.
  apply eq_true_iff_eq. rewrite !Qle_bool_iff, !Qred_correct. split; intros; lra.
Qed.

Lemma fle_trans (a b c : float) : fle a b = true -> fle b c = true -> fle a c = true.
Proof.
  destruct a, b, c; cbn [fle fneg]; try reflexivity; try discriminate.
  rewrite !Qle_bool_iff. intros; lra.
Qed.

Lemma fle_neg_zero (a : float) : fle (Fin 0) a = true -> fle (fneg a) (Fin 0) = true.
Proof.
  destruct a; cbn [fle fneg]; try reflexivity; try discriminate.
  rewrite !Qle_bool_iff, Qred_correct. intros; lra.
Qed.

(** Rounding never reverses the order of two real numbers. *)
Lemma round64_mono (p q : Q) : p <= q -> fle (round64 p) (round64 q) = true.
Proof.
  intros Hpq. unfold round64.
  destruct (Qcompare_spec p 0) as [Ep | Ep | Ep],
           (Qcompare_spec q 0) as [Eq | Eq | Eq]; try (exfalso; lra).
  - reflexivity.
  - apply round_pos_sign, Eq.
  - apply fle_neg_zero, round_pos_sign. lra.
  - rewrite fle_fneg by apply round_pos_not_nan.
    apply round_pos_mono; lra.
  - apply fle_trans with (Fin 0).
    + apply fle_neg_zero, round_pos_sign. lra.
    + apply round_pos_sign, Eq.
  - apply round_pos_mono; lra.
Qed.

Lemma round_pos_error (q : Q) :
  0 < q -> q < pow2 53 ->
  exists v, round_pos q = Fin v /\ - (1 # 2) <= v - q /\ v - q <= 1 # 2.
Proof.
  intros Hq Hb.
  destruct (ilog2_spec q Hq) as [Hl _].
  assert (He : (ilog2 q < 53)%Z) by (apply pow2_lt_inv; lra).
  assert (Hk : pow2 (ulp_exp q) <= 1).
  { change 1 with (pow2 0). apply pow2_le. unfold ulp_exp. lia. }
  destruct (grid_error (ulp_exp q) q) as [Hel Heu]. fold (value_pos q) in Hel, Heu.
  pose proof (pow2_pos (ulp_exp q)) as Hpos.
  assert (Hh : pow2 (ulp_exp q) / 2 <= 1 # 2).
  { apply Qle_shift_div_r; lra. }
  assert (Hbig : pow2 53 + 1 < pow2 1024) by (vm_compute; reflexivity).
  destruct (round_pos_cases q) as [[H _] | [_ ->]]; [exfalso; lra |].
  eexists. split; [reflexivity |]. rewrite Qred_correct. lra.
Qed.

(** Below [2^53] in magnitude rounding is finite and off by at most a
    half. *)
Lemma round64_error (q : Q) :
  - pow2 53 < q -> q < pow2 53 ->
  exists v, round64 q = Fin v /\ - (1 # 2) <= v - q /\ v - q <= 1 # 2.
Proof.
  intros Hl Hu. unfold round64.
  destruct (Qcompare_spec q 0) as [E | E | E].
  - exists 0. split; [reflexivity | lra].
  - destruct (round_pos_error (- q)) as (v & -> & H1 & H2); [lra | lra |].
    eexists. split; [reflexivity |]. rewrite Qred_correct. lra.
  - apply round_pos_error; assumption.
Qed.

Lemma ilog2_unique (q : Q) (e : Z) :
  pow2 e <= q -> q < pow2 (e + 1) -> ilog2 q = e.
Proof.
  intros Hl Hu. pose proof (pow2_pos e) as He.
  destruct (ilog2_spec q) as [Hl' Hu']; [lra |].
  assert (H1 : (ilog2 q < e + 1)%Z) by (apply pow2_lt_inv; lra).
  assert (H2 : (e < ilog2 q + 1)%Z) by (apply pow2_lt_inv; lra).
  lia.
Qed.

Lemma grid_comp (k : Z) (x y : Q) : x == y -> grid k x == grid k y.
Proof.
  intros E. unfold grid.
  assert (E' : x / pow2 k == y / pow2 k) by (rewrite E; reflexivity).
  rewrite (rne_comp _ _ E'). reflexivity.
Qed.

Lemma rne_range (x : Q) (a b : Z) :
  inject_Z a <= x -> x <= inject_Z b -> (a <= rne x <= b)%Z.
Proof.
  intros Ha Hb. split.
  - rewrite <- (rne_inject a). apply rne_mono, Ha.
  - rewrite <- (rne_inject b). apply rne_mono, Hb.
Qed.

(** A rounded positive value is a fixed point of the rounding. *)
Lemma value_pos_fixed (q : Q) :
  0 < q -> 0 < value_pos q -> value_pos (value_pos q) == value_pos q.
Proof.
  intros Hq Hv. destruct (ilog2_spec q Hq) as [Hl Hu].
  set (e := Z.max (ilog2 q) (-1022)).
  assert (Hk : ulp_exp q = (e - 52)%Z) by reflexivity.
  (* the rounded value lies in [0, 2^(e+1)] and on the grid of q *)
  assert (Hup : value_pos q <= pow2 (e + 1)).
  { unfold value_pos. rewrite Hk.
    rewrite <- (pow2_on_grid (e + 1) (e - 52)) by lia.
    apply grid_mono. apply Qle_trans with (pow2 (ilog2 q + 1)); [lra |].
    apply pow2_le. subst e. lia. }
  set (v := value_pos q) in *.
  assert (Hgrid : v == inject_Z (rne (q / pow2 (e - 52))) * pow2 (e - 52)).
  { unfold v, value_pos, grid. rewrite Hk. reflexivity. }
  destruct (ilog2_spec v Hv) as [Hvl Hvu].
  destruct (Qlt_le_dec v (pow2 (e + 1))) as [Hlt | Hge].
  - (* below the next binade: the same grid *)
    assert (He : Z.max (ilog2 v) (-1022) = e).
    { assert (H1 : (ilog2 v < e + 1)%Z) by (apply pow2_lt_inv; lra).
      destruct (Z.max_spec (ilog2 q) (-1022)) as [[Hc Hm] | [Hc Hm]]; fold e in Hm.
      - (* subnormal or least binade *) lia.
      - (* e = ilog2 q *)
        assert (Hlow : pow2 e <= v).
        { unfold v, value_pos. rewrite Hk.
          rewrite <- (pow2_on_grid e (e - 52)) by lia.
          apply grid_mono. rewrite Hm. exact Hl. }
        assert (H2 : (e < ilog2 v + 1)%Z) by (apply pow2_lt_inv; lra).
        lia. }
    unfold value_pos at 1, ulp_exp. rewrite He.
    apply (grid_fix _ (rne (q / pow2 (e - 52)))). exact Hgrid.
  - (* exactly the next power of two *)
    assert (Hv2 : v == pow2 (e + 1)) by lra.
    assert (He : ilog2 v = (e + 1)%Z).
    { apply ilog2_unique; [lra |]. rewrite Hv2.
      rewrite (pow2_succ (e + 1)). pose proof (pow2_pos (e + 1)). lra. }
    unfold value_pos at 1, ulp_exp. rewrite He.
    rewrite (grid_comp _ _ _ Hv2), Hv2.
    apply pow2_on_grid. subst e. lia.
Qed.

Lemma Qred_Qred (q : Q) : Qred (Qred q) = Qred q.
Proof. apply Qred_complete, Qred_correct. Qed.

Lemma value_pos_comp (p q : Q) : 0 < p -> p == q -> value_pos p == value_pos q.
Proof.
  intros Hp E. apply Qle_antisym; apply value_pos_mono; lra.
Qed.

Lemma round_pos_comp (p q : Q) : 0 < p -> p == q -> round_pos p = round_pos q.
Proof.
  intros Hp E. pose proof (value_pos_comp p q Hp E) as Hv.
  destruct (round_pos_cases p) as [[H1 ->] | [H1 ->]],
           (round_pos_cases q) as [[H2 ->] | [H2 ->]];
    try reflexivity; try (exfalso; lra).
  f_equal. apply Qred_complete, Hv.
Qed.

(** Rounding respects the equality of rationals. *)
Lemma round64_comp (p q : Q) : p == q -> round64 p = round64 q.
Proof.
  intros E. unfold round64.
  rewrite (Qcompare_comp p q E 0 0 (Qeq_refl 0)).
  destruct (Qcompare_spec q 0) as [H | H | H]; [reflexivity | |].
  - f_equal. apply round_pos_comp; [lra | rewrite E; reflexivity].
  - apply round_pos_comp; [lra | exact E].
Qed.

Lemma round_pos_idem (q v : Q) :
  0 < q -> round_pos q = Fin v -> 0 < v -> round_pos v = Fin v.
Proof.
  intros Hq E Hv.
  destruct (round_pos_cases q) as [[_ E'] | [Hb E']]; rewrite E' in E; [discriminate |].
  assert (Ev : v = Qred (value_pos q)) by congruence. subst v. clear E.
  rewrite Qred_correct in Hv.
  rewrite (round_pos_comp (Qred (value_pos q)) (value_pos q));
    [| rewrite Qred_correct; exact Hv | apply Qred_correct].
  pose proof (value_pos_fixed q Hq Hv) as F.
  destruct (round_pos_cases (value_pos q)) as [[H _] | [_ ->]]; [exfalso; lra |].
  f_equal. apply Qred_complete, F.
Qed.

Lemma round_pos_zero (q : Q) : 0 < q -> round_pos q = Fin 0 \/ exists v, 0 < v /\ (round_pos q = Fin v \/ round_pos q = PInf).
Proof.
  intros Hq. pose proof (value_pos_nonneg q Hq) as Hv.
  destruct (round_pos_cases q) as [[_ ->] | [_ ->]].
  - right. exists 1. split; [reflexivity | now right].
  - destruct (Qeq_dec (value_pos q) 0) as [E | N].
    + left. f_equal. rewrite (Qred_complete _ _ E). reflexivity.
    + right. exists (Qred (value_pos q)). split; [rewrite Qred_correct; lra | now left].
Qed.

(** A double is a fixed point of the rounding. *)
Lemma round64_idem (q v : Q) : round64 q = Fin v -> round64 v = Fin v.
Proof.
  unfold round64 at 1.
  destruct (Qcompare_spec q 0) as [H | H | H].
  - intros Ev. assert (E0 : v = 0) by congruence. subst v. reflexivity.
  - (* negative *)
    assert (Hq : 0 < - q) by lra.
    destruct (round_pos (- q)) as [w | | |] eqn:E; cbn [fneg]; try discriminate.
    intros Ev. assert (Hvw : v = Qred (- w)) by congruence. subst v. clear Ev.
    destruct (round_pos_zero (- q) Hq) as [Z | (v' & Hv' & [Z | Z])];
      rewrite E in Z; try discriminate.
    + assert (E0 : w = 0) by congruence. subst w. reflexivity.
    + assert (E0 : w = v') by congruence. subst v'.
      pose proof (round_pos_idem _ _ Hq E Hv') as I.
      unfold round64.
      assert (Hlt : Qred (- w) < 0) by (rewrite Qred_correct; lra).
      destruct (Qcompare_spec (Qred (- w)) 0) as [C | C | C]; try (exfalso; lra).
      rewrite (round_pos_comp (- Qred (- w)) w);
        [| rewrite Qred_correct; lra | rewrite Qred_correct; ring].
      rewrite I. reflexivity.
  - intros E.
    destruct (round_pos_zero q H) as [Z | (v' & Hv' & [Z | Z])];
      rewrite E in Z; try discriminate.
    + assert (E0 : v = 0) by congruence. subst v. reflexivity.
    + assert (E0 : v = v') by congruence. subst v'. unfold round64.
      destruct (Qcompare_spec v 0) as [C | C | C]; try (exfalso; lra).
      apply (round_pos_idem q v H E Hv').
Qed.

End Rounding.

(** ** Strings, ranges and slices *)

Lemma str_eqb_eq (a b : str) : str_eqb a b = true <-> a = b.
Proof.
  revert b. induction a as [|x a IH]; intros [|y b]; simpl; split; intro E;
    try reflexivity; try discriminate.
  - apply andb_true_iff in E as [E1 E2]. apply Ascii.eqb_eq in E1.
    apply IH in E2. congruence.
  - injection E as -> ->. rewrite Ascii.eqb_refl. simpl. now apply IH.
Qed.

Lemma str_eqb_refl (a : str) : str_eqb a a = true.
Proof. now apply str_eqb_eq. Qed.

Lemma str_eqb_neq (a b : str) : str_eqb a b = false <-> a <> b.
Proof.
  split.
  - intros E Hab. apply str_eqb_eq in Hab. congruence.
  - intro N. destruct (str_eqb a b) eqn:E; [|reflexivity].
    apply str_eqb_eq in E. contradiction.
Qed.

Lemma range_unit (start stop : nat) : range start stop 1 = seq start (stop - start).
Proof.
  unfold range. replace (1 - 1) with 0 by lia.
  rewrite Nat.add_0_r, Nat.div_1_r.
  generalize (stop - start) as n. intro n. revert start.
  induction n as [|n IH]; intro start; [reflexivity|].
  cbn [seq map]. f_equal; [lia|].
  rewrite <- seq_shift, map_map, <- (IH (S start)).
  apply map_ext. intro k. lia.
Qed.

Lemma In_range (start stop step i : nat) :
  0 < step ->
  In i (range start stop step) <-> exists k, i = start + k * step /\ i < stop.
Proof.
  intro Hs. unfold range. rewrite in_map_iff.
  set (N := stop - start + (step - 1)).
  pose proof (Nat.div_mod N step ltac:(lia)) as E.
  pose proof (Nat.mod_upper_bound N step ltac:(lia)) as U.
  split.
  - intros (k & <- & Hk). apply in_seq in Hk. exists k. split; [reflexivity|].
    assert (Hq : step * (k + 1) <= step * (N / step))
      by (apply Nat.mul_le_mono_l; lia).
    unfold N in *. lia.
  - intros (k & -> & Hk). exists k. split; [reflexivity|].
    apply in_seq. split; [lia|]. simpl.
    destruct (Nat.lt_ge_cases k (N / step)) as [Hlt | Hge]; [assumption|].
    exfalso.
    assert (Hq : step * (N / step) <= step * k)
      by (apply Nat.mul_le_mono_l; lia).
    unfold N in *. lia.
Qed.

Lemma slice_length {A} (s : list A) (i j : nat) :
  List.length (slice s i j) = Nat.min (j - i) (List.length s - i).
Proof. unfold slice. now rewrite length_firstn, length_skipn. Qed.

Lemma chunks_test_spec (s : str) (L : nat) :
  1 <= L ->
  forallb (chunk_matches s L (slice s 0 L)) (range L (List.length s) L) = true
  <-> full_chunks_agree s L.
Proof.
  intro HL. rewrite forallb_forall. unfold full_chunks_agree. split.
  - intros Hall k Hk Hfit.
    assert (Hin : In (k * L) (range L (List.length s) L)).
    { apply In_range; [lia|]. exists (k - 1). split; nia. }
    apply Hall in Hin. unfold chunk_matches in Hin.
    rewrite slice_length in Hin.
    replace (Nat.min (k * L + L - k * L) (List.length s - k * L)) with L in Hin by lia.
    rewrite Nat.eqb_refl in Hin. simpl in Hin.
    rewrite negb_involutive in Hin. now apply str_eqb_eq.
  - intros Hagree i Hin. apply In_range in Hin; [|lia].
    destruct Hin as (k & -> & Hlt). unfold chunk_matches.
    destruct (List.length (slice s (L + k * L) (L + k * L + L)) =? L) eqn:E;
      [|reflexivity].
    apply Nat.eqb_eq in E. rewrite slice_length in E. simpl.
    rewrite negb_involutive. apply str_eqb_eq.
    replace (L + k * L) with (S k * L) by lia.
    apply Hagree; [lia|]. simpl. lia.
Qed.

(** ** The repeating-sequence detector *)

Lemma find_first {A} (p : A -> bool) (l : list A) (x : A) :
  find p l = Some x ->
  exists l1 l2, l = l1 ++ x :: l2 /\ p x = true /\ forall y, In y l1 -> p y = false.
Proof.
  induction l as [|a l IH]; simpl; [discriminate|].
  destruct (p a) eqn:Pa.
  - intros [= ->]. exists [], l. repeat split; auto. intros y [].
  - intro F. destruct (IH F) as (l1 & l2 & -> & Px & Hl1).
    exists (a :: l1), l2. repeat split; auto.
    intros y [<- | Hy]; auto.
Qed.

Lemma seq_split_before (start len x : nat) (l1 l2 : list nat) :
  seq start len = l1 ++ x :: l2 -> forall y, start <= y < x -> In y l1.
Proof.
  revert start len. induction l1 as [|a l1 IH]; intros start len E y Hy.
  - destruct len; simpl in E; [discriminate|]. injection E as E _. lia.
  - destruct len; simpl in E; [discriminate|]. injection E as E1 E. subst a.
    destruct (Nat.eq_dec y start) as [->|N]; [now left|].
    right. apply (IH _ _ E). lia.
Qed.

(** C1 (as the code has it): [detect_repeating_sequence s] is total and
    returns [s[0:L]] for the smallest [L] in [1 .. len(s)/2] such that
    every later chunk [s[k*L : k*L+L]] of full length [L] equals [s[0:L]]
    (a shorter last chunk is not compared); when no such [L] exists it
    returns [s] unchanged. *)
Theorem detect_repeating_sequence_full_chunks : forall s : str,
  (forall L, 1 <= L <= List.length s / 2 -> full_chunks_agree s L ->
     (forall L', 1 <= L' < L -> ~ full_chunks_agree s L') ->
     detect_repeating_sequence s = slice s 0 L)
  /\ ((forall L, 1 <= L <= List.length s / 2 -> ~ full_chunks_agree s L) ->
      detect_repeating_sequence s = s).
Proof.
  intro s. unfold detect_repeating_sequence. rewrite range_unit.
  replace (List.length s / 2 + 1 - 1) with (List.length s / 2) by lia.
  split.
  - intros L HL Hagree Hmin.
    destruct (find _ _) as [L0|] eqn:F.
    + apply find_first in F as (l1 & l2 & E & P0 & Hbefore).
      assert (HL0 : In L0 (seq 1 (List.length s / 2))) by (rewrite E; apply in_elt).
      apply in_seq in HL0.
      apply chunks_test_spec in P0; [|lia].
      destruct (Nat.lt_trichotomy L0 L) as [Lt | [-> | Gt]]; [| reflexivity |].
      * exfalso. apply (Hmin L0); [lia | assumption].
      * exfalso. assert (Hin : In L l1) by (apply (seq_split_before _ _ _ _ _ E); lia).
        apply Hbefore in Hin. apply chunks_test_spec in Hagree; [|lia]. congruence.
    + exfalso.
      assert (Hin : In L (seq 1 (List.length s / 2))) by (apply in_seq; lia).
      pose proof (find_none _ _ F L Hin) as Hf. simpl in Hf.
      apply chunks_test_spec in Hagree; [|lia]. congruence.
  - intro Hnone. destruct (find _ _) as [L0|] eqn:F; [|reflexivity].
    exfalso. apply find_some in F as [Hin P0]. apply in_seq in Hin.
    apply chunks_test_spec in P0; [|lia]. apply (Hnone L0); [lia | assumption].
Qed.

(** C1 as worded fails on ["aaaab"]: no length in [1 .. 2] passes the
    test with the last chunk compared to the cut candidate (so the input
    should come back unchanged), yet the code returns ["aa"]. *)
Lemma detect_repeating_sequence_skips_short_tail :
  (forall L, 1 <= L <= List.length (str_of "aaaab") / 2 ->
     ~ chunks_agree_truncated (str_of "aaaab") L)
  /\ detect_repeating_sequence (str_of "aaaab") = str_of "aa"
  /\ str_of "aa" <> str_of "aaaab".
Proof.
  split; [|split; [reflexivity | discriminate]].
  intros L HL Hagree. simpl in HL.
  assert (HL' : L = 1 \/ L = 2) by lia. destruct HL' as [-> | ->].
  - specialize (Hagree 4 ltac:(lia) ltac:(simpl; lia)). discriminate Hagree.
  - specialize (Hagree 2 ltac:(lia) ltac:(simpl; lia)). discriminate Hagree.
Qed.

(** ** Running the model: concrete random sources and a rational [math] *)

Definition in_unit (q : Q) : bool := Qle_bool 0 q && negb (Qle_bool 1 q).

(** The stream that starts with the variates of [l] and goes on with
    [0.5]. *)
Definition draws_of (l : list Q) (n : nat) : Q := nth n l 0.5%Q.

Lemma draws_of_range (l : list Q) :
  forallb in_unit l = true ->
  forall n, (0 <= draws_of l n /\ draws_of l n < 1)%Q.
Proof.
  intros Hl n. unfold draws_of.
  destruct (nth_in_or_default n l 0.5%Q) as [Hin | ->].
  - rewrite forallb_forall in Hl. apply Hl in Hin. unfold in_unit in Hin.
    apply andb_true_iff in Hin as [H1 H2]. apply Qle_bool_iff in H1.
    apply negb_true_iff in H2. split; [assumption|].
    apply Qnot_le_lt. intro Hc. apply Qle_bool_iff in Hc. congruence.
  - split; lra.
Defined.

Lemma floor_index_bound (u : Q) (n : nat) :
  (0 <= u)%Q -> (u < 1)%Q -> 0 < n ->
  Z.to_nat (Qfloor (u * inject_Z (Z.of_nat n))) < n.
Proof.
  intros H0 H1 Hn.
  set (x := (u * inject_Z (Z.of_nat n))%Q).
  assert (Hn' : (0 < inject_Z (Z.of_nat n))%Q).
  { change 0%Q with (inject_Z 0). rewrite <- Zlt_Qlt. lia. }
  assert (Hx0 : (0 <= x)%Q) by (unfold x; nra).
  assert (Hx1 : (x < inject_Z (Z.of_nat n))%Q) by (unfold x; nra).
  assert (F0 : (0 <= Qfloor x)%Z).
  { change 0%Z with (Qfloor 0). now apply Qfloor_resp_le. }
  assert (F1 : (Qfloor x < Z.of_nat n)%Z).
  { rewrite Zlt_Qlt. apply Qle_lt_trans with x; [apply Qfloor_le | assumption]. }
  lia.
Qed.

(** The source whose variates are those of [draws_of l], and whose
    [random.choice] picks the index [floor(u * k)] for the variate [u]
    at the same position. *)
Definition source_of (l : list Q) (Hl : forallb in_unit l = true) : RandomSource :=
  {| draws := draws_of l;
     draws_range := draws_of_range l Hl;
     below := fun n k => Z.to_nat (Qfloor (draws_of l n * inject_Z (Z.of_nat k)));
     below_range := fun n k Hk =>
       floor_index_bound (draws_of l n) k
         (proj1 (draws_of_range l Hl n)) (proj2 (draws_of_range l Hl n)) Hk |}.

Lemma rational_log_nonneg (x : Q) : (1 <= x -> 0 <= x - 1)%Q.
Proof. intro. lra. Defined.

Lemma rational_log_nonpos (x : Q) : (0 < x -> x <= 1 -> x - 1 <= 0)%Q.
Proof. intros. lra. Defined.

(** Rational stand-ins with the signs of [log], [exp], [sqrt], [cos]. *)
Definition rational_math : MathLib :=
  {| m_log := fun x => (x - 1)%Q;
     m_exp := fun x => (1 + x * x)%Q;
     m_sqrt := fun x => x;
     m_cos := fun _ => 1%Q;
     m_pi := 3.14%Q;
     m_log_nonneg := rational_log_nonneg;
     m_log_nonpos := rational_log_nonpos |}.

(** ** The QWERTY neighbour table *)

Lemma dict_get_In {V} (d : list (str * V)) (k : str) (v : V) :
  dict_get d k = Some v -> In (k, v) d.
Proof.
  induction d as [|[k' v'] d IH]; simpl; [discriminate|].
  destruct (str_eqb k' k) eqn:E.
  - intros [= ->]. apply str_eqb_eq in E. subst. now left.
  - intro G. right. now apply IH.
Qed.

Lemma upper_char_idem (c : ascii) : upper_char (upper_char c) = upper_char c.
Proof. destruct c as [[] [] [] [] [] [] [] []]; reflexivity. Qed.

Lemma upper_idem (s : str) : upper (upper s) = upper s.
Proof.
  unfold upper. rewrite map_map. apply map_ext. exact upper_char_idem.
Qed.

(** What the table guarantees of every listed neighbour [p] of a key
    [k]: it is not [k], not even up to case, and it is in lower case. *)
Definition neighbor_ok (k p : str) : bool :=
  negb (str_eqb p k) && negb (str_eqb (lower (upper p)) k) && str_eqb (lower p) p.

Lemma QWERTY_NEIGHBORS_ok :
  forallb (fun e => forallb (neighbor_ok (fst e)) (snd e)) QWERTY_NEIGHBORS = true.
Proof. vm_compute. reflexivity. Qed.

Lemma neighbor_facts (k : str) (ns : list str) (p : str) :
  dict_get QWERTY_NEIGHBORS k = Some ns -> In p ns ->
  p <> k /\ lower (upper p) <> k /\ lower p = p.
Proof.
  intros G Hp. apply dict_get_In in G.
  pose proof QWERTY_NEIGHBORS_ok as T. rewrite forallb_forall in T.
  specialize (T _ G). simpl in T. rewrite forallb_forall in T.
  specialize (T _ Hp). unfold neighbor_ok in T.
  apply andb_true_iff in T as [T T3]. apply andb_true_iff in T as [T1 T2].
  apply negb_true_iff in T1, T2.
  apply str_eqb_neq in T1, T2. apply str_eqb_eq in T3. auto.
Qed.

Lemma letters_lower (x : ascii) : In x letters -> lower [x] = [x].
Proof.
  intro Hx.
  assert (T : forallb (fun y => str_eqb (lower [y]) [y]) letters = true)
    by (vm_compute; reflexivity).
  rewrite forallb_forall in T. apply str_eqb_eq. now apply T.
Qed.

(** ** [random.choice] *)

Lemma choice_ok `{RandomSource} {A} (seq : list A) (c : nat) :
  seq <> [] ->
  exists x,
    nth_error seq (below c (List.length seq)) = Some x
    /\ choice seq c = Ok (x, S c).
Proof.
  intro Hne.
  assert (Hlen : 0 < List.length seq) by (destruct seq; [contradiction | simpl; lia]).
  pose proof (below_range c _ Hlen) as Hb.
  apply nth_error_Some in Hb.
  destruct (nth_error seq _) as [x|] eqn:E; [|contradiction].
  exists x. split; [reflexivity|].
  unfold choice, index. now rewrite E.
Qed.

(** ** [nearby_key] *)










(** ** [HumanTyperConfig] *)

(** The value a keyword argument ends up as. *)
Definition keyword (default : Q) (given : option Q) : Q :=
  match given with
  | Some v => v
  | None => default
  end.

(** C4 (as the code has it): constructing a [HumanTyperConfig] checks
    nothing: whatever values are passed, construction succeeds and every
    field holds the value given (or its default); the object is not
    immutable: assigning any value to any field succeeds, changes that
    field and leaves the others as they were. *)
Theorem HumanTyperConfig_unvalidated_and_mutable :
  forall a b c d e g h i : option Q,
  exists cfg,
    HumanTyperConfig_init a b c d e g h i = Ok cfg
    /\ average_wpm cfg = keyword 70 a
    /\ wpm_std_dev cfg = keyword 17.5 b
    /\ typo_rate cfg = keyword 0.01 c
    /\ typo_correction_rate cfg = keyword 0.96 d
    /\ word_boundary_pause_ms cfg = keyword 300 e
    /\ sentence_boundary_pause_ms cfg = keyword 800 g
    /\ long_pause_chance cfg = keyword 0.05 h
    /\ long_pause_max_ms cfg = keyword 2000 i
    /\ forall (f : config_field) (v : Q),
       exists cfg',
         setattr cfg f v = Ok cfg'
         /\ getattr cfg' f = v
         /\ forall f', f' <> f -> getattr cfg' f' = getattr cfg f'.
Proof.
  intros a b c d e g h i. eexists. split; [reflexivity|].
  repeat (split; [reflexivity|]).
  intros f v. eexists. split; [reflexivity|].
  split; [destruct f; reflexivity|].
  intros f' Hf. destruct f, f'; try reflexivity; contradiction.
Qed.

(** C4 as worded fails: a negative words-per-minute, a negative standard
    deviation, rates of [2], [-3] and [7] are all accepted, and the
    resulting object can then be assigned to. *)
Lemma HumanTyperConfig_accepts_out_of_range :
  exists cfg cfg',
    HumanTyperConfig_init (Some (-5)%Q) (Some (-1)%Q) (Some 2%Q) (Some (-3)%Q)
                          None None (Some 7%Q) None = Ok cfg
    /\ (average_wpm cfg <= 0)%Q
    /\ (wpm_std_dev cfg < 0)%Q
    /\ (1 < typo_rate cfg)%Q
    /\ (typo_correction_rate cfg < 0)%Q
    /\ (1 < long_pause_chance cfg)%Q
    /\ setattr cfg f_typo_rate 9%Q = Ok cfg'
    /\ typo_rate cfg' = 9%Q.
Proof.
  do 2 eexists. split; [reflexivity|]. simpl.
  repeat (split; [reflexivity || (vm_compute; discriminate) || lra |]).
  reflexivity.
Qed.

(** ** Computations over the random source *)

Lemma rbind_inv {A B} (m : Rand A) (k : A -> Rand B) (c c' : nat) (b : B) :
  rbind m k c = Ok (b, c') ->
  exists a c1, m c = Ok (a, c1) /\ k a c1 = Ok (b, c').
Proof.
  unfold rbind. destruct (m c) as [[a c1]| |]; try discriminate.
  intro E. now exists a, c1.
Qed.

Lemma rret_inv {A} (a b : A) (c c' : nat) : rret a c = Ok (b, c') -> a = b /\ c = c'.
Proof. unfold rret. intros [= -> ->]. now split. Qed.

Lemma random_inv `{RandomSource} (c c' : nat) (u : Q) :
  random c = Ok (u, c') -> u = draws c /\ c' = S c.
Proof. unfold random. intros [= <- <-]. now split. Qed.

(** Take a successful run of a sequence of binds apart. *)
Ltac rand_inv H :=
  repeat
    (let a := fresh "v" in
     let c := fresh "k" in
     let E := fresh "E" in
     apply rbind_inv in H as (a & c & E & H)).

(** ** The offline simulator *)

Lemma max_floor (a b : Q) : (b <= Py.max a b)%Q.
Proof. unfold Py.max. destruct (Qlt_le_dec a b); lra. Qed.

Section SimulateTyping.
Context `{RandomSource} `{MathLib}.

Lemma compute_delay_floor (fuel : nat) (char : str) (prev_char : option str)
    (config : HumanTyperConfig) (c c' : nat) (d : Q) :
  compute_delay fuel char prev_char config c = Ok (d, c') -> (10 <= d)%Q.
Proof.
  unfold compute_delay. intro E. rand_inv E.
  apply rret_inv in E as [<- _]. apply max_floor.
Qed.

Definition typo_event (k : str) (t : Q) : KeystrokeEvent :=
  {| key := k; time := t; is_typo := true; is_correction := false |}.

Definition correction_event (t : Q) : KeystrokeEvent :=
  {| key := Backspace; time := t; is_typo := false; is_correction := true |}.

(** The logs one run of the loop can add when it starts at clock [t]
    with [text] left to type: per character a clean key, a typo left as
    it is (only when the correction rate is below one), or a typo, a
    Backspace and the intended key. *)
Inductive keystrokes (cfg : HumanTyperConfig)
  : Q -> str -> list KeystrokeEvent -> Prop :=
| ks_done (t : Q) : keystrokes cfg t [] []
| ks_clean (t t1 : Q) (c : ascii) (text : str) (evs : list KeystrokeEvent) :
    (t + 10 <= t1)%Q ->
    keystrokes cfg t1 text evs ->
    keystrokes cfg t (c :: text) (plain_event [c] t1 :: evs)
| ks_typo (t t1 : Q) (c : ascii) (w : str) (c0 c1 : nat) (text : str)
    (evs : list KeystrokeEvent) :
    (t + 10 <= t1)%Q ->
    nearby_key [c] c0 = Ok (w, c1) ->
    (typo_correction_rate cfg < 1)%Q ->
    keystrokes cfg t1 text evs ->
    keystrokes cfg t (c :: text) (typo_event w t1 :: evs)
| ks_corrected (t t1 t2 t3 : Q) (c : ascii) (w : str) (c0 c1 : nat) (text : str)
    (evs : list KeystrokeEvent) :
    (t + 10 <= t1)%Q -> (t1 + 200 <= t2)%Q -> (t2 + 100 <= t3)%Q ->
    nearby_key [c] c0 = Ok (w, c1) ->
    keystrokes cfg t3 text evs ->
    keystrokes cfg t (c :: text)
      (typo_event w t1 :: correction_event t2 :: plain_event [c] t3 :: evs).

Lemma simulate_typing_loop_keystrokes (fuel : nat) (cfg : HumanTyperConfig)
    (text : str) :
  forall (prev_char : option str) (current_time : Q) (log out : list KeystrokeEvent)
         (c c' : nat),
    simulate_typing_loop fuel cfg text prev_char current_time log c = Ok (out, c') ->
    exists evs, out = log ++ evs /\ keystrokes cfg current_time text evs.
Proof.
  induction text as [|ch text IH]; intros prev t log out c c' E.
  - apply rret_inv in E as [<- _]. exists []. split; [now rewrite app_nil_r | constructor].
  - cbn [simulate_typing_loop] in E.
    apply rbind_inv in E as (delay & k1 & Ed & E).
    apply compute_delay_floor in Ed.
    apply rbind_inv in E as (r & k2 & Er & E).
    destruct (Qlt_le_dec r (typo_rate cfg)) as [Htypo | Hclean].
    + apply rbind_inv in E as (w & k3 & Ew & E).
      apply rbind_inv in E as (r' & k4 & Er' & E).
      apply random_inv in Er' as [-> ->].
      destruct (Qlt_le_dec (draws k3) (typo_correction_rate cfg)) as [Hfix | Hleave].
      * apply rbind_inv in E as (u & k5 & Eu & E).
        apply rbind_inv in E as (u' & k6 & Eu' & E).
        apply random_inv in Eu as [-> ->]. apply random_inv in Eu' as [-> ->].
        apply IH in E as (evs & -> & K).
        eexists. split.
        { rewrite <- !app_assoc. simpl. reflexivity. }
        destruct (draws_range (S k3)) as [U0 _].
        destruct (draws_range (S (S k3))) as [U0' _].
        eapply ks_corrected; [ | | | exact Ew | exact K ]; nra.
      * apply IH in E as (evs & -> & K).
        eexists. split.
        { rewrite <- !app_assoc. simpl. reflexivity. }
        destruct (draws_range k3) as [_ U1].
        eapply ks_typo; [ | exact Ew | | exact K ]; lra.
    + apply IH in E as (evs & -> & K).
      eexists. split.
      { rewrite <- !app_assoc. simpl. reflexivity. }
      apply ks_clean; [lra | exact K].
Qed.




End SimulateTyping.




(** ** Sampling succeeds on non-zero variates *)

Lemma rbind_ok {A B} (m : Rand A) (k : A -> Rand B) (c c1 : nat) (a : A) :
  m c = Ok (a, c1) -> rbind m k c = k a c1.
Proof. unfold rbind. now intros ->. Qed.

Lemma truediv_ok (a b : Q) : ~ (b == 0)%Q -> truediv a b = Ok (a / b)%Q.
Proof.
  intro Hb. unfold truediv. destruct (Qeq_bool b 0) eqn:E; [|reflexivity].
  apply Qeq_bool_eq in E. contradiction.
Qed.

Section SamplingRuns.
Context `{RandomSource} `{MathLib}.

Lemma math_log_ok (x : Q) : (0 < x)%Q -> math_log x = Ok (m_log x).
Proof. intro Hx. unfold math_log. destruct (Qlt_le_dec 0 x); [reflexivity | lra]. Qed.

Lemma math_sqrt_ok (x : Q) : (0 <= x)%Q -> math_sqrt x = Ok (m_sqrt x).
Proof. intro Hx. unfold math_sqrt. destruct (Qlt_le_dec x 0); [lra | reflexivity]. Qed.

Lemma draw_nonzero_ok (fuel c : nat) :
  (0 < draws c)%Q -> draw_nonzero (S fuel) c = Ok (draws c, S c).
Proof.
  intro Hd. cbn [draw_nonzero]. unfold rbind, random.
  destruct (Qeq_bool (draws c) 0) eqn:E; [|reflexivity].
  apply Qeq_bool_eq in E. lra.
Qed.

Lemma standard_normal_ok (fuel c : nat) :
  (0 < draws c)%Q -> (0 < draws (S c))%Q ->
  exists z, standard_normal (S fuel) c = Ok (z, S (S c)).
Proof.
  intros H1 H2. unfold standard_normal.
  rewrite (rbind_ok _ _ _ _ _ (draw_nonzero_ok fuel c H1)).
  rewrite (rbind_ok _ _ _ _ _ (draw_nonzero_ok fuel (S c) H2)).
  destruct (draws_range c) as [_ U1].
  pose proof (m_log_nonpos (draws c) H1 ltac:(lra)) as Hl.
  unfold rbind, lift. rewrite (math_log_ok _ H1).
  rewrite math_sqrt_ok by lra. eexists. reflexivity.
Qed.

Lemma wpm_to_log_normal_params_ok (wpm wpm_std_dev : Q) :
  (0 < wpm)%Q -> exists p, wpm_to_log_normal_params wpm wpm_std_dev = Ok p.
Proof.
  intro Hw. unfold wpm_to_log_normal_params.
  rewrite truediv_ok by lra. cbn [obind].
  rewrite truediv_ok by lra. cbn [obind].
  set (cv := (wpm_std_dev / wpm)%Q).
  assert (Hcv : (0 <= cv * cv)%Q) by nra.
  rewrite math_log_ok by lra. cbn [obind].
  rewrite math_sqrt_ok by (apply m_log_nonneg; lra). cbn [obind].
  rewrite math_log_ok by (apply Qlt_shift_div_l; lra). cbn [obind].
  eexists. reflexivity.
Qed.

Lemma sample_iki_ok (fuel : nat) (wpm wpm_std_dev : Q) (c : nat) :
  (0 < wpm)%Q -> (0 < draws c)%Q -> (0 < draws (S c))%Q ->
  exists v, sample_iki (S fuel) wpm wpm_std_dev c = Ok (v, S (S c)).
Proof.
  intros Hw H1 H2. unfold sample_iki.
  destruct (wpm_to_log_normal_params_ok wpm wpm_std_dev Hw) as (p & ->).
  unfold rbind at 1, lift. unfold log_normal.
  destruct (standard_normal_ok fuel c H1 H2) as (z & Ez).
  rewrite (rbind_ok _ _ _ _ _ Ez). eexists. reflexivity.
Qed.

End SamplingRuns.

(** ** The live variant *)

(** The key sequences typing [text] can produce: per character the key
    itself, or a [nearby_key] of it followed by [Backspace] and the key;
    with [uncorrected] also a [nearby_key] alone. *)
Inductive typed_as `{RandomSource} (uncorrected : bool) : str -> list str -> Prop :=
| ta_done : typed_as uncorrected [] []
| ta_clean (c : ascii) (text : str) (ks : list str) :
    typed_as uncorrected text ks ->
    typed_as uncorrected (c :: text) ([c] :: ks)
| ta_corrected (c : ascii) (w : str) (c0 c1 : nat) (text : str) (ks : list str) :
    nearby_key [c] c0 = Ok (w, c1) ->
    typed_as uncorrected text ks ->
    typed_as uncorrected (c :: text) (w :: Backspace :: [c] :: ks)
| ta_uncorrected (c : ascii) (w : str) (c0 c1 : nat) (text : str) (ks : list str) :
    uncorrected = true ->
    nearby_key [c] c0 = Ok (w, c1) ->
    typed_as uncorrected text ks ->
    typed_as uncorrected (c :: text) (w :: ks).

Lemma typed_keys_app (a b : list action) :
  typed_keys (a ++ b) = typed_keys a ++ typed_keys b.
Proof. unfold typed_keys. apply flat_map_app. Qed.

Lemma typed_keys_dispatch_char (d : CDPDispatcher) (k : str) :
  typed_keys (_dispatch_char d k) = [k].
Proof. reflexivity. Qed.

Lemma typed_keys_dispatch_key (d : CDPDispatcher) (k : str) :
  typed_keys (_dispatch_key d k) = [k].
Proof. reflexivity. Qed.

Section LiveRuns.
Context `{RandomSource} `{MathLib}.

Lemma human_type_cdp_loop_keys (fuel : nat) (d : CDPDispatcher)
    (wpm sd rate : Q) (text : str) :
  forall (prev : option str) (trace out : list action) (c c' : nat),
    human_type_cdp_loop fuel d wpm sd rate text prev trace c = Ok (out, c') ->
    exists acts,
      out = trace ++ acts
      /\ typed_as false text (typed_keys acts)
      /\ ((rate <= 0)%Q -> typed_keys acts = map (fun x => [x]) text).
Proof.
  induction text as [|ch text IH]; intros prev trace out c c' E.
  - apply rret_inv in E as [<- _]. exists []. rewrite app_nil_r.
    repeat split; constructor.
  - cbn [human_type_cdp_loop] in E.
    apply rbind_inv in E as (delay & k1 & _ & E).
    apply rbind_inv in E as (extra1 & k2 & _ & E).
    apply rbind_inv in E as (extra2 & k3 & _ & E).
    apply rbind_inv in E as (r & k4 & Er & E).
    apply random_inv in Er as [-> ->].
    apply rbind_inv in E as (trace' & k5 & Et & E).
    apply IH in E as (acts & -> & T & Tclean).
    destruct (Qlt_le_dec (draws k3) rate) as [Htypo | Hclean].
    + apply rbind_inv in Et as (w & k6 & Ew & Et).
      apply rbind_inv in Et as (u & k7 & _ & Et).
      apply rbind_inv in Et as (u' & k8 & _ & Et).
      apply rret_inv in Et as [<- _].
      eexists. split; [rewrite <- !app_assoc; reflexivity|].
      rewrite !typed_keys_app, !typed_keys_dispatch_char, typed_keys_dispatch_key.
      simpl. split.
      * eapply ta_corrected; [exact Ew | exact T].
      * intro Hr. destruct (draws_range k3). lra.
    + apply rret_inv in Et as [<- _].
      eexists. split; [rewrite <- !app_assoc; reflexivity|].
      rewrite !typed_keys_app, !typed_keys_dispatch_char.
      simpl. split.
      * apply ta_clean. exact T.
      * intro Hr. f_equal. now apply Tclean.
Qed.

Lemma keystrokes_typed_as (cfg : HumanTyperConfig) (t : Q) (text : str)
    (evs : list KeystrokeEvent) :
  keystrokes cfg t text evs ->
  typed_as true text (map key evs)
  /\ ((1 <= typo_correction_rate cfg)%Q -> typed_as false text (map key evs)).
Proof.
  induction 1 as [t | t t1 c text evs Ht K [IH1 IH2]
                  | t t1 c w c0 c1 text evs Ht Hw Hr K [IH1 IH2]
                  | t t1 t2 t3 c w c0 c1 text evs Ht1 Ht2 Ht3 Hw K [IH1 IH2]]; simpl.
  - split; constructor.
  - split; [|intro Hc]; apply ta_clean; auto.
  - split; [eapply ta_uncorrected; eauto | intro Hc; lra].
  - split; [|intro Hc]; eapply ta_corrected; eauto.
Qed.

Lemma simulate_typing_loop_clean (fuel : nat) (cfg : HumanTyperConfig) (text : str) :
  (typo_rate cfg <= 0)%Q ->
  forall (prev_char : option str) (current_time : Q) (log out : list KeystrokeEvent)
         (c c' : nat),
    simulate_typing_loop fuel cfg text prev_char current_time log c = Ok (out, c') ->
    map key out = map key log ++ map (fun x => [x]) text.
Proof.
  intro Hrate.
  induction text as [|ch text IH]; intros prev t log out c c' E.
  - apply rret_inv in E as [<- _]. now rewrite app_nil_r.
  - cbn [simulate_typing_loop] in E.
    apply rbind_inv in E as (delay & k1 & _ & E).
    apply rbind_inv in E as (r & k2 & Er & E).
    apply random_inv in Er as [-> ->].
    destruct (Qlt_le_dec (draws k1) (typo_rate cfg)) as [Htypo | Hclean].
    + destruct (draws_range k1). lra.
    + apply IH in E. rewrite E, map_app, <- app_assoc. reflexivity.
Qed.

End LiveRuns.

(** How the keys of a call to the simulator and of a call to the live
    variant are compared. *)
Definition corresponds (cfg : HumanTyperConfig) (average_wpm typo_rate : Q) : Prop :=
  Typer.average_wpm cfg = average_wpm
  /\ wpm_std_dev cfg = (average_wpm * 0.25)%Q
  /\ Typer.typo_rate cfg = typo_rate.

(** C3 (as the code has it): [human_type_cdp] shares the typing
    mechanics of [simulate_typing], not its decisions: per character it
    presses the character alone or a [nearby_key] of it, [Backspace] and
    the character (a typo is always corrected); [simulate_typing] may
    also leave a typo uncorrected, unless its correction rate is 1; and
    when the typo rate is 0 both type exactly the characters of the
    text, in order. *)
Theorem human_type_cdp_typing_mechanics :
  forall (rs : RandomSource) (ml : MathLib) (fuel : nat) (d : CDPDispatcher)
         (text : str) (average_wpm typo_rate : Q) (c c' : nat)
         (trace : list action),
    human_type_cdp fuel d text average_wpm typo_rate c = Ok (trace, c') ->
    typed_as false text (typed_keys trace)
    /\ (forall now cfg k k' log,
          simulate_typing fuel now text (Some cfg) k = Ok (log, k') ->
          typed_as true text (map key log)
          /\ ((typo_correction_rate cfg == 1)%Q -> typed_as false text (map key log))
          /\ (corresponds cfg average_wpm typo_rate -> (typo_rate == 0)%Q ->
              map key log = typed_keys trace
              /\ typed_keys trace = map (fun x => [x]) text)).
Proof.
  intros rs ml fuel d text wpm rate c c' trace E.
  unfold human_type_cdp in E.
  apply human_type_cdp_loop_keys in E as (acts & -> & T & Tclean). simpl.
  split; [exact T|].
  intros now cfg k k' log S. unfold simulate_typing in S.
  pose proof S as S'.
  apply simulate_typing_loop_keystrokes in S as (evs & -> & K). simpl.
  destruct (keystrokes_typed_as _ _ _ _ K) as [K1 K2].
  split; [exact K1|]. split; [intro Hc; apply K2; lra|].
  intros (_ & _ & Hr) Hz.
  apply simulate_typing_loop_clean in S'; [|rewrite Hr; lra]. simpl in S'.
  rewrite Tclean by lra. split; [assumption | reflexivity].
Qed.

(** C3 as worded fails: from the same draws, with the live variant's
    arguments 60 wpm and typo rate 0.01 and any configuration that
    carries them, the live variant spends its third draw (0.005) on the
    typo roll and types [s], [Backspace], [a], while the simulator
    spends it on the long-pause roll and types [a] alone. *)
Lemma human_type_cdp_decides_differently :
  exists (rs : RandomSource) (text : str) (average_wpm typo_rate : Q),
    forall (ml : MathLib) (cfg : HumanTyperConfig) (d : CDPDispatcher) (now : Q),
      corresponds cfg average_wpm typo_rate ->
      exists log k trace k',
        simulate_typing 1 now text (Some cfg) 0 = Ok (log, k)
        /\ human_type_cdp 1 d text average_wpm typo_rate 0 = Ok (trace, k')
        /\ map key log = [str_of "a"]
        /\ typed_keys trace = [str_of "s"; Backspace; str_of "a"]
        /\ map key log <> typed_keys trace.
Proof.
  pose (rs := source_of [0.5; 0.5; 0.005]%Q eq_refl).
  exists rs, ["a"%char], 60%Q, 0.01%Q.
  intros ml cfg d now (Hw & Hs & Hr).
  destruct (sample_iki_ok 0 60 (60 * 0.25) 0) as (v & Hiki);
    [reflexivity | reflexivity | reflexivity |].
  assert (Hsim : exists log k,
            simulate_typing 1 now ["a"%char] (Some cfg) 0 = Ok (log, k)
            /\ map key log = [["a"%char]]).
  { unfold simulate_typing. cbn [simulate_typing_loop]. unfold compute_delay.
    rewrite Hw, Hs, Hr.
    unfold rbind, random, rret. rewrite Hiki.
    change (member ["a"%char] WORD_BOUNDARIES) with false.
    cbn [truthy andb].
    change (draws 2) with 0.005%Q.
    destruct (Qlt_le_dec 0.005 (long_pause_chance cfg)) as [Hl | Hl].
    - change (draws 4) with 0.5%Q.
      destruct (Qlt_le_dec 0.5 0.01) as [Hc | Hc]; [exfalso; revert Hc; vm_compute; discriminate|].
      do 2 eexists. split; reflexivity.
    - change (draws 3) with 0.5%Q.
      destruct (Qlt_le_dec 0.5 0.01) as [Hc | Hc]; [exfalso; revert Hc; vm_compute; discriminate|].
      do 2 eexists. split; reflexivity. }
  assert (Hlive : exists trace k',
            human_type_cdp 1 d ["a"%char] 60 0.01 0 = Ok (trace, k')
            /\ typed_keys trace = [["s"%char]; Backspace; ["a"%char]]).
  { unfold human_type_cdp. cbn [human_type_cdp_loop].
    unfold rbind, random, rret. rewrite Hiki.
    change (str_eqb ["a"%char] space) with false.
    rewrite andb_false_r.
    change (draws 2) with 0.005%Q.
    destruct (Qlt_le_dec 0.005 0.01) as [Hc | Hc]; [|exfalso; revert Hc; vm_compute; intro Hc; now apply Hc].
    assert (Hkey : nearby_key ["a"%char] 3 = Ok (["s"%char], 4)) by (vm_compute; reflexivity).
    rewrite Hkey. do 2 eexists. split; reflexivity. }
  destruct Hsim as (log & k & S1 & S2). destruct Hlive as (trace & k' & L1 & L2).
  exists log, k, trace, k'. repeat (split; [assumption|]).
  rewrite S2, L2. discriminate.
Qed.


(** The live variant on ["hi"] with typo rate 1: eighteen actions, the
    keys pressed being two corrected typos. *)
Lemma human_type_cdp_typing_mechanics_witness :
  exists trace c',
    @human_type_cdp (source_of [] eq_refl) rational_math 1
      {| _session_id := str_of "test-session" |} (str_of "hi") 200 1 0
    = Ok (trace, c')
    /\ List.length trace = 18
    /\ @typed_as (source_of [] eq_refl) false (str_of "hi") (typed_keys trace).
Proof.
  eexists. eexists. split; [vm_compute; reflexivity|].
  split; [reflexivity|].
  apply (proj1 (human_type_cdp_typing_mechanics
                  (source_of [] eq_refl) rational_math 1
                  {| _session_id := str_of "test-session" |} (str_of "hi")
                  200 1 0 _ _ eq_refl)).
Defined.

(** ** The simulator returns *)

Section SimulatorReturns.
Context `{RandomSource} `{MathLib}.
Hypothesis draws_nonzero : forall n, (0 < draws n)%Q.




End SimulatorReturns.



(** ** [asyncio.gather] *)

Lemma gather_ok_iff {A} (tasks : list (outcome A)) (rs : list A) :
  gather tasks = Ok rs <-> Forall2 (fun t r => t = Ok r) tasks rs.
Proof.
  revert rs. induction tasks as [|t tasks IH]; intro rs; simpl.
  - split.
    + intros [= <-]. constructor.
    + intro F. inversion F. reflexivity.
  - split.
    + destruct t as [a| |]; simpl; try discriminate.
      destruct (gather tasks) as [r| |] eqn:G; simpl; try discriminate.
      intros [= <-]. constructor; [reflexivity | now apply IH].
    + intro F. inversion F as [|t' r tasks' rs' Ht Hrest]; subst. simpl.
      apply IH in Hrest. now rewrite Hrest.
Qed.

Lemma gather_raises {A} (tasks : list (outcome A)) :
  (forall t, In t tasks -> t <> OutOfFuel) ->
  (exists e, In (Raise e) tasks) ->
  exists e, In (Raise e) tasks /\ gather tasks = Raise e.
Proof.
  induction tasks as [|t tasks IH]; intros Hfuel (e & He); [destruct He|].
  destruct t as [a|e'|].
  - destruct He as [He | He]; [discriminate|].
    destruct IH as (e1 & Hin & G).
    + intros t Ht. apply Hfuel. now right.
    + now exists e.
    + exists e1. split; [now right|]. simpl. now rewrite G.
  - exists e'. split; [now left | reflexivity].
  - exfalso. apply (Hfuel OutOfFuel); [now left | reflexivity].
Qed.

(** ** Reading digits *)

(** A vision client that answers from a script: the reply text for each
    frame in [replies]; any other frame times out. *)
Definition scripted_client (replies : list (str * str)) : VisionClient :=
  {| read_bytes := fun frame_path => Ok frame_path;
     path_suffix := fun _ => str_of ".png";
     standard_b64encode := fun data => data;
     messages_create := fun _ data =>
       match dict_get replies data with
       | Some text => Ok [ {| block_type := str_of "text"; block_text := text |} ]
       | None => Raise (ExternalError (str_of "timeout"))
       end |}.

(** What a reply text is read as: its first digit, or the text itself
    when it has none. *)
Definition reading_of (text : str) : str :=
  match search_digit text with
  | Some d => [d]
  | None => text
  end.

(** C2 (as the code has it): [read_digits_from_frames] has no handler:
    when every frame is read, the result is the readings joined in frame
    order, a reading being the first digit of the trimmed reply or, when
    it has none, the trimmed reply; when the classification of a frame
    raises, so does
    [read_digit_from_frame] on it and then the whole batch, with the
    exception of a failed frame and no string at all. *)
Theorem read_digits_from_frames_propagates_failure :
  forall (vc : VisionClient) (frame_paths : list str),
    (forall readings,
       Forall2 (fun fp r => read_digit_from_frame fp = Ok r) frame_paths readings ->
       read_digits_from_frames frame_paths = Ok (List.concat readings))
    /\ (forall fp data block rest,
          read_bytes fp = Ok data ->
          (forall media_type,
             messages_create media_type (standard_b64encode data)
             = Ok (block :: rest)) ->
          read_digit_from_frame fp
          = Ok (reading_of
                  (if str_eqb (block_type block) (str_of "text")
                   then strip (block_text block) else [])))
    /\ (forall fp data e,
          read_bytes fp = Ok data ->
          (forall media_type,
             messages_create media_type (standard_b64encode data) = Raise e) ->
          read_digit_from_frame fp = Raise e)
    /\ ((forall fp, In fp frame_paths -> read_digit_from_frame fp <> OutOfFuel) ->
        (exists fp e, In fp frame_paths /\ read_digit_from_frame fp = Raise e) ->
        exists fp e,
          In fp frame_paths /\ read_digit_from_frame fp = Raise e
          /\ read_digits_from_frames frame_paths = Raise e).
Proof.
  intros vc frame_paths. split; [|split; [|split]].
  - intros readings F. unfold read_digits_from_frames.
    destruct frame_paths as [|fp rest]; [inversion F; reflexivity|].
    assert (G : gather (map read_digit_from_frame (fp :: rest)) = Ok readings).
    { apply gather_ok_iff. clear -F. induction F; simpl; constructor; auto. }
    now rewrite G.
  - intros fp data block rest Hb Hc. unfold read_digit_from_frame, reading_of.
    rewrite Hb. cbn [obind]. rewrite Hc. cbn [obind index nth_error].
    now destruct (search_digit _).
  - intros fp data e Hb Hc. unfold read_digit_from_frame.
    rewrite Hb. simpl. now rewrite Hc.
  - intros Hfuel (fp & e & Hin & Hfp). unfold read_digits_from_frames.
    destruct frame_paths as [|fp0 rest]; [destruct Hin|].
    destruct (gather_raises (map read_digit_from_frame (fp0 :: rest))) as (e1 & Hin1 & G).
    + intros t Ht. apply in_map_iff in Ht as (p & <- & Hp). now apply Hfuel.
    + exists e. apply in_map_iff. now exists fp.
    + apply in_map_iff in Hin1 as (p & Hp & Hpin).
      exists p, e1. repeat split; auto. now rewrite G.
Qed.

(** C2 as worded fails: of three frames the second times out; the batch
    raises that timeout instead of returning a string with a placeholder
    between the readings ["3"] and ["9"] of the other two. *)
Lemma read_digits_from_frames_aborts_on_one_failure :
  exists (vc : VisionClient) (frame_paths : list str),
    @read_digit_from_frame vc (str_of "f0.png") = Ok (str_of "3")
    /\ @read_digit_from_frame vc (str_of "f1.png")
       = Raise (ExternalError (str_of "timeout"))
    /\ @read_digit_from_frame vc (str_of "f2.png") = Ok (str_of "9")
    /\ frame_paths = [str_of "f0.png"; str_of "f1.png"; str_of "f2.png"]
    /\ @read_digits_from_frames vc frame_paths
       = Raise (ExternalError (str_of "timeout")).
Proof.
  exists (scripted_client [(str_of "f0.png", str_of "3"); (str_of "f2.png", str_of "9")]).
  eexists. repeat split; reflexivity.
Qed.

(** ** Majority vote *)

(** How often [d] occurs in a column of readings. *)
Definition occurrences (d : ascii) (col : str) : nat := count_occ ascii_dec col d.

(** Where [d] occurs first in [col] ([len(col)] when it does not). *)
Fixpoint first_index (d : ascii) (col : str) : nat :=
  match col with
  | [] => 0
  | x :: rest => if Ascii.eqb x d then 0 else S (first_index d rest)
  end.

(** [c] is the plurality value of [col], ties going to the value that
    occurs first. *)
Definition plurality (col : str) (c : ascii) : Prop :=
  In c col
  /\ forall d, In d col ->
       occurrences d col <= occurrences c col
       /\ (occurrences d col = occurrences c col ->
           first_index c col <= first_index d col).

(** The consecutive chunks of length [L] of [raw], the last one possibly
    shorter. *)
Definition chunks (raw : str) (L : nat) : list str :=
  map (fun k => slice raw (k * L) (k * L + L))
      (seq 0 ((List.length raw + (L - 1)) / L)).

(** The characters the chunks have at position [pos], in chunk order. *)
Definition column (loops : list str) (pos : nat) : str :=
  flat_map (fun loop => match nth_error loop pos with
                        | Some d => [d]
                        | None => []
                        end) loops.

Lemma first_index_app_in (d : ascii) (col rest : str) :
  In d col -> first_index d (col ++ rest) = first_index d col.
Proof.
  induction col as [|x col IH]; intro Hin; [destruct Hin|].
  simpl. destruct (Ascii.eqb x d) eqn:E; [reflexivity|].
  destruct Hin as [-> | Hin]; [now rewrite Ascii.eqb_refl in E|].
  now rewrite IH.
Qed.

Lemma first_index_app_new (d : ascii) (col : str) :
  ~ In d col -> first_index d (col ++ [d]) = List.length col.
Proof.
  induction col as [|x col IH]; intro Hin; simpl.
  - now rewrite Ascii.eqb_refl.
  - destruct (Ascii.eqb x d) eqn:E.
    + apply Ascii.eqb_eq in E. exfalso. apply Hin. now left.
    + rewrite IH; [reflexivity|]. intro H. apply Hin. now right.
Qed.

Lemma first_index_bound (d : ascii) (col : str) :
  In d col -> first_index d col < List.length col.
Proof.
  induction col as [|x col IH]; intro Hin; [destruct Hin|].
  simpl. destruct (Ascii.eqb x d) eqn:E; [lia|].
  destruct Hin as [-> | Hin]; [now rewrite Ascii.eqb_refl in E|].
  apply IH in Hin. lia.
Qed.

Lemma occurrences_snoc (d x : ascii) (col : str) :
  occurrences d (col ++ [x])
  = occurrences d col + (if Ascii.eqb x d then 1 else 0).
Proof.
  unfold occurrences. rewrite count_occ_app. simpl.
  destruct (ascii_dec x d) as [-> | N].
  - now rewrite Ascii.eqb_refl.
  - destruct (Ascii.eqb x d) eqn:E; [|reflexivity].
    apply Ascii.eqb_eq in E. contradiction.
Qed.

Lemma occurrences_pos (d : ascii) (col : str) : In d col -> 0 < occurrences d col.
Proof. intro Hin. unfold occurrences. now apply count_occ_In. Qed.

(** The dict [vote] builds, key by key. *)
Definition votes_of (col : str) (keys : list ascii) : list (ascii * nat) :=
  map (fun k => (k, occurrences k col)) keys.

Lemma vote_known (x : ascii) (pre post : list (ascii * nat)) (m : nat) :
  ~ In x (map fst pre) -> vote (pre ++ (x, m) :: post) x = pre ++ (x, m + 1) :: post.
Proof.
  induction pre as [|[k n] pre IH]; intro Hpre; simpl.
  - now rewrite Ascii.eqb_refl.
  - destruct (Ascii.eqb k x) eqn:E.
    + apply Ascii.eqb_eq in E. exfalso. apply Hpre. now left.
    + rewrite IH; [reflexivity|]. intro H. apply Hpre. now right.
Qed.

Lemma vote_new (x : ascii) (votes : list (ascii * nat)) :
  ~ In x (map fst votes) -> vote votes x = votes ++ [(x, 1)].
Proof.
  induction votes as [|[k n] votes IH]; intro Hnew; simpl; [reflexivity|].
  destruct (Ascii.eqb k x) eqn:E.
  - apply Ascii.eqb_eq in E. exfalso. apply Hnew. now left.
  - rewrite IH; [reflexivity|]. intro H. apply Hnew. now right.
Qed.

Lemma votes_of_other (col : str) (x : ascii) (keys : list ascii) :
  ~ In x keys -> votes_of (col ++ [x]) keys = votes_of col keys.
Proof.
  intro Hx. unfold votes_of. apply map_ext_in. intros k Hk.
  rewrite occurrences_snoc.
  destruct (Ascii.eqb x k) eqn:E; [|now rewrite Nat.add_0_r].
  apply Ascii.eqb_eq in E. subst. contradiction.
Qed.

Lemma StronglySorted_snoc {A} (R : A -> A -> Prop) (l : list A) (x : A) :
  StronglySorted R l -> Forall (fun y => R y x) l -> StronglySorted R (l ++ [x]).
Proof.
  induction 1 as [|a l S IH F]; intro Hx; simpl.
  - repeat constructor.
  - inversion Hx; subst. constructor; [now apply IH|].
    apply Forall_app. split; [assumption | now constructor].
Qed.

Lemma StronglySorted_split {A} (R : A -> A -> Prop) (pre post : list A) (x : A) :
  StronglySorted R (pre ++ x :: post) -> Forall (R x) post.
Proof.
  induction pre as [|a pre IH]; simpl; intro S; inversion S; subst; auto.
Qed.

(** After the votes of a column are cast, the dict holds each value of
    the column once, with its number of occurrences, in the order the
    values first occurred. *)
Lemma fold_vote_spec (col : str) :
  exists keys,
    fold_left vote col [] = votes_of col keys
    /\ NoDup keys
    /\ (forall k, In k keys <-> In k col)
    /\ StronglySorted (fun a b => first_index a col < first_index b col) keys.
Proof.
  induction col as [|x col IH] using rev_ind.
  - exists []. split; [reflexivity|]. split; [constructor|].
    split; [intro k; reflexivity | constructor].
  - destruct IH as (keys & Hfold & Hnd & Hin & Hsort).
    rewrite fold_left_app. simpl. rewrite Hfold.
    assert (Hkeep : StronglySorted
              (fun a b => first_index a (col ++ [x]) < first_index b (col ++ [x])) keys).
    { assert (Hsub : forall k, In k keys -> In k col) by (intro k; apply Hin).
      clear -Hsub Hsort. revert Hsub.
      induction Hsort as [|a l S IH F]; intro Hsub; constructor.
      - apply IH. intros k Hk. apply Hsub. now right.
      - rewrite Forall_forall in *. intros b Hb.
        rewrite !first_index_app_in; [now apply F | |]; apply Hsub;
          [now right | now left]. }
    destruct (in_dec ascii_dec x keys) as [Hx | Hx].
    + apply in_split in Hx as (pre & post & ->).
      apply NoDup_remove_2 in Hnd as Hfresh.
      exists (pre ++ x :: post). repeat split; auto.
      * unfold votes_of at 1. rewrite map_app. simpl.
        rewrite vote_known.
        2:{ rewrite map_map. simpl. rewrite map_id. intro H. apply Hfresh.
            apply in_or_app. now left. }
        unfold votes_of. rewrite map_app. simpl.
        fold (votes_of col pre) (votes_of col post)
             (votes_of (col ++ [x]) pre) (votes_of (col ++ [x]) post).
        rewrite !votes_of_other.
        -- rewrite occurrences_snoc, Ascii.eqb_refl. reflexivity.
        -- intro H. apply Hfresh. apply in_or_app. now right.
        -- intro H. apply Hfresh. apply in_or_app. now left.
      * intro Hk. apply in_or_app. left. now apply Hin.
      * intro Hk. apply in_app_or in Hk as [Hk | [<- | []]]; [now apply Hin|].
        apply in_or_app. right. now left.
    + exists (keys ++ [x]). repeat split.
      * rewrite vote_new.
        2:{ unfold votes_of. rewrite map_map. simpl. now rewrite map_id. }
        unfold votes_of at 2. rewrite map_app. simpl.
        fold (votes_of (col ++ [x]) keys). rewrite votes_of_other by assumption.
        rewrite occurrences_snoc, Ascii.eqb_refl.
        assert (Hz : occurrences x col = 0).
        { unfold occurrences. apply count_occ_not_In. intro H. apply Hx. now apply Hin. }
        now rewrite Hz.
      * apply NoDup_app; [assumption | repeat constructor; intros [] |].
        intros k Hk [<- | []]. contradiction.
      * intro Hk. apply in_app_or in Hk as [Hk | [<- | []]]; apply in_or_app;
          [left; now apply Hin | right; now left].
      * intro Hk. apply in_app_or in Hk as [Hk | [<- | []]]; apply in_or_app;
          [left; now apply Hin | right; now left].
      * apply StronglySorted_snoc; [assumption|].
        rewrite Forall_forall. intros k Hk.
        assert (Hkc : In k col) by now apply Hin.
        rewrite first_index_app_in by assumption.
        rewrite first_index_app_new by (intro H; apply Hx; now apply Hin).
        now apply first_index_bound.
Qed.

(** One turn of [for digit, count in votes.items()]. *)
Definition best_step (best : str * nat) (dc : ascii * nat) : str * nat :=
  if snd best <? snd dc then ([fst dc], snd dc) else best.

Lemma best_fold_spec (votes : list (ascii * nat)) :
  forall best_digit best_count d n,
    fold_left best_step votes (best_digit, best_count) = (d, n) ->
    (d = best_digit /\ n = best_count
     /\ Forall (fun dc => snd dc <= best_count) votes)
    \/ (exists pre k post,
          votes = pre ++ (k, n) :: post
          /\ d = [k]
          /\ best_count < n
          /\ Forall (fun dc => snd dc < n) pre
          /\ Forall (fun dc => snd dc <= n) post).
Proof.
  induction votes as [|[k0 m0] votes IH]; intros bd bn d n E.
  - injection E as <- <-. left. repeat split. constructor.
  - cbn [fold_left] in E. unfold best_step at 2 in E. cbn [fst snd] in E.
    destruct (bn <? m0) eqn:Hlt.
    + apply Nat.ltb_lt in Hlt. right.
      destruct (IH _ _ _ _ E)
        as [(-> & -> & Hall) | (pre & k & post & -> & -> & Hn & Hpre & Hpost)].
      * exists [], k0, votes. repeat split; auto.
      * exists ((k0, m0) :: pre), k, post.
        split; [reflexivity|]. split; [reflexivity|]. split; [lia|].
        split; [constructor; [simpl; lia | assumption] | assumption].
    + apply Nat.ltb_ge in Hlt.
      destruct (IH _ _ _ _ E)
        as [(-> & -> & Hall) | (pre & k & post & -> & -> & Hn & Hpre & Hpost)].
      * left. repeat split. constructor; [simpl; lia | assumption].
      * right. exists ((k0, m0) :: pre), k, post.
        split; [reflexivity|]. split; [reflexivity|]. split; [lia|].
        split; [constructor; [simpl; lia | assumption] | assumption].
Qed.

Lemma best_of_fold (votes : list (ascii * nat)) :
  best_of votes = fst (fold_left best_step votes ([], 0)).
Proof. reflexivity. Qed.

(** The winner of a non-empty column is its plurality value. *)
Lemma best_of_plurality (col : str) :
  col <> [] ->
  exists c, best_of (fold_left vote col []) = [c] /\ plurality col c.
Proof.
  intro Hne.
  destruct (fold_vote_spec col) as (keys & Hfold & Hnd & Hin & Hsort).
  rewrite best_of_fold, Hfold.
  destruct (fold_left best_step (votes_of col keys) ([], 0)) as [d n] eqn:E.
  destruct (best_fold_spec _ _ _ _ _ E)
    as [(-> & -> & Hall) | (pre & k & post & Hv & -> & Hn & Hpre & Hpost)]; simpl.
  - exfalso. destruct col as [|x col]; [contradiction|].
    assert (Hx : In x keys) by (apply Hin; now left).
    rewrite Forall_forall in Hall.
    specialize (Hall (x, occurrences x (x :: col))
                  (in_map (fun k => (k, occurrences k (x :: col))) _ _ Hx)).
    cbn [snd] in Hall. pose proof (occurrences_pos x (x :: col) (or_introl eq_refl)). lia.
  - exists k. split; [reflexivity|].
    unfold votes_of in Hv.
    apply map_eq_app in Hv as (kpre & krest & -> & Hpre' & Hrest).
    apply map_eq_cons in Hrest as (k' & kpost & -> & Hk' & Hpost').
    injection Hk' as -> Hocc.
    assert (Hkin : In k col) by (apply Hin, in_elt).
    split; [exact Hkin|]. intros d Hd.
    rewrite Hocc.
    apply Hin in Hd. apply in_app_or in Hd as [Hd | [<- | Hd]].
    + subst pre. rewrite Forall_forall in Hpre.
      specialize (Hpre _ (in_map (fun k => (k, occurrences k col)) _ _ Hd)).
      cbn [snd] in Hpre. split; lia.
    + split; lia.
    + subst post. rewrite Forall_forall in Hpost.
      specialize (Hpost _ (in_map (fun k => (k, occurrences k col)) _ _ Hd)).
      cbn [snd] in Hpost. split; [lia|]. intros _.
      apply StronglySorted_split in Hsort. rewrite Forall_forall in Hsort.
      specialize (Hsort _ Hd). simpl in Hsort. lia.
Qed.

Lemma tally_column (loops : list str) (pos : nat) :
  tally loops pos = fold_left vote (column loops pos) [].
Proof.
  unfold tally, column. generalize (@nil (ascii * nat)) as votes.
  induction loops as [|loop loops IH]; intro votes; simpl; [reflexivity|].
  rewrite fold_left_app, IH. f_equal.
  destruct (pos <? List.length loop) eqn:E.
  - destruct (nth_error loop pos); reflexivity.
  - apply Nat.ltb_ge in E. apply nth_error_None in E. now rewrite E.
Qed.

Lemma loops_are_chunks (raw : str) (L : Z) :
  (0 < L)%Z ->
  exists starts,
    rangeZ 0 (Z.of_nat (List.length raw)) L = Ok starts
    /\ map (fun i => slice raw (Z.to_nat i) (Z.to_nat (i + L))) starts
       = chunks raw (Z.to_nat L).
Proof.
  intro HL. unfold rangeZ.
  destruct (L =? 0)%Z eqn:E0; [apply Z.eqb_eq in E0; lia|].
  destruct (0 <? L)%Z eqn:E1; [|apply Z.ltb_ge in E1; lia].
  eexists. split; [reflexivity|].
  unfold chunks. rewrite map_map.
  set (l := Z.to_nat L). set (n := List.length raw).
  assert (HLl : L = Z.of_nat l) by (unfold l; lia).
  assert (Hcount : Z.to_nat ((Z.of_nat n - 0 + L - 1) / L) = (n + (l - 1)) / l).
  { rewrite HLl.
    replace (Z.of_nat n - 0 + Z.of_nat l - 1)%Z with (Z.of_nat (n + (l - 1))) by lia.
    rewrite <- Nat2Z.inj_div. apply Nat2Z.id. }
  rewrite Hcount. apply map_ext. intro k.
  rewrite HLl. f_equal; lia.
Qed.

Lemma chunks_head (raw : str) (L : nat) :
  0 < L -> L < List.length raw ->
  exists rest, chunks raw L = slice raw 0 L :: rest.
Proof.
  intros HL Hn. unfold chunks.
  destruct ((List.length raw + (L - 1)) / L) as [|cnt] eqn:E.
  - exfalso. apply Nat.div_small_iff in E; lia.
  - simpl. eexists. reflexivity.
Qed.

Lemma column_nonempty (raw : str) (L pos : nat) :
  L < List.length raw -> pos < L -> column (chunks raw L) pos <> [].
Proof.
  intros Hn Hpos.
  destruct (chunks_head raw L ltac:(lia) Hn) as (rest & ->).
  unfold column. simpl.
  assert (Hlen : pos < List.length (slice raw 0 L)) by (rewrite slice_length; lia).
  apply nth_error_Some in Hlen.
  destruct (nth_error (slice raw 0 L) pos); [discriminate | contradiction].
Qed.

Lemma concat_winners {P : nat -> ascii -> Prop} (g : nat -> str) (count : nat) :
  forall start,
    (forall pos, start <= pos < start + count -> exists c, g pos = [c] /\ P pos c) ->
    List.length (List.concat (map g (seq start count))) = count
    /\ forall i, i < count ->
         exists c, nth_error (List.concat (map g (seq start count))) i = Some c
                   /\ P (start + i) c.
Proof.
  induction count as [|count IH]; intros start Hg; simpl.
  - split; [reflexivity | intros i Hi; lia].
  - destruct (Hg start ltac:(lia)) as (c & Hc & Pc). rewrite Hc. simpl.
    destruct (IH (S start)) as [Hlen Hnth].
    { intros pos Hpos. apply Hg. lia. }
    split; [now rewrite Hlen|].
    intros [|i] Hi.
    + exists c. rewrite Nat.add_0_r. now split.
    + destruct (Hnth i ltac:(lia)) as (c' & Hc' & Pc').
      exists c'. split; [assumption|]. now replace (start + S i) with (S start + i) by lia.
Qed.

Section CrossValidation.
Context `{VisionClient}.

Lemma read_digits_from_frames_joined (frame_paths : list str) (readings : list str) :
  Forall2 (fun fp r => read_digit_from_frame fp = Ok r) frame_paths readings ->
  read_digits_from_frames frame_paths = Ok (List.concat readings).
Proof.
  intro F. unfold read_digits_from_frames.
  destruct frame_paths as [|fp rest]; [inversion F; reflexivity|].
  assert (G : gather (map read_digit_from_frame (fp :: rest)) = Ok readings).
  { apply gather_ok_iff. clear -F. induction F; simpl; constructor; auto. }
  now rewrite G.
Qed.

End CrossValidation.

(** C6: with [raw] the per-frame readings joined in order,
    [read_digits_with_validation] returns [raw] unchanged when
    [len(raw) <= L]; otherwise (for a cycle length [L >= 1]) it returns
    a string of length [L] whose character at each position is the
    plurality value, ties to the first occurrence, of the characters the
    consecutive length-[L] chunks of [raw] have at that position; and
    the loops ["3169"], ["3189"], ["3169"] give ["3169"]. *)
Theorem read_digits_with_validation_majority :
  forall (vc : VisionClient) (frame_paths readings : list str) (sequence_length : Z),
    Forall2 (fun fp r => read_digit_from_frame fp = Ok r) frame_paths readings ->
    ((Z.of_nat (List.length (List.concat readings)) <= sequence_length)%Z ->
     read_digits_with_validation frame_paths sequence_length
     = Ok (List.concat readings))
    /\ ((0 < sequence_length < Z.of_nat (List.length (List.concat readings)))%Z ->
        exists out,
          read_digits_with_validation frame_paths sequence_length = Ok out
          /\ List.length out = Z.to_nat sequence_length
          /\ forall pos, pos < Z.to_nat sequence_length ->
               exists c,
                 nth_error out pos = Some c
                 /\ plurality
                      (column (chunks (List.concat readings) (Z.to_nat sequence_length)) pos)
                      c)
    /\ (List.concat readings = str_of "316931893169" ->
        read_digits_with_validation frame_paths 4 = Ok (str_of "3169")).
Proof.
  intros vc frame_paths readings L F.
  apply read_digits_from_frames_joined in F.
  set (raw := List.concat readings) in *.
  split; [|split].
  - intro Hshort. unfold read_digits_with_validation. rewrite F. simpl.
    apply Z.leb_le in Hshort. now rewrite Hshort.
  - intros [HL Hlong]. unfold read_digits_with_validation. rewrite F. simpl.
    destruct (Z.of_nat (List.length raw) <=? L)%Z eqn:E;
      [apply Z.leb_le in E; lia|].
    destruct (loops_are_chunks raw L HL) as (starts & Hs & Hc).
    rewrite Hs. cbn [obind]. rewrite Hc.
    eexists. split; [reflexivity|].
    apply (concat_winners
             (P := fun pos c => plurality (column (chunks raw (Z.to_nat L)) pos) c)).
    intros pos Hpos. rewrite tally_column.
    apply best_of_plurality, column_nonempty; lia.
  - intro Hraw. unfold read_digits_with_validation. rewrite F, Hraw. reflexivity.
Qed.

(** Twelve frames read as ["316931893169"], voted with cycle length 4. *)
Lemma read_digits_with_validation_majority_witness :
  @Forall2 str str
     (fun fp r =>
        @read_digit_from_frame
          (scripted_client
             (combine (map (fun n => [ascii_of_nat (65 + n)]) (seq 0 12))
                      (map (fun c => [c]) (str_of "316931893169")))) fp = Ok r)
     (map (fun n => [ascii_of_nat (65 + n)]) (seq 0 12))
     (map (fun c => [c]) (str_of "316931893169"))
  /\ @read_digits_with_validation
       (scripted_client
          (combine (map (fun n => [ascii_of_nat (65 + n)]) (seq 0 12))
                   (map (fun c => [c]) (str_of "316931893169"))))
       (map (fun n => [ascii_of_nat (65 + n)]) (seq 0 12)) 4
     = Ok (str_of "3169").
Proof.
  assert (F : @Forall2 str str
     (fun fp r =>
        @read_digit_from_frame
          (scripted_client
             (combine (map (fun n => [ascii_of_nat (65 + n)]) (seq 0 12))
                      (map (fun c => [c]) (str_of "316931893169")))) fp = Ok r)
     (map (fun n => [ascii_of_nat (65 + n)]) (seq 0 12))
     (map (fun c => [c]) (str_of "316931893169"))).
  { simpl. repeat (constructor; [reflexivity|]). constructor. }
  split; [exact F|].
  exact (proj2 (proj2 (read_digits_with_validation_majority _ _ _ 4%Z F)) eq_refl).
Defined.

(** ** Frame deduplication *)

(** A frame with its original index. *)
Abbreviation indexed := (FrameAnalysis * Z)%type.

(** Two consecutive original indices belong to one glyph. *)
Definition close (a b : Z) : Prop := (b - a <= 1)%Z.

(** The last frame of [g1] and the first of [g2] are more than one index
    apart. *)
Definition far_apart (g1 g2 : list indexed) : Prop :=
  exists g1' a b g2', g1 = g1' ++ [a] /\ g2 = b :: g2' /\ (1 < snd b - snd a)%Z.

(** [r] is the member of [group] with the least score, as the code
    computes and compares scores, and the earliest one among equals: its
    score is below that of every member before it, and the score of no
    member after it is below its own. (A score that is not a number is
    below nothing, and nothing is below it.) *)
Definition representative (group : list FrameAnalysis) (r : FrameAnalysis) : Prop :=
  exists pre post,
    group = pre ++ r :: post
    /\ (forall x, In x pre ->
          flt (center_score r) (center_score x) = true \/ center_score x = NaN)
    /\ (forall x, In x post -> flt (center_score x) (center_score r) = false).

(** The groups of a list of indexed frames, read off from the front. *)
Fixpoint groups_of (ps : list indexed) : list (list indexed) :=
  match ps with
  | [] => []
  | p :: rest =>
      match hd_error rest, groups_of rest with
      | Some q, g :: gs =>
          if (snd q - snd p <=? 1)%Z then (p :: g) :: gs else [p] :: g :: gs
      | _, _ => [[p]]
      end
  end.

Lemma groups_of_nonempty (p : indexed) (ps : list indexed) : groups_of (p :: ps) <> [].
Proof.
  cbn [groups_of]. destruct (hd_error ps) as [q|]; [|discriminate].
  destruct (groups_of ps); [discriminate|].
  destruct (snd q - snd p <=? 1)%Z; discriminate.
Qed.

Lemma append_to_last_cons {A} (g : list A) (gs : list (list A)) (x : A) :
  gs <> [] -> append_to_last (g :: gs) x = g :: append_to_last gs x.
Proof.
  intro Hne. unfold append_to_last. destruct gs as [|g' gs]; [contradiction|].
  reflexivity.
Qed.

(** Adding one more frame at the end either extends the last group or
    opens a new one, by the gap to the frame before it. *)
Lemma groups_of_snoc (ps : list indexed) (q p : indexed) :
  groups_of (ps ++ [q; p])
  = if (snd p - snd q <=? 1)%Z
    then append_to_last (groups_of (ps ++ [q])) p
    else groups_of (ps ++ [q]) ++ [[p]].
Proof.
  induction ps as [|a ps IH].
  - simpl. destruct (snd p - snd q <=? 1)%Z; reflexivity.
  - change ((a :: ps) ++ [q; p]) with (a :: (ps ++ [q; p])).
    change ((a :: ps) ++ [q]) with (a :: (ps ++ [q])).
    cbn [groups_of]. rewrite IH.
    assert (Hhd : hd_error (ps ++ [q; p]) = hd_error (ps ++ [q]))
      by (destruct ps; reflexivity).
    rewrite Hhd.
    destruct (hd_error (ps ++ [q])) as [b|] eqn:Hb; [|now destruct ps].
    assert (Hne : groups_of (ps ++ [q]) <> []).
    { destruct (ps ++ [q]) eqn:E; [discriminate | apply groups_of_nonempty]. }
    destruct (groups_of (ps ++ [q])) as [|g gs] eqn:G; [contradiction|].
    destruct (snd p - snd q <=? 1)%Z.
    + destruct gs as [|g' gs].
      * unfold append_to_last. simpl.
        destruct (snd b - snd a <=? 1)%Z; reflexivity.
      * rewrite (append_to_last_cons g (g' :: gs) p) by easy.
        destruct (snd b - snd a <=? 1)%Z.
        -- now rewrite (append_to_last_cons (a :: g) (g' :: gs) p) by easy.
        -- rewrite (append_to_last_cons [a] (g :: g' :: gs) p) by easy.
           now rewrite (append_to_last_cons g (g' :: gs) p) by easy.
    + simpl. destruct (snd b - snd a <=? 1)%Z; reflexivity.
Qed.

Lemma groups_of_head (p : indexed) (rest : list indexed) :
  exists g gs, groups_of (p :: rest) = (p :: g) :: gs.
Proof.
  cbn [groups_of]. destruct (hd_error rest) as [q|]; [|now exists [], []].
  destruct (groups_of rest) as [|g gs]; [now exists [], []|].
  destruct (snd q - snd p <=? 1)%Z; eauto.
Qed.

Lemma groups_of_cons (p q : indexed) (rest : list indexed) :
  groups_of (p :: q :: rest)
  = match groups_of (q :: rest) with
    | g :: gs => if (snd q - snd p <=? 1)%Z then (p :: g) :: gs else [p] :: g :: gs
    | [] => [[p]]
    end.
Proof. reflexivity. Qed.

(** The groups are the frames in order, cut exactly at the gaps. *)
Lemma groups_of_spec (ps : list indexed) :
  List.concat (groups_of ps) = ps
  /\ Forall (fun g => Sorted close (map snd g)) (groups_of ps)
  /\ Sorted far_apart (groups_of ps).
Proof.
  induction ps as [|p rest (IHc & IHw & IHb)].
  - repeat split; constructor.
  - destruct rest as [|q rest].
    + simpl. repeat split; repeat constructor.
    + destruct (groups_of_head q rest) as (g & gs & G).
      rewrite groups_of_cons. rewrite G in *.
      destruct (snd q - snd p <=? 1)%Z eqn:E.
      * apply Z.leb_le in E. split; [|split].
        -- cbn [List.concat app] in *. now f_equal.
        -- inversion IHw; subst. constructor; [|assumption].
           simpl. constructor; [assumption|]. now constructor.
        -- inversion IHb as [|? ? Hs Hh]; subst. constructor; [assumption|].
           inversion Hh as [|g2 gs2 (g1' & a & b & g2' & E1 & E2 & Hgap)]; subst;
             constructor.
           exists (p :: g1'), a, b, g2'. rewrite E1. now repeat split.
      * apply Z.leb_gt in E. split; [|split].
        -- cbn [List.concat app] in *. now f_equal.
        -- constructor; [|assumption]. simpl. repeat constructor.
        -- constructor; [assumption|]. constructor.
           exists [], p, q, g. repeat split. lia.
Qed.

Lemma map_append_to_last {A B} (f : A -> B) (gs : list (list A)) (x : A) :
  map (map f) (append_to_last gs x) = append_to_last (map (map f) gs) (f x).
Proof.
  induction gs as [|g gs IH]; [reflexivity|].
  destruct gs as [|g' gs].
  - unfold append_to_last. simpl. now rewrite map_app.
  - rewrite (append_to_last_cons g (g' :: gs) x) by easy.
    change (map (map f) (g :: g' :: gs))
      with (map f g :: map (map f) (g' :: gs)).
    rewrite (append_to_last_cons (map f g) (map (map f) (g' :: gs)) (f x)) by easy.
    simpl map at 1. now rewrite IH.
Qed.

Lemma nth_error_combine {A B} (l1 : list A) (l2 : list B) (i : nat) (a : A) (b : B) :
  nth_error l1 i = Some a -> nth_error l2 i = Some b ->
  nth_error (combine l1 l2) i = Some (a, b).
Proof.
  revert l2 i. induction l1 as [|x l1 IH]; intros [|y l2] [|i]; simpl;
    try discriminate.
  - now intros [= ->] [= ->].
  - apply IH.
Qed.

Lemma firstn_snoc {A} (l : list A) (i : nat) (x : A) :
  nth_error l i = Some x -> firstn (S i) l = firstn i l ++ [x].
Proof.
  revert i. induction l as [|a l IH]; intros [|i]; simpl; try discriminate.
  - now intros [= ->].
  - intro E. now rewrite <- IH.
Qed.

(** The grouping loop computes [groups_of]. *)
Lemma group_frames_spec (frames : list FrameAnalysis) (original_indices : list Z) :
  List.length frames = List.length original_indices ->
  forall count i,
    1 <= i -> i + count = List.length frames ->
    group_frames frames original_indices (seq i count)
      (map (map fst) (groups_of (firstn i (combine frames original_indices))))
    = Ok (map (map fst) (groups_of (combine frames original_indices))).
Proof.
  intro Hlen. set (ps := combine frames original_indices).
  induction count as [|count IH]; intros i Hi Hn.
  - simpl. rewrite firstn_all2; [reflexivity|].
    unfold ps. rewrite length_combine. lia.
  - cbn [seq group_frames]. unfold index.
    destruct (nth_error original_indices (i - 1)) as [prev|] eqn:Ep;
      [|apply nth_error_None in Ep; lia].
    destruct (nth_error original_indices i) as [curr|] eqn:Ec;
      [|apply nth_error_None in Ec; lia].
    destruct (nth_error frames i) as [frame|] eqn:Ef;
      [|apply nth_error_None in Ef; lia].
    destruct (nth_error frames (i - 1)) as [before|] eqn:Eb;
      [|apply nth_error_None in Eb; lia].
    cbn [obind].
    pose proof (nth_error_combine _ _ _ _ _ Ef Ec) as Hp. fold ps in Hp.
    pose proof (nth_error_combine _ _ _ _ _ Eb Ep) as Hq. fold ps in Hq.
    assert (Hfirst : firstn (S i) ps = firstn (i - 1) ps ++ [(before, prev); (frame, curr)]).
    { rewrite (firstn_snoc _ _ _ Hp).
      replace i with (S (i - 1)) at 1 by lia.
      rewrite (firstn_snoc _ _ _ Hq), <- app_assoc. reflexivity. }
    assert (Hprev : firstn i ps = firstn (i - 1) ps ++ [(before, prev)]).
    { replace i with (S (i - 1)) at 1 by lia. apply (firstn_snoc _ _ _ Hq). }
    specialize (IH (S i) ltac:(lia) ltac:(lia)).
    rewrite Hfirst, groups_of_snoc, <- Hprev in IH. cbn [snd] in IH.
    destruct (curr - prev <=? 1)%Z.
    + rewrite map_append_to_last in IH. exact IH.
    + rewrite map_app in IH. exact IH.
Qed.

Lemma flt_trans (a b c : float) :
  flt a b = true -> flt b c = true -> flt a c = true.
Proof.
  destruct a, b, c; cbn [flt]; try reflexivity; try discriminate.
  rewrite !negb_true_iff. intros H1 H2.
  destruct (Qle_bool q1 q) eqn:E; [|reflexivity].
  apply Qle_bool_iff in E.
  assert (N1 : ~ (q0 <= q)%Q) by (intro C; apply Qle_bool_iff in C; congruence).
  assert (N2 : ~ (q1 <= q0)%Q) by (intro C; apply Qle_bool_iff in C; congruence).
  exfalso. lra.
Qed.

Lemma flt_below_unbeaten (a b y : float) :
  flt a b = true -> flt y b = false -> flt a y = true \/ y = NaN.
Proof.
  destruct a, b, y; cbn [flt]; try discriminate; auto.
  rewrite negb_true_iff, negb_false_iff, Qle_bool_iff. intros H1 H2. left.
  apply negb_true_iff.
  destruct (Qle_bool q1 q) eqn:E; [|reflexivity].
  apply Qle_bool_iff in E.
  assert (N1 : ~ (q0 <= q)%Q) by (intro C; apply Qle_bool_iff in C; congruence).
  exfalso. lra.
Qed.

Lemma pick_best_spec (rest : list FrameAnalysis) :
  forall (seen_before : list FrameAnalysis) (best : FrameAnalysis)
         (seen_after : list FrameAnalysis),
    (forall x, In x seen_before ->
       flt (center_score best) (center_score x) = true \/ center_score x = NaN) ->
    (forall x, In x seen_after -> flt (center_score x) (center_score best) = false) ->
    exists pre post,
      seen_before ++ best :: seen_after ++ rest
      = pre ++ pick_best rest best (center_score best) :: post
      /\ (forall x, In x pre ->
            flt (center_score (pick_best rest best (center_score best)))
                (center_score x) = true
            \/ center_score x = NaN)
      /\ (forall x, In x post ->
            flt (center_score x)
                (center_score (pick_best rest best (center_score best))) = false).
Proof.
  induction rest as [|frame rest IH]; intros sb best sa Hb Ha.
  - exists sb, sa. rewrite app_nil_r. auto.
  - cbn [pick_best].
    destruct (flt (center_score frame) (center_score best)) eqn:Hlt.
    + destruct (IH (sb ++ best :: sa) frame []) as (pre & post & E & Hpre & Hpost).
      * intros x Hx. apply in_app_or in Hx as [Hx | [<- | Hx]].
        -- destruct (Hb x Hx) as [Hx' | Hx']; [left | now right].
           now apply flt_trans with (center_score best).
        -- now left.
        -- apply Ha in Hx. now apply flt_below_unbeaten with (center_score best).
      * intros x [].
      * exists pre, post. split; [|auto].
        rewrite <- E, <- app_assoc. reflexivity.
    + destruct (IH sb best (sa ++ [frame])) as (pre & post & E & Hpre & Hpost).
      * assumption.
      * intros x Hx. apply in_app_or in Hx as [Hx | [<- | []]]; auto.
      * exists pre, post. split; [|auto].
        rewrite <- E, <- app_assoc. reflexivity.
Qed.

Lemma pick_representatives_spec (groups : list (list FrameAnalysis)) :
  Forall (fun g => g <> []) groups ->
  forall result,
  exists picked,
    pick_representatives groups result = Ok (result ++ picked)
    /\ Forall2 representative groups picked.
Proof.
  induction 1 as [|g groups Hg F IH]; intro result.
  - exists []. rewrite app_nil_r. split; [reflexivity | constructor].
  - destruct g as [|best rest]; [contradiction|].
    cbn [pick_representatives index nth_error obind tl].
    destruct (IH (result ++ [pick_best rest best (center_score best)]))
      as (picked & -> & F2).
    eexists. split; [rewrite <- app_assoc; reflexivity|].
    constructor; [|assumption].
    destruct (pick_best_spec rest [] best []) as (pre & post & E & Hpre & Hpost);
      try (intros x []).
    exists pre, post. auto.
Qed.

Lemma groups_of_all_nonempty (ps : list indexed) :
  Forall (fun g => g <> []) (map (map fst) (groups_of ps)).
Proof.
  induction ps as [|p rest IH]; [constructor|].
  destruct rest as [|q rest]; [repeat constructor; discriminate|].
  rewrite groups_of_cons.
  destruct (groups_of (q :: rest)) as [|g gs]; [repeat constructor; discriminate|].
  inversion IH; subst.
  destruct (snd q - snd p <=? 1)%Z; simpl; repeat constructor;
    try discriminate; assumption.
Qed.


(** The frames of the deduplication tests. *)
Definition test_frame (name : string) (top bottom : Q) : FrameAnalysis :=
  {| path := str_of name; is_blank := false; top_margin := top;
     bottom_margin := bottom; is_fully_visible := true; content_hash := 100 |}.

(** The double a decimal literal denotes, as a rational number. *)
Definition double (q : Q) : Q :=
  match float_of q with
  | Fin v => v
  | _ => 0%Q
  end.

(** C8 as worded fails, both ways. With margins 0.3, 0.5 and 0.1, 0.3
    the exact distances [|top_margin - bottom_margin|] are equal, yet the
    code keeps the second frame: in doubles [0.1 - 0.3] is nearer to
    zero than [0.3 - 0.5]. With the doubles 0.6, 0.0 and 0.7, 0.1 the
    exact distance of the second frame is the smaller, yet the code
    keeps the first: the subtraction rounds to the same double. *)
Lemma deduplicate_frames_rounded_scores :
  (exists a b,
     a = test_frame "a.png" 0.3 0.5 /\ b = test_frame "b.png" 0.1 0.3
     /\ deduplicate_frames [a; b] [1; 2]%Z = Ok [b]
     /\ (Qabs (top_margin a - bottom_margin a)
         == Qabs (top_margin b - bottom_margin b))%Q)
  /\ (exists a b,
        a = test_frame "a.png" (double 0.6) 0
        /\ b = test_frame "b.png" (double 0.7) (double 0.1)
        /\ float_of (top_margin a) = Fin (top_margin a)
        /\ float_of (top_margin b) = Fin (top_margin b)
        /\ float_of (bottom_margin b) = Fin (bottom_margin b)
        /\ deduplicate_frames [a; b] [1; 2]%Z = Ok [a]
        /\ (Qabs (top_margin b - bottom_margin b)
            < Qabs (top_margin a - bottom_margin a))%Q).
Proof.
  split.
  - do 2 eexists. repeat (split; [reflexivity|]).
    split; vm_compute; reflexivity.
  - do 2 eexists. repeat (split; [reflexivity|]).
    repeat (split; [vm_compute; reflexivity|]). vm_compute. reflexivity.
Qed.


(** ** Frame analysis *)

(** The fraction of pixels at or above [bright_luminance]. *)
Definition bright_fraction (cfg : ExtractionConfig) (data : list Z)
    (width height : nat) : Q :=
  (nQ (List.length (filter (fun p => (bright_luminance cfg <=? p)%Z) data))
   / nQ (width * height))%Q.

(** Row [y] of a [width]-wide buffer. *)
Definition row (data : list Z) (width y : nat) : list Z :=
  slice data (y * width) (y * width + width).

(** The fraction of the pixels of row [y] darker than
    [content_luminance_threshold]. *)
Definition dark_fraction (cfg : ExtractionConfig) (data : list Z)
    (width y : nat) : Q :=
  (nQ (List.length
         (filter (fun p => (p <? content_luminance_threshold cfg)%Z) (row data width y)))
   / nQ width)%Q.

(** Row [y] is a content row. *)
Definition content_row (cfg : ExtractionConfig) (data : list Z)
    (width height y : nat) : Prop :=
  y < height /\ (content_row_threshold cfg <= dark_fraction cfg data width y)%Q.

Lemma nQ_pos (n : nat) : 0 < n -> (0 < nQ n)%Q.
Proof.
  intro Hn. unfold nQ. change 0%Q with (inject_Z 0). rewrite <- Zlt_Qlt. lia.
Qed.

Lemma truediv_nQ (a : Q) (n : nat) : 0 < n -> truediv a (nQ n) = Ok (a / nQ n)%Q.
Proof.
  intro Hn. apply truediv_ok. pose proof (nQ_pos n Hn). lra.
Qed.

Lemma count_bright_filter (data : list Z) (lum : Z) :
  count_bright data lum = List.length (filter (fun p => (lum <=? p)%Z) data).
Proof.
  unfold count_bright.
  assert (G : forall acc,
             fold_left (fun bright_pixels p =>
                          if (lum <=? p)%Z then S bright_pixels else bright_pixels)
                       data acc
             = acc + List.length (filter (fun p => (lum <=? p)%Z) data)).
  { induction data as [|p data IH]; intro acc; simpl; [lia|].
    rewrite IH. destruct (lum <=? p)%Z; simpl; lia. }
  apply G.
Qed.

Lemma slice_cons {A} (s : list A) (i n : nat) (a : A) :
  nth_error s i = Some a -> slice s i (i + S n) = a :: slice s (S i) (S i + n).
Proof.
  unfold slice. replace (i + S n - i) with (S n) by lia.
  replace (S i + n - S i) with n by lia.
  revert i. induction s as [|x s IH]; intros [|i]; simpl; try discriminate.
  - now intros [= ->].
  - intro E. now apply IH.
Qed.

Lemma slice_empty {A} (s : list A) (i : nat) : slice s i (i + 0) = [].
Proof. unfold slice. now replace (i + 0 - i) with 0 by lia. Qed.

(** The row scan counts the dark pixels of the row. *)
Lemma dark_in_row_spec (data : list Z) (width : nat) (threshold : Z) (y : nat) :
  forall count x0 acc,
    y * width + x0 + count <= List.length data ->
    dark_in_row data width threshold y (seq x0 count) acc
    = Ok (acc + List.length
                  (filter (fun p => (p <? threshold)%Z)
                          (slice data (y * width + x0) (y * width + x0 + count)))).
Proof.
  induction count as [|count IH]; intros x0 acc Hfit.
  - rewrite slice_empty. simpl. f_equal. lia.
  - cbn [seq dark_in_row]. unfold index.
    destruct (nth_error data (y * width + x0)) as [pixel|] eqn:E;
      [|apply nth_error_None in E; lia].
    cbn [obind]. rewrite IH by lia.
    rewrite (slice_cons _ _ _ _ E).
    replace (y * width + S x0) with (S (y * width + x0)) by lia.
    simpl. destruct (pixel <? threshold)%Z; simpl; f_equal; lia.
Qed.

(** The darkness sums run to their end on a buffer that holds the rows. *)
Lemma darkness_in_row_ok (data : list Z) (width : nat) (threshold : Z) (y : nat) :
  forall count x0 darkness pixels,
    y * width + x0 + count <= List.length data ->
    exists acc, darkness_in_row data width threshold y (seq x0 count) darkness pixels
                = Ok acc.
Proof.
  induction count as [|count IH]; intros x0 darkness pixels Hfit.
  - eexists. reflexivity.
  - cbn [seq darkness_in_row]. unfold index.
    destruct (nth_error data (y * width + x0)) as [pixel|] eqn:E;
      [|apply nth_error_None in E; lia].
    cbn [obind]. destruct (pixel <? threshold)%Z; apply IH; lia.
Qed.

Lemma darkness_in_rows_ok (data : list Z) (width : nat) (threshold : Z) :
  forall count y0 darkness pixels,
    (y0 + count) * width <= List.length data ->
    exists acc, darkness_in_rows data width threshold (seq y0 count) darkness pixels
                = Ok acc.
Proof.
  induction count as [|count IH]; intros y0 darkness pixels Hfit.
  - eexists. reflexivity.
  - cbn [seq darkness_in_rows].
    destruct (darkness_in_row_ok data width threshold y0 width 0 darkness pixels)
      as (acc & ->); [nia|].
    cbn [obind]. apply IH. nia.
Qed.

Section RowScan.
Variables (cfg : ExtractionConfig) (data : list Z) (width height : nat).
Hypothesis width_pos : 0 < width.
Hypothesis data_fits : List.length data = width * height.

(** What the scan knows after the rows below [y0]: no content row yet
    and the initial [(height, 0)], or the first and the last content row
    so far. *)
Definition scanned (y0 y_min y_max : nat) : Prop :=
  ((forall y, y < y0 -> ~ content_row cfg data width height y)
   /\ y_min = height /\ y_max = 0)
  \/ (content_row cfg data width height y_min /\ y_min < y0
      /\ (forall y, y < y_min -> ~ content_row cfg data width height y)
      /\ content_row cfg data width height y_max /\ y_max < y0
      /\ (forall y, y_max < y -> y < y0 -> ~ content_row cfg data width height y)).

Lemma scan_rows_spec :
  forall count y0 y_min y_max,
    y0 + count = height ->
    scanned y0 y_min y_max ->
    exists y_min' y_max',
      scan_rows cfg data width (seq y0 count) y_min y_max = Ok (y_min', y_max')
      /\ scanned height y_min' y_max'.
Proof.
  induction count as [|count IH]; intros y0 y_min y_max Hh Hs.
  - exists y_min, y_max. replace height with y0 by lia. now split.
  - cbn [seq scan_rows].
    rewrite (dark_in_row_spec data width (content_luminance_threshold cfg) y0 width 0 0)
      by nia.
    cbn [obind]. rewrite truediv_nQ by assumption. cbn [obind].
    rewrite !Nat.add_0_r, Nat.add_0_l.
    fold (row data width y0). fold (dark_fraction cfg data width y0).
    destruct (Qle_bool (content_row_threshold cfg) (dark_fraction cfg data width y0))
      eqn:E.
    + apply Qle_bool_iff in E.
      assert (Hc : content_row cfg data width height y0) by (split; [lia | exact E]).
      apply IH; [lia|]. right.
      destruct Hs as [(Hnone & -> & ->) | (Hmin & Hlt & Hfirst & Hmax & Hlt' & Hlast)].
      * replace (Nat.min height y0) with y0 by lia.
        replace (Nat.max 0 y0) with y0 by lia.
        split; [exact Hc|]. split; [lia|].
        split; [intros y Hy; apply Hnone; lia|].
        split; [exact Hc|]. split; [lia|]. intros y Hy Hy'. lia.
      * replace (Nat.min y_min y0) with y_min by lia.
        replace (Nat.max y_max y0) with y0 by lia.
        split; [exact Hmin|]. split; [lia|]. split; [exact Hfirst|].
        split; [exact Hc|]. split; [lia|]. intros y Hy Hy'. lia.
    + assert (Hc : ~ content_row cfg data width height y0).
      { intros [_ Hc]. apply Qle_bool_iff in Hc. congruence. }
      apply IH; [lia|].
      destruct Hs as [(Hnone & -> & ->) | (Hmin & Hlt & Hfirst & Hmax & Hlt' & Hlast)].
      * left. split; [|split; reflexivity]. intros y Hy.
        destruct (Nat.eq_dec y y0) as [-> | N]; [exact Hc | apply Hnone; lia].
      * right. split; [exact Hmin|]. split; [lia|]. split; [exact Hfirst|].
        split; [exact Hmax|]. split; [lia|]. intros y Hy Hy'.
        destruct (Nat.eq_dec y y0) as [-> | N]; [exact Hc | apply Hlast; lia].
Qed.

End RowScan.

(** [y] is the first, respectively the last, content row. *)
Definition first_content_row (cfg : ExtractionConfig) (data : list Z)
    (width height y : nat) : Prop :=
  content_row cfg data width height y
  /\ forall y', y' < y -> ~ content_row cfg data width height y'.

Definition last_content_row (cfg : ExtractionConfig) (data : list Z)
    (width height y : nat) : Prop :=
  content_row cfg data width height y
  /\ forall y', y < y' -> ~ content_row cfg data width height y'.

(** The result for a blank frame. *)
Definition blank_analysis (frame_path : str) : FrameAnalysis :=
  {| path := frame_path; is_blank := true; top_margin := 1.0;
     bottom_margin := 1.0; is_fully_visible := false; content_hash := 0 |}.

(** One run of [analyze_frame] on a well-formed buffer. *)
Lemma analyze_frame_run `{FrameDecoder} (frame_path : str)
    (config : option ExtractionConfig) (data : list Z) (width height : nat) :
  _get_grayscale_pixels frame_path = Ok (data, width, height) ->
  0 < width -> 0 < height -> List.length data = width * height ->
  ((blank_threshold (config_or_default config)
    <= bright_fraction (config_or_default config) data width height)%Q ->
   analyze_frame frame_path config = Ok (blank_analysis frame_path))
  /\ ((bright_fraction (config_or_default config) data width height
       < blank_threshold (config_or_default config))%Q ->
      exists y_min y_max hash,
        scanned (config_or_default config) data width height height y_min y_max
        /\ (y_max < y_min -> hash = 0%Q)
        /\ analyze_frame frame_path config
           = Ok {| path := frame_path; is_blank := false;
                   top_margin := (nQ y_min / nQ height)%Q;
                   bottom_margin :=
                     (inject_Z (Z.of_nat height - 1 - Z.of_nat y_max) / nQ height)%Q;
                   is_fully_visible :=
                     Qle_bool (edge_margin_threshold (config_or_default config))
                              (nQ y_min / nQ height)
                     && Qle_bool (edge_margin_threshold (config_or_default config))
                                 (inject_Z (Z.of_nat height - 1 - Z.of_nat y_max)
                                  / nQ height);
                   content_hash := hash |}).
Proof.
  intros Hdec Hw Hh Hlen. set (cfg := config_or_default config).
  assert (Hstart : analyze_frame frame_path config
            = (if Qle_bool (blank_threshold cfg) (bright_fraction cfg data width height)
               then Ok (blank_analysis frame_path)
               else
                 rows <- scan_rows cfg data width (seq 0 height) height O ;;
                 let '(y_min, y_max) := rows in
                 content <-
                   (if (y_min <=? y_max)%nat then
                      darkness_in_rows data width (content_luminance_threshold cfg)
                        (seq y_min (y_max + 1 - y_min)) 0%Z O
                    else Ok (0%Z, O)) ;;
                 let '(content_darkness, content_pixel_count) := content in
                 top_margin <- truediv (nQ y_min) (nQ height) ;;
                 bottom_margin <-
                   truediv (inject_Z (Z.of_nat height - 1 - Z.of_nat y_max)) (nQ height) ;;
                 let is_fully_visible :=
                   Qle_bool (edge_margin_threshold cfg) top_margin
                   && Qle_bool (edge_margin_threshold cfg) bottom_margin in
                 content_hash <-
                   (if (0 <? content_pixel_count)%nat
                    then truediv (inject_Z content_darkness) (nQ content_pixel_count)
                    else Ok 0%Q) ;;
                 Ok {| path := frame_path; is_blank := false; top_margin := top_margin;
                       bottom_margin := bottom_margin;
                       is_fully_visible := is_fully_visible;
                       content_hash := content_hash |})).
  { unfold analyze_frame. rewrite Hdec. cbn [obind]. fold cfg.
    rewrite count_bright_filter, truediv_nQ by nia. reflexivity. }
  split.
  - intro Hb. apply Qle_bool_iff in Hb. now rewrite Hstart, Hb.
  - intro Hb. rewrite Hstart.
    destruct (Qle_bool (blank_threshold cfg) (bright_fraction cfg data width height))
      eqn:E; [apply Qle_bool_iff in E; lra|].
    destruct (scan_rows_spec cfg data width height Hw Hlen height 0 height 0)
      as (y_min & y_max & -> & Hs); [lia | left; repeat split; intros y Hy; lia|].
    cbn [obind].
    assert (Hcontent : exists darkness pixels,
              (if y_min <=? y_max
               then darkness_in_rows data width (content_luminance_threshold cfg)
                      (seq y_min (y_max + 1 - y_min)) 0%Z 0
               else Ok (0%Z, 0)) = Ok (darkness, pixels)
              /\ (y_max < y_min -> pixels = 0)).
    { destruct (y_min <=? y_max) eqn:Ele.
      - apply Nat.leb_le in Ele.
        destruct (darkness_in_rows_ok data width (content_luminance_threshold cfg)
                    (y_max + 1 - y_min) y_min 0%Z 0) as ([d p] & ->).
        + destruct Hs as [(_ & -> & ->) | (_ & _ & _ & _ & Hlt & _)]; [lia | nia].
        + exists d, p. split; [reflexivity | lia].
      - exists 0%Z, 0. split; reflexivity. }
    destruct Hcontent as (darkness & pixels & -> & Hzero). cbn [obind].
    rewrite !truediv_nQ by assumption. cbn [obind].
    assert (Hhash : exists hash,
              (if 0 <? pixels then truediv (inject_Z darkness) (nQ pixels) else Ok 0%Q)
              = Ok hash /\ (y_max < y_min -> hash = 0%Q)).
    { destruct (0 <? pixels) eqn:Ep.
      - apply Nat.ltb_lt in Ep. rewrite truediv_nQ by assumption.
        eexists. split; [reflexivity|]. intro Hlt. apply Hzero in Hlt. lia.
      - exists 0%Q. split; reflexivity. }
    destruct Hhash as (hash & -> & Hhash). cbn [obind].
    exists y_min, y_max, hash. repeat split; assumption.
Qed.

Lemma scanned_first_last (cfg : ExtractionConfig) (data : list Z)
    (width height y_min y_max yMin yMax : nat) :
  scanned cfg data width height height y_min y_max ->
  first_content_row cfg data width height yMin ->
  last_content_row cfg data width height yMax ->
  y_min = yMin /\ y_max = yMax.
Proof.
  intros [(Hnone & _ & _) | (Hmin & _ & Hfirst & Hmax & _ & Hlast)]
         [Hc1 Hf1] [Hc2 Hl2].
  - exfalso. apply (Hnone yMin); [apply Hc1 | exact Hc1].
  - split.
    + destruct (Nat.lt_trichotomy y_min yMin) as [Lt | [E | Gt]]; [|exact E|].
      * exfalso. now apply (Hf1 y_min).
      * exfalso. now apply (Hfirst yMin).
    + destruct (Nat.lt_trichotomy y_max yMax) as [Lt | [E | Gt]]; [|exact E|].
      * exfalso. apply (Hlast yMax); [exact Lt | apply Hc2 | exact Hc2].
      * exfalso. now apply (Hl2 y_max).
Qed.

Lemma nQ_zero_div (n : nat) : (nQ 0 / nQ n == 0)%Q.
Proof. unfold nQ. simpl. unfold Qdiv. now rewrite Qmult_0_l. Qed.

(** C7 (as the code has it): on a [width] x [height] buffer, when the
    fraction of pixels at or above [bright_luminance] is at least
    [blank_threshold] the frame is blank, with both margins 1.0, not
    fully visible and content hash 0; otherwise the frame is not blank,
    [top_margin = yMin / height] and
    [bottom_margin = (height - 1 - yMax) / height] for the first and
    last content rows [yMin], [yMax], and [is_fully_visible] holds
    exactly when both margins are at least [edge_margin_threshold]; so,
    when [edge_margin_threshold] is positive, content in row 0 or in the
    last row gives [is_fully_visible = false]. *)
Theorem analyze_frame_margins :
  forall (fd : FrameDecoder) (frame_path : str) (config : option ExtractionConfig)
         (data : list Z) (width height : nat),
    _get_grayscale_pixels frame_path = Ok (data, width, height) ->
    0 < width -> 0 < height -> List.length data = width * height ->
    ((blank_threshold (config_or_default config)
      <= bright_fraction (config_or_default config) data width height)%Q ->
     analyze_frame frame_path config = Ok (blank_analysis frame_path))
    /\ ((bright_fraction (config_or_default config) data width height
         < blank_threshold (config_or_default config))%Q ->
        exists r,
          analyze_frame frame_path config = Ok r
          /\ is_blank r = false
          /\ (forall yMin yMax,
                first_content_row (config_or_default config) data width height yMin ->
                last_content_row (config_or_default config) data width height yMax ->
                top_margin r = (nQ yMin / nQ height)%Q
                /\ bottom_margin r
                   = (inject_Z (Z.of_nat height - 1 - Z.of_nat yMax) / nQ height)%Q)
          /\ (is_fully_visible r = true
              <-> (edge_margin_threshold (config_or_default config) <= top_margin r
                   /\ edge_margin_threshold (config_or_default config)
                      <= bottom_margin r)%Q)
          /\ ((0 < edge_margin_threshold (config_or_default config))%Q ->
              content_row (config_or_default config) data width height 0
              \/ content_row (config_or_default config) data width height (height - 1) ->
              is_fully_visible r = false)).
Proof.
  intros fd frame_path config data width height Hdec Hw Hh Hlen.
  destruct (analyze_frame_run frame_path config data width height Hdec Hw Hh Hlen)
    as [Hblank Hrun].
  split; [exact Hblank|]. intro Hb.
  destruct (Hrun Hb) as (y_min & y_max & hash & Hs & _ & ->).
  set (cfg := config_or_default config) in *.
  eexists. split; [reflexivity|]. split; [reflexivity|]. cbn [top_margin bottom_margin is_fully_visible].
  split; [|split].
  - intros yMin yMax Hf Hl.
    destruct (scanned_first_last _ _ _ _ _ _ _ _ Hs Hf Hl) as [-> ->]. now split.
  - rewrite andb_true_iff, !Qle_bool_iff. reflexivity.
  - intros Hpos Hedge.
    destruct Hs as [(Hnone & _ & _) | (Hmin & _ & Hfirst & Hmax & Hlt & Hlast)].
    + exfalso. destruct Hedge as [Hc | Hc]; apply (Hnone _ (proj1 Hc) Hc).
    + apply andb_false_iff. destruct Hedge as [Hc | Hc].
      * left. assert (y_min = 0).
        { destruct y_min as [|y]; [reflexivity|]. exfalso. apply (Hfirst 0); [lia | exact Hc]. }
        subst y_min. destruct (Qle_bool _ _) eqn:E; [|reflexivity].
        apply Qle_bool_iff in E. rewrite nQ_zero_div in E. lra.
      * right. assert (y_max = height - 1).
        { destruct (Nat.eq_dec y_max (height - 1)) as [E | N]; [exact E|].
          exfalso. apply (Hlast (height - 1)); [lia | lia | exact Hc]. }
        subst y_max. destruct (Qle_bool _ _) eqn:E; [|reflexivity].
        apply Qle_bool_iff in E.
        replace (Z.of_nat height - 1 - Z.of_nat (height - 1))%Z with 0%Z in E by lia.
        change (inject_Z 0) with (nQ 0) in E. rewrite nQ_zero_div in E. lra.
Qed.

(** A decoder that yields one fixed buffer. *)
Definition fixed_decoder (data : list Z) (width height : nat) : FrameDecoder :=
  {| ffmpeg_frames := fun _ _ => Ok [];
     _get_grayscale_pixels := fun _ => Ok (data, width, height) |}.

(** A 100-row frame, one pixel wide, dark in rows 0 to 50. *)
Definition top_edge_frame : list Z := repeat 50%Z 51 ++ repeat 255%Z 49.

(** The analysis of [top_edge_frame] under the default configuration. *)
Lemma analyze_frame_margins_witness :
  @_get_grayscale_pixels (fixed_decoder top_edge_frame 1 100) (str_of "top_edge.png")
  = Ok (top_edge_frame, 1, 100)
  /\ 0 < 1 /\ 0 < 100 /\ List.length top_edge_frame = 1 * 100
  /\ (bright_fraction ExtractionConfig_default top_edge_frame 1 100
      < blank_threshold ExtractionConfig_default)%Q
  /\ exists r,
       @analyze_frame (fixed_decoder top_edge_frame 1 100) (str_of "top_edge.png") None
       = Ok r
       /\ is_blank r = false.
Proof.
  split; [reflexivity|]. split; [lia|]. split; [lia|]. split; [reflexivity|].
  split; [vm_compute; reflexivity|].
  destruct (proj2 (analyze_frame_margins (fixed_decoder top_edge_frame 1 100)
                     (str_of "top_edge.png") None top_edge_frame 1 100
                     eq_refl ltac:(lia) ltac:(lia) eq_refl))
    as (r & Hr & Hb & _); [vm_compute; reflexivity|].
  exists r. split; assumption.
Defined.

(** C7 as worded fails for a zero [edge_margin_threshold]: a two-row
    frame whose content is in row 0 is reported fully visible. *)
Lemma analyze_frame_edge_content_fully_visible :
  exists (cfg : ExtractionConfig) (r : FrameAnalysis),
    edge_margin_threshold cfg = 0%Q
    /\ content_row cfg [0; 220]%Z 1 2 0
    /\ @analyze_frame (fixed_decoder [0; 220]%Z 1 2) (str_of "edge.png") (Some cfg)
       = Ok r
    /\ is_blank r = false
    /\ is_fully_visible r = true.
Proof.
  exists {| fps := 5; blank_threshold := 0.999; bright_luminance := 250;
            edge_margin_threshold := 0; content_luminance_threshold := 200;
            content_row_threshold := 0.005 |}.
  eexists. split; [reflexivity|]. split.
  - split; [lia | vm_compute; discriminate].
  - split; [vm_compute; reflexivity|]. split; reflexivity.
Qed.



(** * Further properties of the typing engine *)
(* ================================================================== *)

(** ** [nearby_key] always answers with one character *)

Lemma QWERTY_NEIGHBORS_single :
  forallb (fun e => forallb (fun p => List.length p =? 1) (snd e)) QWERTY_NEIGHBORS
  = true.
Proof. vm_compute. reflexivity. Qed.

Lemma neighbor_single (k : str) (ns : list str) (p : str) :
  dict_get QWERTY_NEIGHBORS k = Some ns -> In p ns -> exists x, p = [x].
Proof.
  intros G Hp. apply dict_get_In in G.
  pose proof QWERTY_NEIGHBORS_single as T. rewrite forallb_forall in T.
  specialize (T _ G). simpl in T. rewrite forallb_forall in T.
  specialize (T _ Hp). apply Nat.eqb_eq in T.
  destruct p as [|x [|y p]]; try discriminate. now exists x.
Qed.

Lemma nearby_key_run `{RandomSource} (key : str) (c : nat) :
  exists x, nearby_key key c = Ok ([x], S c).
Proof.
  unfold nearby_key.
  destruct (dict_get QWERTY_NEIGHBORS (lower key)) as [[|n ns]|] eqn:G.
  - destruct (choice_ok letters c ltac:(discriminate)) as (x & _ & E).
    rewrite (rbind_ok _ _ _ _ _ E). destruct (is_shifted key); eexists; reflexivity.
  - destruct (choice_ok (n :: ns) c ltac:(discriminate)) as (p & Hnth & E).
    apply nth_error_In in Hnth.
    destruct (neighbor_single _ _ _ G Hnth) as (y & ->).
    rewrite (rbind_ok _ _ _ _ _ E). destruct (is_shifted key); eexists; reflexivity.
  - destruct (choice_ok letters c ltac:(discriminate)) as (x & _ & E).
    rewrite (rbind_ok _ _ _ _ _ E). destruct (is_shifted key); eexists; reflexivity.
Qed.

Lemma nearby_key_single `{RandomSource} (key w : str) (c c' : nat) :
  nearby_key key c = Ok (w, c') -> exists x, w = [x].
Proof.
  intro E. destruct (nearby_key_run key c) as (x & Ex).
  rewrite Ex in E. injection E as <- _. now exists x.
Qed.



(** ** What ends up in the field *)

(** The text a sequence of key presses leaves in an input field that
    held [field]: [Backspace] deletes the last character, any other key
    is appended. *)
Fixpoint replay (keys : list str) (field : str) : str :=
  match keys with
  | [] => field
  | k :: keys' =>
      if str_eqb k Backspace then replay keys' (removelast field)
      else replay keys' (field ++ k)
  end.

Lemma single_not_Backspace (x : ascii) : str_eqb [x] Backspace = false.
Proof. cbn. apply andb_false_r. Qed.

Lemma replay_typed_as `{RandomSource} (uncorrected : bool) (text : str)
    (keys : list str) :
  typed_as uncorrected text keys ->
  forall field,
    List.length (replay keys field) = List.length field + List.length text
    /\ (uncorrected = false -> replay keys field = field ++ text).
Proof.
  induction 1 as [| c text ks T IH | c w c0 c1 text ks Hw T IH
                  | c w c0 c1 text ks Hu Hw T IH]; intro field.
  - simpl. rewrite app_nil_r. split; [lia | reflexivity].
  - cbn [replay]. rewrite !single_not_Backspace. cbn iota.
    destruct (IH (field ++ [c])) as [Hlen Heq]. split.
    + rewrite Hlen, length_app. simpl. lia.
    + intro Hf. rewrite (Heq Hf), <- app_assoc. reflexivity.
  - destruct (nearby_key_single _ _ _ _ Hw) as (x & ->).
    cbn [replay]. rewrite !single_not_Backspace.
    change (str_eqb Backspace Backspace) with true. cbn iota.
    rewrite removelast_last.
    destruct (IH (field ++ [c])) as [Hlen Heq]. split.
    + rewrite Hlen, length_app. simpl. lia.
    + intro Hf. rewrite (Heq Hf), <- app_assoc. reflexivity.
  - destruct (nearby_key_single _ _ _ _ Hw) as (x & ->).
    cbn [replay]. rewrite !single_not_Backspace. cbn iota.
    destruct (IH (field ++ [x])) as [Hlen Heq]. split.
    + rewrite Hlen, length_app. simpl. lia.
    + intro Hf. congruence.
Qed.

Section FieldContents.
Context `{RandomSource} `{MathLib}.

Lemma human_type_cdp_typed_as (fuel : nat) (d : CDPDispatcher) (text : str)
    (average_wpm typo_rate : Q) (c c' : nat) (trace : list action) :
  human_type_cdp fuel d text average_wpm typo_rate c = Ok (trace, c') ->
  typed_as false text (typed_keys trace).
Proof.
  intro E. unfold human_type_cdp in E.
  apply human_type_cdp_loop_keys in E as (acts & -> & T & _). exact T.
Qed.

Lemma simulate_typing_typed_as (fuel : nat) (now : Q) (text : str)
    (config : option HumanTyperConfig) (c c' : nat) (log : list KeystrokeEvent) :
  simulate_typing fuel now text config c = Ok (log, c') ->
  typed_as true text (map key log)
  /\ ((1 <= typo_correction_rate
              match config with Some cfg => cfg | None => HumanTyperConfig_default end)%Q ->
      typed_as false text (map key log)).
Proof.
  intro E. unfold simulate_typing in E.
  apply simulate_typing_loop_keystrokes in E as (evs & -> & K).
  exact (keystrokes_typed_as _ _ _ _ K).
Qed.

End FieldContents.

(** X3: whatever typos are rolled, the keys [human_type_cdp] presses
    leave exactly the requested text in an empty input field (every
    wrong key is deleted again before the intended key is pressed). *)
Theorem human_type_cdp_leaves_text :
  forall (rs : RandomSource) (ml : MathLib) (fuel : nat) (d : CDPDispatcher)
         (text : str) (average_wpm typo_rate : Q) (c c' : nat)
         (trace : list action),
    human_type_cdp fuel d text average_wpm typo_rate c = Ok (trace, c') ->
    replay (typed_keys trace) [] = text.
Proof.
  intros rs ml fuel d text wpm rate c c' trace E.
  apply human_type_cdp_typed_as in E.
  exact (proj2 (replay_typed_as false text _ E []) eq_refl).
Qed.

(** The live variant types ["hi"] with a typo on every key. *)
Lemma human_type_cdp_leaves_text_witness :
  exists trace c',
    @human_type_cdp (source_of [] eq_refl) rational_math 1
      {| _session_id := str_of "test-session" |} (str_of "hi") 200 1 0
    = Ok (trace, c')
    /\ List.length (typed_keys trace) = 6
    /\ replay (typed_keys trace) [] = str_of "hi".
Proof.
  eexists. eexists. split; [vm_compute; reflexivity|].
  split; [reflexivity|].
  apply (human_type_cdp_leaves_text
           (source_of [] eq_refl) rational_math 1
           {| _session_id := str_of "test-session" |} (str_of "hi")
           200 1 0 _ _ eq_refl).
Defined.

(** X4: the keys of a log of [simulate_typing] always leave a text of
    the same length as the requested one in an empty field, and leave
    exactly the requested text when [typo_correction_rate] is at least
    1; an uncorrected typo replaces its character instead. *)
Theorem simulate_typing_leaves_text :
  forall (rs : RandomSource) (ml : MathLib) (fuel : nat) (now : Q) (text : str)
         (config : option HumanTyperConfig) (c c' : nat)
         (log : list KeystrokeEvent),
    simulate_typing fuel now text config c = Ok (log, c') ->
    List.length (replay (map key log) []) = List.length text
    /\ ((1 <= typo_correction_rate
                match config with Some cfg => cfg | None => HumanTyperConfig_default end)%Q ->
        replay (map key log) [] = text).
Proof.
  intros rs ml fuel now text config c c' log E.
  destruct (simulate_typing_typed_as _ _ _ _ _ _ _ E) as [T1 T2]. split.
  - exact (proj1 (replay_typed_as true text _ T1 [])).
  - intro Hr. exact (proj2 (replay_typed_as false text _ (T2 Hr) []) eq_refl).
Qed.

(** A configuration in which every key is mistyped and no typo is
    corrected. *)
Definition never_corrected_typos : HumanTyperConfig :=
  {| average_wpm := 60; wpm_std_dev := 15; typo_rate := 1;
     typo_correction_rate := 0; word_boundary_pause_ms := 300;
     sentence_boundary_pause_ms := 800; long_pause_chance := 0.05;
     long_pause_max_ms := 2000 |}.

(** With no correction ["hi"] is typed as two wrong characters. *)
Lemma simulate_typing_leaves_text_witness :
  exists log c',
    @simulate_typing (source_of [] eq_refl) rational_math 1 0 (str_of "hi")
      (Some never_corrected_typos) 0 = Ok (log, c')
    /\ replay (map key log) [] <> str_of "hi"
    /\ List.length (replay (map key log) []) = List.length (str_of "hi").
Proof.
  eexists. eexists. split; [vm_compute; reflexivity|].
  split; [vm_compute; discriminate|].
  apply (proj1 (simulate_typing_leaves_text
                  (source_of [] eq_refl) rational_math 1 0 (str_of "hi")
                  (Some never_corrected_typos) 0 _ _ eq_refl)).
Defined.

(** ** The calls the live variant makes *)

(** A key-down and a key-up call of the dispatcher [d]. *)
Definition key_down (d : CDPDispatcher) (k : str) (text : option str) : action :=
  SendRaw dispatchKeyEvent
          {| ev_type := keyDown; ev_key := k; ev_text := text |} (_session_id d).

Definition key_up (d : CDPDispatcher) (k : str) : action :=
  SendRaw dispatchKeyEvent
          {| ev_type := keyUp; ev_key := k; ev_text := None |} (_session_id d).

(** One key stroke: a pause, then the key goes down and up; the
    key-down call carries the key as [text] unless the key is
    [Backspace]. *)
Definition stroke (d : CDPDispatcher) (p : Q * str) : list action :=
  [ Sleep (fst p);
    key_down d (snd p) (if str_eqb (snd p) Backspace then None else Some (snd p));
    key_up d (snd p) ].

(** The number of [send_raw] calls of a trace. *)
Definition send_count (trace : list action) : nat :=
  List.length (filter (fun a => match a with SendRaw _ _ _ => true | Sleep _ => false end)
                      trace).

Lemma send_count_strokes (d : CDPDispatcher) (script : list (Q * str)) :
  send_count (flat_map (stroke d) script) = 2 * List.length script.
Proof.
  unfold send_count. induction script as [|p script IH]; [reflexivity|].
  cbn [flat_map stroke app filter key_down key_up List.length]. rewrite IH. lia.
Qed.

Lemma typed_keys_strokes (d : CDPDispatcher) (script : list (Q * str)) :
  typed_keys (flat_map (stroke d) script) = map snd script.
Proof.
  induction script as [|p script IH]; [reflexivity|].
  change (flat_map (stroke d) (p :: script))
    with (stroke d p ++ flat_map (stroke d) script).
  rewrite typed_keys_app, IH. reflexivity.
Qed.

Section LiveCalls.
Context `{RandomSource} `{MathLib}.

Lemma human_type_cdp_loop_strokes (fuel : nat) (d : CDPDispatcher)
    (wpm sd rate : Q) (text : str) :
  forall (prev : option str) (trace out : list action) (c c' : nat),
    human_type_cdp_loop fuel d wpm sd rate text prev trace c = Ok (out, c') ->
    exists script,
      out = trace ++ flat_map (stroke d) script
      /\ List.length text <= List.length script <= 3 * List.length text
      /\ ((rate <= 0)%Q -> List.length script = List.length text)
      /\ ((1 <= rate)%Q -> List.length script = 3 * List.length text).
Proof.
  induction text as [|ch text IH]; intros prev trace out c c' E.
  - apply rret_inv in E as [<- _]. exists []. rewrite app_nil_r.
    repeat split; simpl; lia.
  - cbn [human_type_cdp_loop] in E.
    apply rbind_inv in E as (delay & k1 & _ & E).
    apply rbind_inv in E as (extra1 & k2 & _ & E).
    apply rbind_inv in E as (extra2 & k3 & _ & E).
    apply rbind_inv in E as (r & k4 & Er & E).
    apply random_inv in Er as [-> ->].
    apply rbind_inv in E as (trace' & k5 & Et & E).
    apply IH in E as (script & -> & Hlen & Hclean & Htypos).
    pose proof (single_not_Backspace ch) as Hch.
    destruct (Qlt_le_dec (draws k3) rate) as [Htypo | Hnone].
    + apply rbind_inv in Et as (w & k6 & Ew & Et).
      apply rbind_inv in Et as (u & k7 & _ & Et).
      apply rbind_inv in Et as (u' & k8 & _ & Et).
      apply rret_inv in Et as [<- _].
      destruct (nearby_key_single _ _ _ _ Ew) as (x & ->).
      pose proof (single_not_Backspace x) as Hx.
      exists (((delay + extra2) / 1000, [x])%Q
              :: ((200 + u * 300) / 1000, Backspace)%Q
              :: ((100 + u' * 100) / 1000, [ch])%Q :: script).
      split; [|split; [|split]].
      * cbn [flat_map]. unfold stroke. cbn [fst snd]. rewrite Hx, Hch.
        change (str_eqb Backspace Backspace) with true. cbn iota.
        rewrite <- !app_assoc. reflexivity.
      * cbn [List.length]. lia.
      * intro Hr. destruct (draws_range k3). lra.
      * intro Hr. cbn [List.length]. specialize (Htypos Hr). lia.
    + apply rret_inv in Et as [<- _].
      exists (((delay + extra2) / 1000, [ch])%Q :: script).
      split; [|split; [|split]].
      * cbn [flat_map]. unfold stroke. cbn [fst snd]. rewrite Hch.
        rewrite <- !app_assoc. reflexivity.
      * cbn [List.length]. lia.
      * intro Hr. cbn [List.length]. specialize (Hclean Hr). lia.
      * intro Hr. destruct (draws_range k3). lra.
Qed.

End LiveCalls.

(** X5: everything [human_type_cdp] does is a sequence of key strokes:
    a sleep, then a key-down and a key-up call of
    [Input.dispatchKeyEvent] for the same key, sent with the
    dispatcher's session id; the key-down call carries the key as its
    [text] except for [Backspace], the key-up call never does. *)
Theorem human_type_cdp_strokes :
  forall (rs : RandomSource) (ml : MathLib) (fuel : nat) (d : CDPDispatcher)
         (text : str) (average_wpm typo_rate : Q) (c c' : nat)
         (trace : list action),
    human_type_cdp fuel d text average_wpm typo_rate c = Ok (trace, c') ->
    exists script : list (Q * str),
      trace = flat_map (stroke d) script
      /\ typed_keys trace = map snd script
      /\ List.length trace = 3 * List.length script.
Proof.
  intros rs ml fuel d text wpm rate c c' trace E. unfold human_type_cdp in E.
  apply human_type_cdp_loop_strokes in E as (script & -> & _).
  exists script. cbn [app]. split; [reflexivity|].
  split; [apply typed_keys_strokes|].
  induction script as [|p script IH]; [reflexivity|].
  cbn [flat_map stroke app List.length]. rewrite IH. lia.
Qed.

(** The live variant on ["hi"], every key mistyped: six strokes. *)
Lemma human_type_cdp_strokes_witness :
  exists trace c' script,
    @human_type_cdp (source_of [] eq_refl) rational_math 1
      {| _session_id := str_of "test-session" |} (str_of "hi") 200 1 0
    = Ok (trace, c')
    /\ trace = flat_map (stroke {| _session_id := str_of "test-session" |}) script
    /\ typed_keys trace = map snd script
    /\ List.length trace = 3 * List.length script.
Proof.
  eexists. eexists.
  destruct (human_type_cdp_strokes
              (source_of [] eq_refl) rational_math 1
              {| _session_id := str_of "test-session" |} (str_of "hi")
              200 1 0 _ _ eq_refl) as (script & Hs).
  exists script. split; [vm_compute; reflexivity | exact Hs].
Defined.

(** X6: [human_type_cdp] makes between [2 * len(text)] and
    [6 * len(text)] [send_raw] calls: exactly [2 * len(text)] when
    [typo_rate] is 0 or less, and exactly [6 * len(text)] when it is 1
    or more. *)
Theorem human_type_cdp_send_count :
  forall (rs : RandomSource) (ml : MathLib) (fuel : nat) (d : CDPDispatcher)
         (text : str) (average_wpm typo_rate : Q) (c c' : nat)
         (trace : list action),
    human_type_cdp fuel d text average_wpm typo_rate c = Ok (trace, c') ->
    2 * List.length text <= send_count trace <= 6 * List.length text
    /\ ((typo_rate <= 0)%Q -> send_count trace = 2 * List.length text)
    /\ ((1 <= typo_rate)%Q -> send_count trace = 6 * List.length text).
Proof.
  intros rs ml fuel d text wpm rate c c' trace E. unfold human_type_cdp in E.
  apply human_type_cdp_loop_strokes in E as (script & -> & Hlen & Hclean & Htypos).
  cbn [app]. rewrite send_count_strokes.
  split; [lia|]. split; intro Hr; [specialize (Hclean Hr) | specialize (Htypos Hr)]; lia.
Qed.

(** ["hi"] at typo rate 0 takes four calls. *)
Lemma human_type_cdp_send_count_witness :
  exists trace c',
    @human_type_cdp (source_of [] eq_refl) rational_math 1
      {| _session_id := str_of "test-session" |} (str_of "hi") 200 0 0
    = Ok (trace, c')
    /\ send_count trace = 4.
Proof.
  eexists. eexists. split; [vm_compute; reflexivity|].
  apply (proj1 (proj2 (human_type_cdp_send_count
                         (source_of [] eq_refl) rational_math 1
                         {| _session_id := str_of "test-session" |} (str_of "hi")
                         200 0 0 _ _ eq_refl))).
  vm_compute. discriminate.
Defined.

(** ** Words per minute outside the positive numbers *)

(** The exception a words-per-minute value of zero or less ends in. *)
Definition wpm_error (wpm : Q) : exn :=
  if Qeq_bool wpm 0 then ZeroDivisionError else ValueError.

Section WpmDomain.
Context `{MathLib}.

Lemma wpm_to_log_normal_params_zero (wpm wpm_std_dev : Q) :
  (wpm == 0)%Q -> wpm_to_log_normal_params wpm wpm_std_dev = Raise ZeroDivisionError.
Proof.
  intro Hw. unfold wpm_to_log_normal_params, truediv.
  assert (E : Qeq_bool (wpm * 5) 0 = true) by (apply Qeq_bool_iff; rewrite Hw; reflexivity).
  rewrite E. reflexivity.
Qed.

Lemma wpm_to_log_normal_params_negative (wpm wpm_std_dev : Q) :
  (wpm < 0)%Q -> wpm_to_log_normal_params wpm wpm_std_dev = Raise ValueError.
Proof.
  intro Hw. unfold wpm_to_log_normal_params.
  rewrite truediv_ok by lra. cbn [obind].
  rewrite truediv_ok by lra. cbn [obind].
  set (cv := (wpm_std_dev / wpm)%Q).
  assert (Hcv : (0 <= cv * cv)%Q) by nra.
  rewrite math_log_ok by lra. cbn [obind].
  rewrite math_sqrt_ok by (apply m_log_nonneg; lra). cbn [obind].
  unfold math_log at 1.
  destruct (Qlt_le_dec 0 (60000 / (wpm * 5))) as [Hpos | Hneg]; [|reflexivity].
  exfalso. assert (Hd : (wpm * 5 < 0)%Q) by lra.
  assert (Hi : (/ (wpm * 5) < 0)%Q).
  { apply Qnot_le_lt. intro Hge.
    assert (Hm : (0 <= / (wpm * 5) * - (wpm * 5))%Q) by (apply Qmult_le_0_compat; lra).
    assert (Hone : (/ (wpm * 5) * (wpm * 5) == 1)%Q).
    { rewrite Qmult_comm. apply Qmult_inv_r. lra. }
    lra. }
  unfold Qdiv in Hpos. nra.
Qed.

Lemma wpm_to_log_normal_params_nonpositive (wpm wpm_std_dev : Q) :
  (wpm <= 0)%Q -> wpm_to_log_normal_params wpm wpm_std_dev = Raise (wpm_error wpm).
Proof.
  intro Hw. unfold wpm_error. destruct (Qeq_bool wpm 0) eqn:E.
  - apply wpm_to_log_normal_params_zero. now apply Qeq_bool_eq.
  - apply wpm_to_log_normal_params_negative.
    apply Qeq_bool_neq in E. lra.
Qed.

Lemma sample_iki_nonpositive `{RandomSource} (fuel : nat) (wpm wpm_std_dev : Q) (c : nat) :
  (wpm <= 0)%Q -> sample_iki fuel wpm wpm_std_dev c = Raise (wpm_error wpm).
Proof.
  intro Hw. unfold sample_iki, rbind, lift.
  rewrite (wpm_to_log_normal_params_nonpositive _ _ Hw). reflexivity.
Qed.

End WpmDomain.


(** X8: with a words-per-minute value of zero or less neither
    [simulate_typing] nor [human_type_cdp] gets past the first character
    of a non-empty text: the call raises [ZeroDivisionError] (zero) or
    [ValueError] (negative) before a key is logged or sent, whatever the
    random source gives. *)
Theorem nonpositive_wpm_raises :
  forall (rs : RandomSource) (ml : MathLib) (fuel : nat) (now : Q)
         (d : CDPDispatcher) (ch : ascii) (text : str)
         (cfg : HumanTyperConfig) (typo_rate : Q) (c : nat),
    (average_wpm cfg <= 0)%Q ->
    simulate_typing fuel now (ch :: text) (Some cfg) c
      = Raise (wpm_error (average_wpm cfg))
    /\ human_type_cdp fuel d (ch :: text) (average_wpm cfg) typo_rate c
      = Raise (wpm_error (average_wpm cfg)).
Proof.
  intros rs ml fuel now d ch text cfg rate c Hw. split.
  - unfold simulate_typing. cbn [simulate_typing_loop]. unfold compute_delay.
    unfold rbind at 1. unfold rbind at 1.
    rewrite (sample_iki_nonpositive _ _ _ _ Hw). reflexivity.
  - unfold human_type_cdp. cbn [human_type_cdp_loop].
    unfold rbind at 1.
    rewrite (sample_iki_nonpositive _ _ _ _ Hw). reflexivity.
Qed.

(** A configuration that asks for zero words per minute. *)
Definition zero_wpm : HumanTyperConfig :=
  {| average_wpm := 0; wpm_std_dev := 17.5; typo_rate := 0.01;
     typo_correction_rate := 0.96; word_boundary_pause_ms := 300;
     sentence_boundary_pause_ms := 800; long_pause_chance := 0.05;
     long_pause_max_ms := 2000 |}.

Lemma nonpositive_wpm_raises_witness :
  @simulate_typing (source_of [] eq_refl) rational_math 1 0 (str_of "hi")
    (Some zero_wpm) 0 = Raise ZeroDivisionError
  /\ @human_type_cdp (source_of [] eq_refl) rational_math 1
       {| _session_id := str_of "test-session" |} (str_of "hi") 0 0.01 0
     = Raise ZeroDivisionError.
Proof.
  apply (nonpositive_wpm_raises (source_of [] eq_refl) rational_math 1 0
           {| _session_id := str_of "test-session" |} "h"%char (str_of "i")
           zero_wpm 0.01 0).
  vm_compute. discriminate.
Defined.

(** ** Corrections in the simulator's log *)



Section Pacing.
Context `{RandomSource} `{MathLib}.


End Pacing.



(** ** Normal variates *)

Section NormalVariates.
Context `{RandomSource} `{MathLib}.

Lemma draw_nonzero_skips (fuel k c : nat) :
  (forall i, i < k -> (draws (c + i) == 0)%Q) ->
  (0 < draws (c + k))%Q -> k < fuel ->
  draw_nonzero fuel c = Ok (draws (c + k), S (c + k)).
Proof.
  revert k c. induction fuel as [|fuel IH]; intros k c Hz Hk Hf; [lia|].
  cbn [draw_nonzero]. unfold rbind, random.
  destruct k as [|k].
  - rewrite Nat.add_0_r in *.
    destruct (Qeq_bool (draws c) 0) eqn:E; [|reflexivity].
    apply Qeq_bool_eq in E. lra.
  - assert (E : Qeq_bool (draws c) 0 = true).
    { apply Qeq_bool_iff. rewrite <- (Nat.add_0_r c). apply Hz. lia. }
    rewrite E. replace (c + S k) with (S c + k) by lia.
    apply IH; [|now replace (S c + k) with (c + S k) by lia | lia].
    intros i Hi. replace (S c + i) with (c + S i) by lia. apply Hz. lia.
Qed.

Lemma draw_nonzero_result (fuel c : nat) :
  (exists u c', draw_nonzero fuel c = Ok (u, c') /\ (0 < u)%Q /\ (u < 1)%Q)
  \/ draw_nonzero fuel c = OutOfFuel.
Proof.
  revert c. induction fuel as [|fuel IH]; intro c; [now right|].
  cbn [draw_nonzero]. unfold rbind, random.
  destruct (Qeq_bool (draws c) 0) eqn:E; [apply IH|].
  left. exists (draws c), (S c). split; [reflexivity|].
  apply Qeq_bool_neq in E. destruct (draws_range c). split; lra.
Qed.

Lemma standard_normal_result (fuel c : nat) :
  (exists z c', standard_normal fuel c = Ok (z, c'))
  \/ standard_normal fuel c = OutOfFuel.
Proof.
  unfold standard_normal.
  destruct (draw_nonzero_result fuel c) as [(u1 & c1 & E1 & P1 & L1) | E1].
  - rewrite (rbind_ok _ _ _ _ _ E1).
    destruct (draw_nonzero_result fuel c1) as [(u2 & c2 & E2 & P2 & L2) | E2].
    + rewrite (rbind_ok _ _ _ _ _ E2). left.
      pose proof (m_log_nonpos u1 P1 ltac:(lra)) as Hl.
      unfold rbind, lift. rewrite (math_log_ok _ P1).
      rewrite math_sqrt_ok by lra. do 2 eexists. reflexivity.
    + right. unfold rbind at 1. now rewrite E2.
  - right. unfold rbind at 1. now rewrite E1.
Qed.

Lemma standard_normal_skips (fuel k j c : nat) :
  (forall i, i < k -> (draws (c + i) == 0)%Q) ->
  (0 < draws (c + k))%Q -> k < fuel ->
  (forall i, i < j -> (draws (c + k + 1 + i) == 0)%Q) ->
  (0 < draws (c + k + 1 + j))%Q -> j < fuel ->
  standard_normal fuel c
  = Ok ((m_sqrt (-2 * m_log (draws (c + k)))
         * m_cos (2 * m_pi * draws (c + k + 1 + j)))%Q,
        c + k + j + 2).
Proof.
  intros Hz1 H1 Hk Hz2 H2 Hj. unfold standard_normal.
  rewrite (rbind_ok _ _ _ _ _ (draw_nonzero_skips fuel k c Hz1 H1 Hk)).
  replace (S (c + k)) with (c + k + 1) by lia.
  rewrite (rbind_ok _ _ _ _ _ (draw_nonzero_skips fuel j (c + k + 1) Hz2 H2 Hj)).
  destruct (draws_range (c + k)) as [_ U1].
  pose proof (m_log_nonpos _ H1 ltac:(lra)) as Hl.
  unfold rbind, lift. rewrite (math_log_ok _ H1).
  rewrite math_sqrt_ok by lra. unfold rret.
  replace (S (c + k + 1 + j)) with (c + k + j + 2) by lia. reflexivity.
Qed.

End NormalVariates.

(** X10: [standard_normal] never raises: the logarithm is taken of a
    variate strictly between 0 and 1 and the square root of a
    non-negative number, so the call returns a value or is still
    redrawing zeros. *)
Theorem standard_normal_never_raises :
  forall (rs : RandomSource) (ml : MathLib) (fuel c : nat),
    (exists z c', standard_normal fuel c = Ok (z, c'))
    \/ standard_normal fuel c = OutOfFuel.
Proof. intros rs ml fuel c. apply standard_normal_result. Qed.

(** X11: [standard_normal] throws away the zeros the random source
    gives: with [k] zeros before the first non-zero variate [u1] and
    [j] zeros between it and the next non-zero variate [u2] it consumes
    [k + j + 2] variates and returns the Box-Muller value of [u1] and
    [u2]. *)
Theorem standard_normal_skips_zeros :
  forall (rs : RandomSource) (ml : MathLib) (fuel k j c : nat),
    (forall i, i < k -> (draws (c + i) == 0)%Q) ->
    (0 < draws (c + k))%Q -> k < fuel ->
    (forall i, i < j -> (draws (c + k + 1 + i) == 0)%Q) ->
    (0 < draws (c + k + 1 + j))%Q -> j < fuel ->
    standard_normal fuel c
    = Ok ((m_sqrt (-2 * m_log (draws (c + k)))
           * m_cos (2 * m_pi * draws (c + k + 1 + j)))%Q,
          c + k + j + 2).
Proof. intros rs ml. apply standard_normal_skips. Qed.

(** The stream [0, 0.25, 0, 0, 0.75, ...]: one zero, then two. *)
Lemma standard_normal_skips_zeros_witness :
  @standard_normal (source_of [0; 0.25; 0; 0; 0.75]%Q eq_refl) rational_math 3 0
  = Ok ((@m_sqrt rational_math (-2 * @m_log rational_math 0.25)
         * @m_cos rational_math (2 * @m_pi rational_math * 0.75))%Q, 5).
Proof.
  apply (standard_normal_skips_zeros
           (source_of [0; 0.25; 0; 0; 0.75]%Q eq_refl) rational_math 3 1 2 0).
  - intros [|i] Hi; [reflexivity | lia].
  - reflexivity.
  - lia.
  - intros [|[|i]] Hi; [reflexivity | reflexivity | lia].
  - reflexivity.
  - lia.
Defined.

(** ** A typo is never the intended key *)

(** Every letter of the fallback alphabet has neighbours of its own, and
    is the lower case of its upper case. *)
Lemma letters_listed (x : ascii) :
  In x letters ->
  (exists n ns, dict_get QWERTY_NEIGHBORS [x] = Some (n :: ns))
  /\ lower (upper [x]) = [x].
Proof.
  intro Hx.
  assert (T : forallb (fun y => match dict_get QWERTY_NEIGHBORS [y] with
                                | Some (_ :: _) => str_eqb (lower (upper [y])) [y]
                                | _ => false
                                end) letters = true) by (vm_compute; reflexivity).
  rewrite forallb_forall in T. specialize (T x Hx).
  destruct (dict_get QWERTY_NEIGHBORS [x]) as [[|n ns]|]; try discriminate.
  split; [now exists n, ns | now apply str_eqb_eq].
Qed.

Lemma nearby_key_other `{RandomSource} (key : str) (c : nat) :
  exists w, nearby_key key c = Ok (w, S c) /\ w <> key.
Proof.
  assert (Hfallback : forall x,
            In x letters ->
            dict_get QWERTY_NEIGHBORS (lower key) = None
            \/ dict_get QWERTY_NEIGHBORS (lower key) = Some [] ->
            (if is_shifted key then upper [x] else [x]) <> key).
  { intros x Hx G Heq. destruct (letters_listed x Hx) as ((n & ns & L) & Hlu).
    unfold is_shifted in Heq. destruct (str_eqb key (lower key)) eqn:E; cbn [negb] in Heq.
    - apply str_eqb_eq in E. rewrite <- E, <- Heq, L in G.
      destruct G; discriminate.
    - rewrite <- Heq, Hlu, L in G. destruct G; discriminate. }
  unfold nearby_key.
  destruct (dict_get QWERTY_NEIGHBORS (lower key)) as [[|n ns]|] eqn:G.
  - destruct (choice_ok letters c ltac:(discriminate)) as (x & Hnth & E).
    rewrite (rbind_ok _ _ _ _ _ E). eexists. split; [reflexivity|].
    apply Hfallback; [now apply nth_error_In in Hnth | now right].
  - destruct (choice_ok (n :: ns) c ltac:(discriminate)) as (p & Hnth & E).
    apply nth_error_In in Hnth.
    destruct (neighbor_facts _ _ _ G Hnth) as (N1 & N2 & N3).
    rewrite (rbind_ok _ _ _ _ _ E). unfold is_shifted.
    destruct (str_eqb key (lower key)) eqn:Ek; simpl;
      (eexists; split; [reflexivity|]).
    + apply str_eqb_eq in Ek. congruence.
    + intro Hk. apply N2. now rewrite Hk.
  - destruct (choice_ok letters c ltac:(discriminate)) as (x & Hnth & E).
    rewrite (rbind_ok _ _ _ _ _ E). eexists. split; [reflexivity|].
    apply Hfallback; [now apply nth_error_In in Hnth | now left].
Qed.

(** X12: [nearby_key] never answers with the key it was given, whether
    the key has neighbours in the table or falls back to a random
    letter; so every event [simulate_typing] marks as a typo carries a
    key other than the intended one. *)
Theorem nearby_key_never_the_key :
  forall (rs : RandomSource) (key : str) (c : nat),
    exists w, nearby_key key c = Ok (w, S c) /\ str_eqb w key = false.
Proof.
  intros rs key c. destruct (nearby_key_other key c) as (w & E & N).
  exists w. split; [exact E | now apply str_eqb_neq].
Qed.

(** * Further properties of the frame extractor *)

(** ** Buffers that do not match the probed size *)

Lemma dark_in_row_overrun (data : list Z) (width : nat) (threshold : Z) (y : nat) :
  forall count x0 acc,
    y * width + x0 <= List.length data ->
    List.length data < y * width + x0 + count ->
    dark_in_row data width threshold y (seq x0 count) acc = Raise IndexError.
Proof.
  induction count as [|count IH]; intros x0 acc Hstart Hend; [lia|].
  cbn [seq dark_in_row]. unfold index.
  destruct (nth_error data (y * width + x0)) as [pixel|] eqn:E; [|reflexivity].
  cbn [obind]. apply IH.
  - assert (y * width + x0 < List.length data)
      by (apply nth_error_Some; rewrite E; discriminate).
    lia.
  - lia.
Qed.

Lemma scan_rows_overrun (cfg : ExtractionConfig) (data : list Z) (width : nat) :
  0 < width ->
  forall count y0 y_min y_max,
    y0 * width <= List.length data ->
    List.length data < (y0 + count) * width ->
    scan_rows cfg data width (seq y0 count) y_min y_max = Raise IndexError.
Proof.
  intro Hw. induction count as [|count IH]; intros y0 y_min y_max Hstart Hend; [lia|].
  cbn [seq scan_rows].
  destruct (Nat.lt_ge_cases (List.length data) (S y0 * width)) as [Hshort | Hfits].
  - rewrite dark_in_row_overrun by lia. reflexivity.
  - rewrite (dark_in_row_spec data width (content_luminance_threshold cfg) y0 width 0 0)
      by lia.
    cbn [obind]. rewrite truediv_nQ by assumption. cbn [obind].
    destruct (Qle_bool _ _); apply IH; lia.
Qed.

(** X13: when the probed size is empty, [analyze_frame] raises
    [ZeroDivisionError]; when the buffer is shorter than
    [width * height], a frame that is not bright enough to be blank
    raises [IndexError] in the row scan, and one that is bright enough
    is still reported blank. *)
Theorem analyze_frame_malformed_buffer :
  forall (fd : FrameDecoder) (frame_path : str) (config : option ExtractionConfig)
         (data : list Z) (width height : nat),
    _get_grayscale_pixels frame_path = Ok (data, width, height) ->
    (width * height = 0 -> analyze_frame frame_path config = Raise ZeroDivisionError)
    /\ (0 < width * height -> List.length data < width * height ->
        ((bright_fraction (config_or_default config) data width height
          < blank_threshold (config_or_default config))%Q ->
         analyze_frame frame_path config = Raise IndexError)
        /\ ((blank_threshold (config_or_default config)
             <= bright_fraction (config_or_default config) data width height)%Q ->
            analyze_frame frame_path config = Ok (blank_analysis frame_path))).
Proof.
  intros fd frame_path config data width height Hdec.
  unfold analyze_frame. rewrite Hdec. cbn [obind].
  set (cfg := config_or_default config). split.
  - intros ->. reflexivity.
  - intros Hsize Hshort. rewrite count_bright_filter, truediv_nQ by assumption.
    cbn [obind]. fold (bright_fraction cfg data width height). split.
    + intro Hb.
      destruct (Qle_bool (blank_threshold cfg) (bright_fraction cfg data width height))
        eqn:E; [apply Qle_bool_iff in E; lra|].
      rewrite (scan_rows_overrun cfg data width) by lia. reflexivity.
    + intro Hb. apply Qle_bool_iff in Hb. rewrite Hb. reflexivity.
Qed.

(** A one-pixel buffer probed as one pixel wide and two high. *)
Lemma analyze_frame_malformed_buffer_witness :
  @analyze_frame (fixed_decoder [0]%Z 1 0) (str_of "empty.png") None
  = Raise ZeroDivisionError
  /\ @analyze_frame (fixed_decoder [0]%Z 1 2) (str_of "short.png") None
     = Raise IndexError.
Proof.
  split.
  - apply (proj1 (analyze_frame_malformed_buffer
                    (fixed_decoder [0]%Z 1 0) (str_of "empty.png") None
                    [0]%Z 1 0 eq_refl)).
    reflexivity.
  - apply (proj1 (proj2 (analyze_frame_malformed_buffer
                           (fixed_decoder [0]%Z 1 2) (str_of "short.png") None
                           [0]%Z 1 2 eq_refl) ltac:(simpl; lia) ltac:(simpl; lia))).
    vm_compute. reflexivity.
Defined.

(** ** What an analysis can hold *)

(** A gray level as ffmpeg writes it. *)
Definition byte (p : Z) : Prop := (0 <= p <= 255)%Z.

(** The darkness sum over [n] dark pixels. *)
Definition darkness_within (threshold darkness : Z) (n : nat) : Prop :=
  ((256 - threshold) * Z.of_nat n <= darkness <= 255 * Z.of_nat n)%Z.

Lemma darkness_in_row_within (data : list Z) (width : nat) (threshold : Z) (y : nat) :
  Forall byte data ->
  forall xs darkness n darkness' n',
    darkness_in_row data width threshold y xs darkness n = Ok (darkness', n') ->
    darkness_within threshold darkness n -> darkness_within threshold darkness' n'.
Proof.
  intro Hbytes. rewrite Forall_forall in Hbytes.
  induction xs as [|x xs IH]; intros d n d' n' E Hd.
  - injection E as <- <-. exact Hd.
  - cbn [darkness_in_row] in E. unfold index in E.
    destruct (nth_error data (y * width + x)) as [pixel|] eqn:Ep; [|discriminate].
    cbn [obind] in E. apply nth_error_In, Hbytes in Ep.
    destruct (pixel <? threshold)%Z eqn:Et.
    + apply IH in E; [exact E|]. apply Z.ltb_lt in Et.
      unfold darkness_within, byte in *. lia.
    + now apply IH in E.
Qed.

Lemma darkness_in_rows_within (data : list Z) (width : nat) (threshold : Z) :
  Forall byte data ->
  forall ys darkness n darkness' n',
    darkness_in_rows data width threshold ys darkness n = Ok (darkness', n') ->
    darkness_within threshold darkness n -> darkness_within threshold darkness' n'.
Proof.
  intro Hbytes. induction ys as [|y ys IH]; intros d n d' n' E Hd.
  - injection E as <- <-. exact Hd.
  - cbn [darkness_in_rows] in E.
    destruct (darkness_in_row data width threshold y (seq 0 width) d n)
      as [[d1 n1]| |] eqn:E1; try discriminate.
    cbn [obind fst snd] in E.
    apply (IH _ _ _ _ E), (darkness_in_row_within _ _ _ _ Hbytes _ _ _ _ _ E1 Hd).
Qed.

(** The hash of an analysis is the mean darkness of dark pixels, or 0. *)
Definition hash_in_range (cfg : ExtractionConfig) (hash : Q) : Prop :=
  hash = 0%Q
  \/ (inject_Z (256 - content_luminance_threshold cfg) <= hash /\ hash <= 255)%Q.

Lemma analyze_frame_hash `{FrameDecoder} (frame_path : str)
    (config : option ExtractionConfig) (data : list Z) (width height : nat)
    (r : FrameAnalysis) :
  _get_grayscale_pixels frame_path = Ok (data, width, height) ->
  Forall byte data ->
  analyze_frame frame_path config = Ok r ->
  hash_in_range (config_or_default config) (content_hash r).
Proof.
  intros Hdec Hbytes E. unfold analyze_frame in E. rewrite Hdec in E.
  cbn [obind] in E. set (cfg := config_or_default config) in *.
  destruct (truediv _ _) as [fraction| |]; try discriminate. cbn [obind] in E.
  destruct (Qle_bool (blank_threshold cfg) fraction).
  { injection E as <-. now left. }
  destruct (scan_rows _ _ _ _ _ _) as [[y_min y_max]| |]; try discriminate.
  cbn [obind] in E.
  destruct (if y_min <=? y_max then _ else _) as [[d n]| |] eqn:Ec; try discriminate.
  cbn [obind] in E.
  assert (Hd : darkness_within (content_luminance_threshold cfg) d n).
  { destruct (y_min <=? y_max).
    - apply (darkness_in_rows_within _ _ _ Hbytes _ _ _ _ _ Ec).
      unfold darkness_within. simpl. lia.
    - injection Ec as <- <-. unfold darkness_within. simpl. lia. }
  destruct (truediv (nQ y_min) _) as [top| |]; try discriminate. cbn [obind] in E.
  destruct (truediv (inject_Z _) (nQ height)) as [bottom| |]; try discriminate.
  cbn [obind] in E.
  destruct (0 <? n) eqn:En.
  - apply Nat.ltb_lt in En. rewrite truediv_nQ in E by assumption.
    cbn [obind] in E. injection E as <-. right. cbn [content_hash].
    pose proof (nQ_pos n En) as Hn. destruct Hd as [Hlo Hhi].
    split.
    + apply Qle_shift_div_l; [exact Hn|]. unfold nQ.
      rewrite <- inject_Z_mult, <- Zle_Qle. exact Hlo.
    + apply Qle_shift_div_r; [exact Hn|]. unfold nQ.
      change 255%Q with (inject_Z 255).
      rewrite <- inject_Z_mult, <- Zle_Qle. exact Hhi.
  - cbn [obind] in E. injection E as <-. now left.
Qed.

(** X14: on a [width] x [height] buffer of bytes [analyze_frame] always
    returns an analysis: it carries the frame's path, both margins lie
    between 0 and 1, a blank frame is never fully visible, and the
    content hash is 0 or lies between
    [256 - content_luminance_threshold] and 255. *)
Theorem analyze_frame_well_formed :
  forall (fd : FrameDecoder) (frame_path : str) (config : option ExtractionConfig)
         (data : list Z) (width height : nat),
    _get_grayscale_pixels frame_path = Ok (data, width, height) ->
    0 < width -> 0 < height -> List.length data = width * height ->
    Forall byte data ->
    exists r,
      analyze_frame frame_path config = Ok r
      /\ path r = frame_path
      /\ (0 <= top_margin r)%Q /\ (top_margin r <= 1)%Q
      /\ (0 <= bottom_margin r)%Q /\ (bottom_margin r <= 1)%Q
      /\ (is_blank r = true -> is_fully_visible r = false)
      /\ hash_in_range (config_or_default config) (content_hash r).
Proof.
  intros fd frame_path config data width height Hdec Hw Hh Hlen Hbytes.
  destruct (analyze_frame_run frame_path config data width height Hdec Hw Hh Hlen)
    as [Hblank Hrun].
  set (cfg := config_or_default config) in *.
  destruct (Qlt_le_dec (bright_fraction cfg data width height) (blank_threshold cfg))
    as [Hb | Hb].
  - destruct (Hrun Hb) as (y_min & y_max & hash & Hs & _ & E).
    eexists. split; [exact E|].
    pose proof (analyze_frame_hash frame_path config data width height _ Hdec Hbytes E)
      as Hhash.
    cbn [path top_margin bottom_margin is_blank content_hash] in *.
    split; [reflexivity|].
    pose proof (nQ_pos height Hh) as HQ.
    assert (Hrange : y_min <= height /\ y_max < height).
    { destruct Hs as [(_ & -> & ->) | ((Hmin & _) & _ & _ & (Hmax & _) & _)]; lia. }
    destruct Hrange as [Hmin Hmax].
    assert (Hq : forall a b : Z, (a <= b)%Z -> (inject_Z a <= inject_Z b)%Q)
      by (intros a b Hab; now rewrite <- Zle_Qle).
    split; [|split; [|split; [|split; [|split]]]].
    + apply Qle_shift_div_l; [exact HQ|]. rewrite Qmult_0_l.
      change 0%Q with (inject_Z 0). apply Hq. lia.
    + apply Qle_shift_div_r; [exact HQ|]. rewrite Qmult_1_l. apply Hq. lia.
    + apply Qle_shift_div_l; [exact HQ|]. rewrite Qmult_0_l.
      change 0%Q with (inject_Z 0). apply Hq. lia.
    + apply Qle_shift_div_r; [exact HQ|]. rewrite Qmult_1_l. apply Hq. lia.
    + discriminate.
    + exact Hhash.
  - exists (blank_analysis frame_path). split; [exact (Hblank Hb)|].
    cbn. split; [reflexivity|].
    repeat (split; [first [reflexivity | discriminate 1 | (vm_compute; discriminate)]|]).
    now left.
Qed.

(** The analysis of [top_edge_frame]: content from the first row on. *)
Lemma analyze_frame_well_formed_witness :
  exists r,
    @analyze_frame (fixed_decoder top_edge_frame 1 100) (str_of "top_edge.png") None
    = Ok r
    /\ path r = str_of "top_edge.png"
    /\ (top_margin r == 0)%Q
    /\ (0 <= bottom_margin r)%Q /\ (bottom_margin r <= 1)%Q
    /\ (content_hash r == 205)%Q.
Proof.
  assert (Hbytes : Forall byte top_edge_frame).
  { apply Forall_forall. intros p Hp. unfold top_edge_frame in Hp.
    apply in_app_or in Hp as [Hp | Hp]; apply repeat_spec in Hp; subst p;
      unfold byte; lia. }
  destruct (analyze_frame_well_formed (fixed_decoder top_edge_frame 1 100)
              (str_of "top_edge.png") None top_edge_frame 1 100
              eq_refl ltac:(lia) ltac:(lia) eq_refl Hbytes)
    as (r & E & Hp & _ & _ & Hb0 & Hb1 & _).
  exists r. split; [exact E|]. split; [exact Hp|].
  vm_compute in E. injection E as <-.
  split; [reflexivity|]. split; [exact Hb0|]. split; [exact Hb1 | reflexivity].
Defined.

(** ** How many frames deduplication keeps *)

(** [s] is [l] with some elements left out. *)
Inductive subsequence {A : Type} : list A -> list A -> Prop :=
| sub_done : subsequence [] []
| sub_skip (x : A) (s l : list A) : subsequence s l -> subsequence s (x :: l)
| sub_take (x : A) (s l : list A) : subsequence s l -> subsequence (x :: s) (x :: l).

(** The number of places where consecutive indices are more than one
    apart. *)
Fixpoint gaps (indices : list Z) : nat :=
  match indices with
  | [] => 0
  | a :: rest =>
      match rest with
      | b :: _ => (if (b - a <=? 1)%Z then 0 else 1) + gaps rest
      | [] => 0
      end
  end.

(** The number of runs of consecutive indices. *)
Definition runs (indices : list Z) : nat :=
  match indices with
  | [] => 0
  | _ :: _ => 1 + gaps indices
  end.

Lemma subsequence_nil {A} (l : list A) : subsequence [] l.
Proof. induction l; constructor; assumption. Qed.

Lemma subsequence_refl {A} (l : list A) : subsequence l l.
Proof. induction l; constructor; assumption. Qed.

Lemma subsequence_app {A} (s1 l1 s2 l2 : list A) :
  subsequence s1 l1 -> subsequence s2 l2 -> subsequence (s1 ++ s2) (l1 ++ l2).
Proof.
  induction 1 as [| x s l S IH | x s l S IH]; intro H2; simpl.
  - exact H2.
  - apply sub_skip. auto.
  - apply sub_take. auto.
Qed.

Lemma subsequence_length {A} (s l : list A) :
  subsequence s l -> List.length s <= List.length l.
Proof. induction 1; simpl; lia. Qed.

Lemma subsequence_full {A} (s l : list A) :
  subsequence s l -> List.length s = List.length l -> s = l.
Proof.
  induction 1 as [| x s l S IH | x s l S IH]; intro Hlen; [reflexivity | |].
  - apply subsequence_length in S. simpl in Hlen. lia.
  - f_equal. apply IH. simpl in Hlen. lia.
Qed.

Lemma subsequence_In {A} (s l : list A) (x : A) :
  subsequence s l -> In x s -> In x l.
Proof.
  induction 1 as [| y s l S IH | y s l S IH]; intro Hx; [destruct Hx | |].
  - right. auto.
  - destruct Hx as [-> | Hx]; [now left | right; auto].
Qed.

Lemma representatives_subsequence (groups : list (list FrameAnalysis))
    (picked : list FrameAnalysis) :
  Forall2 representative groups picked -> subsequence picked (List.concat groups).
Proof.
  induction 1 as [|g r groups picked (pre & post & -> & _) F IH]; [constructor|].
  cbn [List.concat]. change (r :: picked) with ([r] ++ picked).
  apply subsequence_app; [|exact IH].
  change (pre ++ r :: post) with (pre ++ [r] ++ post).
  rewrite <- (app_nil_l [r]) at 1.
  apply subsequence_app; [apply subsequence_nil|].
  rewrite <- (app_nil_r [r]) at 1.
  apply subsequence_app; [apply subsequence_refl | apply subsequence_nil].
Qed.

Lemma groups_of_count (ps : list indexed) :
  List.length (groups_of ps) = runs (map snd ps).
Proof.
  induction ps as [|p rest IH]; [reflexivity|].
  destruct rest as [|q rest]; [reflexivity|].
  rewrite groups_of_cons.
  destruct (groups_of_head q rest) as (g & gs & G). rewrite G in *.
  cbn [map runs gaps] in *.
  destruct (snd q - snd p <=? 1)%Z; cbn [List.length] in *; lia.
Qed.

Lemma concat_map_map {A B} (f : A -> B) (ls : list (list A)) :
  List.concat (map (map f) ls) = map f (List.concat ls).
Proof.
  induction ls as [|l ls IH]; [reflexivity|].
  cbn [map List.concat]. now rewrite map_app, IH.
Qed.

Lemma map_fst_combine {A B} (l1 : list A) (l2 : list B) :
  List.length l1 = List.length l2 -> map fst (combine l1 l2) = l1.
Proof.
  revert l2. induction l1 as [|a l1 IH]; intros [|b l2] Hlen; try discriminate;
    [reflexivity|].
  simpl. f_equal. apply IH. simpl in Hlen. lia.
Qed.

Lemma map_snd_combine {A B} (l1 : list A) (l2 : list B) :
  List.length l1 = List.length l2 -> map snd (combine l1 l2) = l2.
Proof.
  revert l2. induction l1 as [|a l1 IH]; intros [|b l2] Hlen; try discriminate;
    [reflexivity|].
  simpl. f_equal. apply IH. simpl in Hlen. lia.
Qed.

(** One run of [deduplicate_frames] on frames paired with indices. *)
Lemma deduplicate_frames_run (frames : list FrameAnalysis) (original_indices : list Z) :
  List.length frames = List.length original_indices ->
  exists result,
    deduplicate_frames frames original_indices = Ok result
    /\ Forall2 representative
         (map (map fst) (groups_of (combine frames original_indices))) result.
Proof.
  intro Hlen. destruct frames as [|frame0 frames].
  - exists []. split; [reflexivity | constructor].
  - destruct original_indices as [|idx0 idx]; [discriminate|].
    unfold deduplicate_frames. rewrite range_unit.
    pose proof (group_frames_spec (frame0 :: frames) (idx0 :: idx) Hlen
                  (List.length (frame0 :: frames) - 1) 1 ltac:(lia)
                  ltac:(simpl; lia)) as G.
    change (map (map fst) (groups_of (firstn 1 (combine (frame0 :: frames) (idx0 :: idx)))))
      with [[frame0]] in G.
    rewrite G. cbn [obind].
    destruct (pick_representatives_spec _ (groups_of_all_nonempty
                (combine (frame0 :: frames) (idx0 :: idx))) [])
      as (picked & -> & F2).
    exists picked. split; [reflexivity | exact F2].
Qed.

(** X15: for frames paired with their original indices,
    [deduplicate_frames] returns some of the frames, in their order, one
    per run of consecutive indices: as many as there are gaps of more
    than one between neighbouring indices, plus one; when every gap is
    more than one the frames come back unchanged. *)
Theorem deduplicate_frames_one_per_run :
  forall (frames : list FrameAnalysis) (original_indices : list Z),
    List.length frames = List.length original_indices ->
    exists result,
      deduplicate_frames frames original_indices = Ok result
      /\ subsequence result frames
      /\ List.length result = runs original_indices
      /\ (runs original_indices = List.length frames -> result = frames).
Proof.
  intros frames idx Hlen.
  destruct (deduplicate_frames_run frames idx Hlen) as (result & E & F).
  exists result. split; [exact E|].
  assert (Hsub : subsequence result frames).
  { apply representatives_subsequence in F.
    rewrite concat_map_map in F.
    rewrite (proj1 (groups_of_spec (combine frames idx))) in F.
    now rewrite map_fst_combine in F. }
  assert (Hcount : List.length result = runs idx).
  { apply Forall2_length in F. rewrite length_map, groups_of_count in F.
    now rewrite map_snd_combine in F. }
  split; [exact Hsub|]. split; [exact Hcount|].
  intro Hall. apply subsequence_full; [exact Hsub | lia].
Qed.

(** Frames at indices 1, 2, 5, 6, 7, 10: three runs. *)
Lemma deduplicate_frames_one_per_run_witness :
  exists result,
    deduplicate_frames
      [test_frame "a.png" 0.3 0.2; test_frame "b.png" 0.25 0.25;
       test_frame "c.png" 0.2 0.3; test_frame "d.png" 0.3 0.3;
       test_frame "e.png" 0.1 0.1; test_frame "f.png" 0.4 0.1]
      [1; 2; 5; 6; 7; 10]%Z = Ok result
    /\ List.length result = 3.
Proof.
  destruct (deduplicate_frames_one_per_run
              [test_frame "a.png" 0.3 0.2; test_frame "b.png" 0.25 0.25;
               test_frame "c.png" 0.2 0.3; test_frame "d.png" 0.3 0.3;
               test_frame "e.png" 0.1 0.1; test_frame "f.png" 0.4 0.1]
              [1; 2; 5; 6; 7; 10]%Z eq_refl)
    as (result & E & _ & Hcount & _).
  exists result. split; [exact E | exact Hcount].
Defined.

(** ** Index lists of the wrong length *)

Lemma group_frames_short_indices (frames : list FrameAnalysis)
    (original_indices : list Z) :
  List.length original_indices < List.length frames ->
  forall count i groups,
    1 <= i -> i <= Nat.max 1 (List.length original_indices) ->
    Nat.max 1 (List.length original_indices) < i + count ->
    i + count <= List.length frames ->
    group_frames frames original_indices (seq i count) groups = Raise IndexError.
Proof.
  intro Hshort. induction count as [|count IH]; intros i groups Hi Hmax Hin Hend; [lia|].
  cbn [seq group_frames]. unfold index.
  destruct (nth_error original_indices (i - 1)) as [prev|] eqn:Ep; [|reflexivity].
  assert (Hp : i - 1 < List.length original_indices)
    by (apply nth_error_Some; rewrite Ep; discriminate).
  cbn [obind].
  destruct (nth_error original_indices i) as [curr|] eqn:Ec; [|reflexivity].
  assert (Hc : i < List.length original_indices)
    by (apply nth_error_Some; rewrite Ec; discriminate).
  cbn [obind].
  destruct (nth_error frames i) as [frame|] eqn:Ef;
    [|apply nth_error_None in Ef; lia].
  cbn [obind]. destruct (curr - prev <=? 1)%Z; apply IH; lia.
Qed.

Lemma group_frames_extra_indices (frames : list FrameAnalysis)
    (original_indices : list Z) :
  forall steps groups,
    Forall (fun i => i < List.length frames) steps ->
    group_frames frames original_indices steps groups
    = group_frames frames (firstn (List.length frames) original_indices) steps groups.
Proof.
  induction steps as [|i steps IH]; intros groups Hsteps; [reflexivity|].
  inversion Hsteps as [|? ? Hi Hrest]; subst.
  cbn [group_frames]. unfold index.
  rewrite !nth_error_firstn.
  replace (i - 1 <? List.length frames) with true by (symmetry; apply Nat.ltb_lt; lia).
  replace (i <? List.length frames) with true by (symmetry; apply Nat.ltb_lt; lia).
  destruct (nth_error original_indices (i - 1)) as [prev|]; [|reflexivity].
  destruct (nth_error original_indices i) as [curr|]; [|reflexivity].
  destruct (nth_error frames i) as [frame|]; [|reflexivity].
  cbn [obind]. destruct (curr - prev <=? 1)%Z; apply IH; assumption.
Qed.

(** X16: [deduplicate_frames] does not check that the two lists have
    the same length: with two or more frames and fewer indices than
    frames it raises [IndexError]; indices beyond the number of frames
    are never read, so the result is that of the list cut to the number
    of frames. *)
Theorem deduplicate_frames_index_mismatch :
  forall (frames : list FrameAnalysis) (original_indices : list Z),
    (2 <= List.length frames ->
     List.length original_indices < List.length frames ->
     deduplicate_frames frames original_indices = Raise IndexError)
    /\ (List.length frames <= List.length original_indices ->
        deduplicate_frames frames original_indices
        = deduplicate_frames frames (firstn (List.length frames) original_indices)).
Proof.
  intros frames idx. split.
  - intros Htwo Hshort. destruct frames as [|frame0 frames]; [simpl in Htwo; lia|].
    unfold deduplicate_frames. rewrite range_unit.
    rewrite (group_frames_short_indices _ _ Hshort) by (cbn [List.length] in *; lia).
    reflexivity.
  - intros _. destruct frames as [|frame0 frames]; [reflexivity|].
    unfold deduplicate_frames. rewrite range_unit.
    rewrite group_frames_extra_indices; [reflexivity|].
    apply Forall_forall. intros i Hi. apply in_seq in Hi. simpl in *. lia.
Qed.

(** ** The frames [extract_distinct_frames] returns *)

(** The filter of [extract_distinct_frames]. *)
Definition kept (analysis : FrameAnalysis) : bool :=
  negb (is_blank analysis) && is_fully_visible analysis.

Lemma keep_fully_visible_spec (analyses : list FrameAnalysis) :
  forall (i : Z) (fully_visible : list FrameAnalysis) (original_indices : list Z),
  exists indices,
    keep_fully_visible analyses i fully_visible original_indices
    = (fully_visible ++ filter kept analyses, original_indices ++ indices)
    /\ List.length indices = List.length (filter kept analyses).
Proof.
  induction analyses as [|a analyses IH]; intros i fv oi.
  - exists []. simpl. now rewrite !app_nil_r.
  - cbn [keep_fully_visible filter]. fold (kept a). destruct (kept a).
    + destruct (IH (i + 1)%Z (fv ++ [a]) (oi ++ [i])) as (indices & -> & Hlen).
      exists (i :: indices). rewrite <- !app_assoc. simpl. split; [reflexivity | lia].
    + apply IH.
Qed.

Lemma subsequence_filter {A} (p : A -> bool) (l : list A) : subsequence (filter p l) l.
Proof.
  induction l as [|a l IH]; [constructor|].
  simpl. destruct (p a); constructor; assumption.
Qed.

Lemma subsequence_trans {A} (s m l : list A) :
  subsequence s m -> subsequence m l -> subsequence s l.
Proof.
  intros S1 S2. revert s S1.
  induction S2 as [| x m l S2 IH | x m l S2 IH]; intros s S1.
  - exact S1.
  - apply sub_skip. auto.
  - inversion S1; subst; [apply sub_skip | apply sub_take]; auto.
Qed.

Lemma subsequence_map {A B} (f : A -> B) (s l : list A) :
  subsequence s l -> subsequence (map f s) (map f l).
Proof. induction 1; simpl; constructor; assumption. Qed.

(** An analysis carries the path it was asked for. *)
Lemma analyze_frame_path `{FrameDecoder} (frame_path : str)
    (config : option ExtractionConfig) (r : FrameAnalysis) :
  analyze_frame frame_path config = Ok r -> path r = frame_path.
Proof.
  unfold analyze_frame. intro E.
  destruct (_get_grayscale_pixels frame_path) as [[[data width] height]| |];
    try discriminate.
  cbn [obind] in E.
  destruct (truediv _ _) as [fraction| |]; try discriminate. cbn [obind] in E.
  destruct (Qle_bool _ fraction); [now injection E as <-|].
  destruct (scan_rows _ _ _ _ _ _) as [[y_min y_max]| |]; try discriminate.
  cbn [obind] in E.
  destruct (if y_min <=? y_max then _ else _) as [[d n]| |]; try discriminate.
  cbn [obind] in E.
  destruct (truediv (nQ y_min) _) as [top| |]; try discriminate. cbn [obind] in E.
  destruct (truediv (inject_Z _) (nQ height)) as [bottom| |]; try discriminate.
  cbn [obind] in E.
  destruct (if 0 <? n then _ else _) as [hash| |]; try discriminate.
  cbn [obind] in E. now injection E as <-.
Qed.

(** X17: when every frame of the video is analysed,
    [extract_distinct_frames] returns: the deduplication it ends with
    never fails; the paths returned are some of the extracted frame
    paths, in their order, each the path of a frame analysed as not
    blank and fully visible; and when no frame is, the list is empty. *)
Theorem extract_distinct_frames_selects :
  forall (fd : FrameDecoder) (video_path : str) (config : option ExtractionConfig)
         (frame_paths : list str) (analyses : list FrameAnalysis),
    extract_frames video_path config = Ok frame_paths ->
    Forall2 (fun fp a => analyze_frame fp config = Ok a) frame_paths analyses ->
    exists result,
      extract_distinct_frames video_path config = Ok result
      /\ subsequence result frame_paths
      /\ (forall p, In p result ->
            exists a, In a analyses /\ path a = p
                      /\ is_blank a = false /\ is_fully_visible a = true)
      /\ (Forall (fun a => is_blank a = true \/ is_fully_visible a = false) analyses ->
          result = []).
Proof.
  intros fd video_path config frame_paths analyses Hframes Han.
  assert (Hgather : gather (map (fun fp => analyze_frame fp config) frame_paths)
                    = Ok analyses).
  { apply gather_ok_iff. clear -Han. induction Han; simpl; constructor; auto. }
  assert (Hpaths : map path analyses = frame_paths).
  { clear -Han. induction Han as [|fp a fps ans E F IH]; [reflexivity|].
    simpl. f_equal; [now apply analyze_frame_path in E | exact IH]. }
  unfold extract_distinct_frames. rewrite Hframes. cbn [obind].
  rewrite Hgather. cbn [obind].
  destruct (keep_fully_visible_spec analyses 0%Z [] []) as (indices & -> & Hlen).
  cbn [fst snd app].
  destruct (deduplicate_frames_run (filter kept analyses) indices (eq_sym Hlen))
    as (representatives & -> & F).
  cbn [obind]. exists (map path representatives). split; [reflexivity|].
  assert (Hsub : subsequence representatives (filter kept analyses)).
  { apply representatives_subsequence in F.
    rewrite concat_map_map in F.
    rewrite (proj1 (groups_of_spec (combine (filter kept analyses) indices))) in F.
    now rewrite map_fst_combine in F. }
  split; [|split].
  - rewrite <- Hpaths. apply subsequence_map.
    apply (subsequence_trans _ _ _ Hsub), subsequence_filter.
  - intros p Hp. apply in_map_iff in Hp as (a & <- & Ha).
    apply (subsequence_In _ _ _ Hsub), filter_In in Ha as [Ha Hk].
    unfold kept in Hk. apply andb_true_iff in Hk as [Hb Hv].
    apply negb_true_iff in Hb. now exists a.
  - intro Hnone.
    assert (Hempty : filter kept analyses = []).
    { clear -Hnone. induction Hnone as [|a l Ha F IH]; [reflexivity|].
      simpl. rewrite IH. unfold kept. destruct Ha as [-> | ->]; [reflexivity|].
      now rewrite andb_false_r. }
    rewrite Hempty in Hsub. inversion Hsub. reflexivity.
Qed.

(** A decoder for a video of three frames, two pixels high and one wide:
    a white one, one with content in its lower row, and a gray one. *)
Definition three_frames : FrameDecoder :=
  {| ffmpeg_frames := fun _ _ =>
       Ok [str_of "frame_0001.png"; str_of "frame_0002.png"; str_of "frame_0003.png"];
     _get_grayscale_pixels := fun frame_path =>
       if str_eqb frame_path (str_of "frame_0001.png") then Ok ([255; 255]%Z, 1, 2)
       else if str_eqb frame_path (str_of "frame_0002.png") then Ok ([220; 0]%Z, 1, 2)
       else Ok ([220; 220]%Z, 1, 2) |}.

(** Of the three frames the blank one and the one with content at the
    edge are dropped. *)
Lemma extract_distinct_frames_selects_witness :
  @extract_distinct_frames three_frames (str_of "video.gif") None
  = Ok [str_of "frame_0003.png"].
Proof.
  assert (F : exists analyses,
            Forall2 (fun fp a => @analyze_frame three_frames fp None = Ok a)
              [str_of "frame_0001.png"; str_of "frame_0002.png"; str_of "frame_0003.png"]
              analyses).
  { eexists. repeat (apply Forall2_cons; [vm_compute; reflexivity|]). apply Forall2_nil. }
  destruct F as (analyses & F).
  destruct (extract_distinct_frames_selects three_frames (str_of "video.gif") None
              [str_of "frame_0001.png"; str_of "frame_0002.png"; str_of "frame_0003.png"]
              analyses eq_refl F)
    as (result & E & _).
  rewrite E. vm_compute in E. injection E as <-. reflexivity.
Defined.

(** * Further properties of the digit reader *)

(** ** Cycle lengths below one *)

Section CycleLength.
Context `{VisionClient}.

Lemma rangeZ_backwards (stop step : Z) :
  (0 <= stop)%Z -> (step < 0)%Z -> rangeZ 0 stop step = Ok [].
Proof.
  intros Hstop Hstep. unfold rangeZ.
  destruct (step =? 0)%Z eqn:E0; [apply Z.eqb_eq in E0; lia|].
  destruct (0 <? step)%Z eqn:E1; [apply Z.ltb_lt in E1; lia|].
  assert (Hq : ((0 - stop - step - 1) / - step <= 0)%Z).
  { assert ((0 - stop - step - 1) / - step < 1)%Z; [|lia].
    apply Z.div_lt_upper_bound; lia. }
  destruct ((0 - stop - step - 1) / - step)%Z; try lia; reflexivity.
Qed.

Lemma read_digits_with_validation_nonpositive (frame_paths : list str)
    (raw : str) (sequence_length : Z) :
  read_digits_from_frames frame_paths = Ok raw ->
  ((sequence_length < 0)%Z ->
   read_digits_with_validation frame_paths sequence_length = Ok [])
  /\ (sequence_length = 0%Z -> raw <> [] ->
      read_digits_with_validation frame_paths sequence_length = Raise ValueError)
  /\ (sequence_length = 0%Z -> raw = [] ->
      read_digits_with_validation frame_paths sequence_length = Ok []).
Proof.
  intro E. unfold read_digits_with_validation. rewrite E. cbn [obind].
  split; [|split].
  - intro Hneg.
    destruct (Z.of_nat (List.length raw) <=? sequence_length)%Z eqn:El;
      [apply Z.leb_le in El; lia|].
    rewrite rangeZ_backwards by lia. cbn [obind map].
    destruct sequence_length; try lia. reflexivity.
  - intros -> Hraw.
    destruct (Z.of_nat (List.length raw) <=? 0)%Z eqn:El.
    + apply Z.leb_le in El. destruct raw; [contradiction | simpl in El; lia].
    + reflexivity.
  - intros -> ->. reflexivity.
Qed.

End CycleLength.

(** X18: [read_digits_with_validation] does not reject a cycle length
    below one: a negative length gives the empty string whatever was
    read, and length 0 raises [ValueError] (the step of [range]) unless
    nothing was read, in which case it gives the empty string. *)
Theorem read_digits_with_validation_cycle_below_one :
  forall (vc : VisionClient) (frame_paths : list str) (raw : str)
         (sequence_length : Z),
    read_digits_from_frames frame_paths = Ok raw ->
    ((sequence_length < 0)%Z ->
     read_digits_with_validation frame_paths sequence_length = Ok [])
    /\ (sequence_length = 0%Z -> raw <> [] ->
        read_digits_with_validation frame_paths sequence_length = Raise ValueError)
    /\ (sequence_length = 0%Z -> raw = [] ->
        read_digits_with_validation frame_paths sequence_length = Ok []).
Proof. intros vc. apply read_digits_with_validation_nonpositive. Qed.

(** Two frames read as ["31"], voted with cycle lengths 0 and -4. *)
Lemma read_digits_with_validation_cycle_below_one_witness :
  @read_digits_with_validation
    (scripted_client [(str_of "a.png", str_of "3"); (str_of "b.png", str_of "1")])
    [str_of "a.png"; str_of "b.png"] 0 = Raise ValueError
  /\ @read_digits_with_validation
       (scripted_client [(str_of "a.png", str_of "3"); (str_of "b.png", str_of "1")])
       [str_of "a.png"; str_of "b.png"] (-4) = Ok [].
Proof.
  pose proof (read_digits_with_validation_cycle_below_one
                (scripted_client [(str_of "a.png", str_of "3"); (str_of "b.png", str_of "1")])
                [str_of "a.png"; str_of "b.png"] (str_of "31")) as T.
  split.
  - apply (proj1 (proj2 (T 0%Z eq_refl)) eq_refl). discriminate.
  - apply (proj1 (T (-4)%Z eq_refl)). lia.
Defined.

(** ** A strict majority wins *)

Lemma occurrences_two (c d : ascii) (col : str) :
  c <> d -> occurrences c col + occurrences d col <= List.length col.
Proof.
  intro Hcd. unfold occurrences. induction col as [|x col IH]; [reflexivity|].
  simpl. destruct (ascii_dec x c), (ascii_dec x d); subst; try contradiction; lia.
Qed.

Lemma plurality_majority (col : str) (c d : ascii) :
  plurality col c -> List.length col < 2 * occurrences d col -> c = d.
Proof.
  intros [Hc Hbest] Hmaj.
  destruct (ascii_dec c d) as [E | N]; [exact E | exfalso].
  assert (Hd : In d col).
  { unfold occurrences in Hmaj.
    apply (count_occ_In ascii_dec). lia. }
  destruct (Hbest d Hd) as [Hle _].
  pose proof (occurrences_two c d col N). lia.
Qed.

Section Majority.
Context `{VisionClient}.

(** The vote of [read_digits_with_validation] on readings longer than
    the cycle. *)
Lemma read_digits_with_validation_votes (frame_paths : list str) (raw : str)
    (sequence_length : Z) :
  read_digits_from_frames frame_paths = Ok raw ->
  (0 < sequence_length < Z.of_nat (List.length raw))%Z ->
  exists out,
    read_digits_with_validation frame_paths sequence_length = Ok out
    /\ List.length out = Z.to_nat sequence_length
    /\ forall pos, pos < Z.to_nat sequence_length ->
         exists c,
           nth_error out pos = Some c
           /\ plurality (column (chunks raw (Z.to_nat sequence_length)) pos) c.
Proof.
  intros F [HL Hlong]. unfold read_digits_with_validation. rewrite F. cbn [obind].
  destruct (Z.of_nat (List.length raw) <=? sequence_length)%Z eqn:E;
    [apply Z.leb_le in E; lia|].
  destruct (loops_are_chunks raw sequence_length HL) as (starts & Hs & Hc).
  rewrite Hs. cbn [obind]. rewrite Hc.
  eexists. split; [reflexivity|].
  apply (concat_winners
           (P := fun pos c =>
                   plurality (column (chunks raw (Z.to_nat sequence_length)) pos) c)).
  intros pos Hpos. rewrite tally_column.
  apply best_of_plurality, column_nonempty; lia.
Qed.

Lemma read_digits_with_validation_outvotes (frame_paths : list str) (raw : str)
    (sequence : str) :
  read_digits_from_frames frame_paths = Ok raw ->
  sequence <> [] ->
  List.length sequence < List.length raw ->
  (forall pos d, nth_error sequence pos = Some d ->
     List.length (column (chunks raw (List.length sequence)) pos)
     < 2 * occurrences d (column (chunks raw (List.length sequence)) pos)) ->
  read_digits_with_validation frame_paths (Z.of_nat (List.length sequence))
  = Ok sequence.
Proof.
  intros F Hne Hlong Hmaj.
  assert (Hpos : 0 < List.length sequence) by (destruct sequence; [contradiction | simpl; lia]).
  destruct (read_digits_with_validation_votes frame_paths raw
              (Z.of_nat (List.length sequence)) F ltac:(lia))
    as (out & -> & Hlen & Hvotes).
  rewrite Nat2Z.id in *. f_equal.
  apply nth_error_ext. intro pos.
  destruct (Nat.lt_ge_cases pos (List.length sequence)) as [Hin | Hout].
  - destruct (Hvotes pos Hin) as (c & -> & Hc).
    destruct (nth_error sequence pos) as [d|] eqn:Ed;
      [|apply nth_error_None in Ed; lia].
    f_equal. apply (plurality_majority _ _ _ Hc). now apply Hmaj.
  - rewrite (proj2 (nth_error_None out pos)) by lia.
    symmetry. now apply nth_error_None.
Qed.

End Majority.

(** X19: when the readings are longer than the cycle and, at every
    position of the cycle, more than half of the loops that reach the
    position read the digit of [sequence] there,
    [read_digits_with_validation] returns [sequence]: a digit misread
    in fewer than half of the loops is corrected. *)
Theorem read_digits_with_validation_strict_majority :
  forall (vc : VisionClient) (frame_paths : list str) (raw sequence : str),
    read_digits_from_frames frame_paths = Ok raw ->
    sequence <> [] ->
    List.length sequence < List.length raw ->
    (forall pos d, nth_error sequence pos = Some d ->
       List.length (column (chunks raw (List.length sequence)) pos)
       < 2 * occurrences d (column (chunks raw (List.length sequence)) pos)) ->
    read_digits_with_validation frame_paths (Z.of_nat (List.length sequence))
    = Ok sequence.
Proof. intros vc. apply read_digits_with_validation_outvotes. Qed.

(** Twelve frames read as ["316931893169"]: the ["8"] of the second
    loop is outvoted. *)
Lemma read_digits_with_validation_strict_majority_witness :
  @read_digits_with_validation
    (scripted_client
       (combine (map (fun n => [ascii_of_nat (65 + n)]) (seq 0 12))
                (map (fun c => [c]) (str_of "316931893169"))))
    (map (fun n => [ascii_of_nat (65 + n)]) (seq 0 12)) 4
  = Ok (str_of "3169").
Proof.
  apply (read_digits_with_validation_strict_majority
           (scripted_client
              (combine (map (fun n => [ascii_of_nat (65 + n)]) (seq 0 12))
                       (map (fun c => [c]) (str_of "316931893169"))))
           (map (fun n => [ascii_of_nat (65 + n)]) (seq 0 12))
           (str_of "316931893169") (str_of "3169")).
  - reflexivity.
  - discriminate.
  - simpl. lia.
  - intros [|[|[|[|pos]]]] d Hd; simpl in Hd;
      [| | | |destruct pos; discriminate];
      injection Hd as <-; vm_compute; lia.
Defined.

(** * Further properties of the repeating-sequence detector *)

(** What [detect_repeating_sequence] finds: the least candidate length
    that passes the test and the prefix of that length, or no passing
    length and the input itself. *)
Lemma detect_repeating_sequence_found (s : str) :
  (exists L,
     1 <= L <= List.length s / 2
     /\ detect_repeating_sequence s = slice s 0 L
     /\ full_chunks_agree s L
     /\ forall L', 1 <= L' < L -> ~ full_chunks_agree s L')
  \/ (detect_repeating_sequence s = s
      /\ forall L, 1 <= L <= List.length s / 2 -> ~ full_chunks_agree s L).
Proof.
  unfold detect_repeating_sequence. rewrite range_unit.
  replace (List.length s / 2 + 1 - 1) with (List.length s / 2) by lia.
  destruct (find _ _) as [L0|] eqn:F.
  - left. exists L0.
    apply find_first in F as (l1 & l2 & E & P0 & Hbefore).
    assert (HL0 : In L0 (seq 1 (List.length s / 2))) by (rewrite E; apply in_elt).
    apply in_seq in HL0.
    split; [lia|]. split; [reflexivity|].
    split; [apply chunks_test_spec; [lia | exact P0]|].
    intros L' HL' Hagree.
    assert (Hin : In L' l1) by (apply (seq_split_before _ _ _ _ _ E); lia).
    apply Hbefore in Hin. apply chunks_test_spec in Hagree; [|lia]. congruence.
  - right. split; [reflexivity|]. intros L HL Hagree.
    assert (Hin : In L (seq 1 (List.length s / 2))) by (apply in_seq; lia).
    pose proof (find_none _ _ F L Hin) as Hf. simpl in Hf.
    apply chunks_test_spec in Hagree; [|lia]. congruence.
Qed.

Lemma firstn_add_slice {A} (s : list A) (a b : nat) :
  firstn (a + b) s = firstn a s ++ slice s a (a + b).
Proof.
  unfold slice. replace (a + b - a) with b by lia.
  rewrite <- (firstn_skipn a s) at 1.
  rewrite firstn_app, length_firstn.
  destruct (Nat.le_ge_cases a (List.length s)) as [Hle | Hge].
  - rewrite Nat.min_l by exact Hle.
    replace (a + b - a) with b by lia.
    rewrite firstn_all2 by (rewrite length_firstn; lia). reflexivity.
  - rewrite (skipn_all2 s) by exact Hge.
    rewrite !firstn_nil, !app_nil_r.
    rewrite !firstn_all2; try reflexivity; rewrite ?length_firstn; lia.
Qed.

(** A string whose full chunks agree is copies of its first chunk. *)
Lemma full_chunks_copies (s : str) (L : nat) :
  1 <= L -> full_chunks_agree s L ->
  forall j, j * L <= List.length s ->
    firstn (j * L) s = List.concat (repeat (slice s 0 L) j).
Proof.
  intros HL Hagree. induction j as [|j IH]; intro Hfit; [reflexivity|].
  replace (S j * L) with (j * L + L) by lia.
  rewrite firstn_add_slice, IH by lia.
  assert (Hchunk : slice s (j * L) (j * L + L) = slice s 0 L).
  { destruct j as [|j]; [reflexivity|]. apply Hagree; lia. }
  rewrite Hchunk. clear.
  induction j as [|j IH]; simpl; [now rewrite app_nil_r|].
  now rewrite <- app_assoc, IH.
Qed.

Lemma length_copies {A} (u : list A) (k : nat) :
  List.length (List.concat (repeat u k)) = k * List.length u.
Proof.
  induction k as [|k IH]; [reflexivity|].
  simpl. rewrite length_app, IH. reflexivity.
Qed.

Lemma copies_split {A} (u : list A) (j k : nat) :
  List.concat (repeat u (j + k)) = List.concat (repeat u j) ++ List.concat (repeat u k).
Proof.
  induction j as [|j IH]; [reflexivity|].
  simpl. now rewrite IH, app_assoc.
Qed.

Lemma slice_copies {A} (u : list A) (j k : nat) :
  j < k ->
  slice (List.concat (repeat u k)) (j * List.length u) (j * List.length u + List.length u)
  = u.
Proof.
  intro Hj. unfold slice.
  replace (j * List.length u + List.length u - j * List.length u)
    with (List.length u) by lia.
  replace k with (j + S (k - j - 1)) by lia.
  rewrite copies_split, skipn_app, length_copies.
  rewrite skipn_all2 by (rewrite length_copies; lia).
  replace (j * List.length u - j * List.length u) with 0 by lia.
  cbn [skipn app repeat List.concat].
  rewrite firstn_app, firstn_all, Nat.sub_diag. simpl. now rewrite app_nil_r.
Qed.

(** The shape of the input around the result. *)
Lemma detect_repeating_sequence_structure :
  forall s : str,
    (exists m tail,
       s = List.concat (repeat (detect_repeating_sequence s) m) ++ tail
       /\ (s = [] \/ List.length tail < List.length (detect_repeating_sequence s)))
    /\ (detect_repeating_sequence s = s
        \/ 2 * List.length (detect_repeating_sequence s) <= List.length s)
    /\ (forall u k, u <> [] -> 2 <= k -> s = List.concat (repeat u k) ->
          exists rest, u = detect_repeating_sequence s ++ rest).
Proof.
  intro s.
  destruct (detect_repeating_sequence_found s)
    as [(L & HL & -> & Hagree & Hleast) | (-> & Hnone)].
  - pose proof (Nat.div_mod_eq (List.length s) 2) as Hhalf.
    pose proof (Nat.mod_upper_bound (List.length s) 2 ltac:(lia)) as Hrem.
    assert (Hlen : List.length (slice s 0 L) = L) by (rewrite slice_length; lia).
    split; [|split].
    + exists (List.length s / L), (skipn (List.length s / L * L) s).
      pose proof (Nat.div_mod_eq (List.length s) L) as Hdiv.
      pose proof (Nat.mod_upper_bound (List.length s) L ltac:(lia)) as Hmod.
      split.
      * rewrite <- (full_chunks_copies s L ltac:(lia) Hagree) by nia.
        symmetry. apply firstn_skipn.
      * right. rewrite length_skipn, Hlen. nia.
    + right. rewrite Hlen. lia.
    + intros u k Hu Hk Hs.
      assert (Hupos : 0 < List.length u) by (destruct u; [contradiction | simpl; lia]).
      assert (Hsl : List.length s = k * List.length u) by (rewrite Hs; apply length_copies).
      assert (HLu : L <= List.length u).
      { destruct (Nat.le_gt_cases L (List.length u)) as [Hle | Hgt]; [exact Hle|].
        exfalso. apply (Hleast (List.length u)); [lia|].
        intros j Hj Hfit. rewrite Hs.
        rewrite (slice_copies u j k) by nia.
        symmetry. apply (slice_copies u 0 k). lia. }
      exists (skipn L u). unfold slice. rewrite Nat.sub_0_r. cbn [skipn].
      rewrite Hs. replace k with (1 + (k - 1)) by lia.
      rewrite copies_split. cbn [repeat List.concat]. rewrite app_nil_r.
      rewrite firstn_app. replace (L - List.length u) with 0 by lia.
      cbn [firstn]. rewrite app_nil_r. symmetry. apply firstn_skipn.
  - split; [|split].
    + destruct s as [|c s].
      * exists 0, []. split; [reflexivity | now left].
      * exists 1, []. split; [simpl; now rewrite !app_nil_r | right; simpl; lia].
    + now left.
    + intros u k Hu Hk Hs. exfalso.
      assert (Hupos : 0 < List.length u) by (destruct u; [contradiction | simpl; lia]).
      assert (Hsl : List.length s = k * List.length u) by (rewrite Hs; apply length_copies).
      apply (Hnone (List.length u)).
      * split; [lia|]. apply Nat.div_le_lower_bound; nia.
      * intros j Hj Hfit. rewrite Hs.
        rewrite (slice_copies u j k) by nia.
        symmetry. apply (slice_copies u 0 k). lia.
Qed.

(** X20: the input of [detect_repeating_sequence] is whole copies of
    the result followed by a tail shorter than the result (which the
    detector never compares); the result is the input itself or at most
    half as long; and for an input made of two or more copies of [u]
    the result is a prefix of [u]. *)
Theorem detect_repeating_sequence_copies :
  forall s : str,
    (exists m tail,
       s = List.concat (repeat (detect_repeating_sequence s) m) ++ tail
       /\ (s = [] \/ List.length tail < List.length (detect_repeating_sequence s)))
    /\ (detect_repeating_sequence s = s
        \/ 2 * List.length (detect_repeating_sequence s) <= List.length s)
    /\ (forall u k, u <> [] -> 2 <= k -> s = List.concat (repeat u k) ->
          exists rest, u = detect_repeating_sequence s ++ rest).
Proof. exact detect_repeating_sequence_structure. Qed.

(** * Properties of the browser action *)

Import VideoSolverTool.

(** The two results the action can return. *)
Definition no_frames_found : ActionResult :=
  {| extracted_content := None;
     error := Some (str_of "No fully-visible digit frames found in the video") |}.

Definition answer (sequence : str) : ActionResult :=
  {| extracted_content := Some (str_of "The digit sequence is: " ++ sequence);
     error := None |}.

Lemma extract_distinct_frames_none_kept `{FrameDecoder} (video_path : str)
    (config : option ExtractionConfig) (frame_paths : list str)
    (analyses : list FrameAnalysis) :
  extract_frames video_path config = Ok frame_paths ->
  Forall2 (fun fp a => analyze_frame fp config = Ok a) frame_paths analyses ->
  Forall (fun a => is_blank a = true \/ is_fully_visible a = false) analyses ->
  extract_distinct_frames video_path config = Ok [].
Proof.
  intros Hframes Han Hnone.
  assert (Hgather : gather (map (fun fp => analyze_frame fp config) frame_paths)
                    = Ok analyses).
  { apply gather_ok_iff. clear -Han. induction Han; simpl; constructor; auto. }
  assert (Hempty : filter kept analyses = []).
  { clear -Hnone. induction Hnone as [|a l Ha F IH]; [reflexivity|].
    simpl. rewrite IH. unfold kept. destruct Ha as [-> | ->]; [reflexivity|].
    now rewrite andb_false_r. }
  unfold extract_distinct_frames. rewrite Hframes. cbn [obind].
  rewrite Hgather. cbn [obind].
  destruct (keep_fully_visible_spec analyses 0%Z [] []) as (indices & -> & Hlen).
  rewrite Hempty in *. destruct indices; [reflexivity | discriminate].
Qed.

Lemma copies_nonempty {A} (u : list A) (k : nat) :
  u <> [] -> 1 <= k -> List.concat (repeat u k) <> [].
Proof.
  intros Hu Hk. destruct k as [|k]; [lia|]. destruct u; [contradiction | discriminate].
Qed.

(** On copies of [u] the detector answers with a non-empty prefix of
    [u]. *)
Lemma detect_repeating_sequence_of_copies (u : str) (k : nat) :
  u <> [] -> 1 <= k ->
  exists sequence rest,
    detect_repeating_sequence (List.concat (repeat u k)) = sequence
    /\ u = sequence ++ rest /\ sequence <> [].
Proof.
  intros Hu Hk. set (s := List.concat (repeat u k)).
  assert (Hs : s <> []) by now apply copies_nonempty.
  destruct (detect_repeating_sequence_structure s)
    as ((m & tail & Hcopies & Htail) & Hhalf & Hprefix).
  assert (Hne : detect_repeating_sequence s <> []).
  { destruct Htail as [-> | Htail]; [contradiction|].
    intro E. rewrite E in Htail. simpl in Htail. lia. }
  destruct (Nat.eq_dec k 1) as [-> | Hk2].
  - assert (Hsu : s = u) by (unfold s; simpl; apply app_nil_r).
    destruct Hhalf as [Hall | Hshort].
    + exists (detect_repeating_sequence s), []. rewrite app_nil_r.
      repeat split; [congruence | exact Hne].
    + destruct m as [|m].
      * exfalso. simpl in Hcopies. destruct Htail as [-> | Htail]; [contradiction|].
        rewrite Hcopies in Hshort at 2. lia.
      * exists (detect_repeating_sequence s).
        exists (List.concat (repeat (detect_repeating_sequence s) m) ++ tail).
        split; [reflexivity|]. split; [|exact Hne].
        rewrite <- Hsu. rewrite Hcopies at 1. simpl. now rewrite <- app_assoc.
  - destruct (Hprefix u k Hu ltac:(lia) eq_refl) as (rest & Hrest).
    exists (detect_repeating_sequence s), rest. repeat split; assumption.
Qed.

(** X21: [solve_attention_video_tool], once the video is downloaded and
    its frames are analysed: when no frame is both not blank and fully
    visible it returns the error result, whatever the vision client
    would say; when the frames it keeps are read as one or more copies
    of [u] it answers with a non-empty prefix of [u]; and when reading
    the kept frames raises, so does the action, instead of returning an
    error result. *)
Theorem solve_attention_video_tool_end_to_end :
  forall (web : Web) (fd : FrameDecoder) (gif_url video_path : str)
         (disk disk' : files) (frame_paths : list str)
         (analyses : list FrameAnalysis),
    download_video gif_url disk = Ok (video_path, disk') ->
    extract_frames video_path None = Ok frame_paths ->
    Forall2 (fun fp a => analyze_frame fp None = Ok a) frame_paths analyses ->
    (Forall (fun a => is_blank a = true \/ is_fully_visible a = false) analyses ->
     forall vc : VisionClient,
       solve_attention_video_tool gif_url disk = Ok (no_frames_found, disk'))
    /\ (forall (vc : VisionClient) (frames : list str) (u : str) (k : nat),
          extract_distinct_frames video_path None = Ok frames ->
          u <> [] -> 1 <= k ->
          read_digits_from_frames frames = Ok (List.concat (repeat u k)) ->
          exists sequence rest,
            u = sequence ++ rest /\ sequence <> []
            /\ solve_attention_video_tool gif_url disk = Ok (answer sequence, disk'))
    /\ (forall (vc : VisionClient) (frames : list str) (e : exn),
          extract_distinct_frames video_path None = Ok frames ->
          read_digits_from_frames frames = Raise e ->
          solve_attention_video_tool gif_url disk = Raise e).
Proof.
  intros web fd gif_url video_path disk disk' frame_paths analyses Hdl Hframes Han.
  split; [|split].
  - intros Hnone vc. unfold solve_attention_video_tool. rewrite Hdl. cbn [obind].
    rewrite (extract_distinct_frames_none_kept _ _ _ _ Hframes Han Hnone).
    reflexivity.
  - intros vc frames u k Hsel Hu Hk Hread.
    destruct (detect_repeating_sequence_of_copies u k Hu Hk)
      as (sequence & rest & Hdet & Hprefix & Hne).
    exists sequence, rest. split; [exact Hprefix|]. split; [exact Hne|].
    unfold solve_attention_video_tool. rewrite Hdl. cbn [obind].
    rewrite Hsel. cbn [obind].
    destruct frames as [|fp frames].
    + exfalso. cbn in Hread. injection Hread as Hread.
      symmetry in Hread. now apply copies_nonempty in Hread.
    + rewrite Hread. cbn [obind]. rewrite Hdet. reflexivity.
  - intros vc frames e Hsel Hread.
    unfold solve_attention_video_tool. rewrite Hdl. cbn [obind].
    rewrite Hsel. cbn [obind].
    destruct frames as [|fp frames]; [discriminate|].
    rewrite Hread. reflexivity.
Qed.

(** A server that answers every request with the same bytes. *)
Definition one_video : Web :=
  {| mkdtemp := fun prefix => str_of "/tmp/" ++ prefix ++ str_of "k3x9";
     http_get := fun _ => Ok (str_of "GIF89a") |}.

(** The three-frame video, its one kept frame read as ["7"]. *)
Lemma solve_attention_video_tool_end_to_end_witness :
  @solve_attention_video_tool one_video three_frames
    (scripted_client [(str_of "frame_0003.png", str_of "7")])
    (str_of "https://example.com/animation.gif") []
  = Ok (answer (str_of "7"),
        [(str_of "/tmp/video-dl-k3x9/video.gif", str_of "GIF89a")]).
Proof.
  assert (F : exists analyses,
            Forall2 (fun fp a => @analyze_frame three_frames fp None = Ok a)
              [str_of "frame_0001.png"; str_of "frame_0002.png"; str_of "frame_0003.png"]
              analyses).
  { eexists. repeat (apply Forall2_cons; [vm_compute; reflexivity|]). apply Forall2_nil. }
  destruct F as (analyses & F).
  destruct (proj1 (proj2 (solve_attention_video_tool_end_to_end
                            one_video three_frames
                            (str_of "https://example.com/animation.gif")
                            (str_of "/tmp/video-dl-k3x9/video.gif") []
                            [(str_of "/tmp/video-dl-k3x9/video.gif", str_of "GIF89a")]
                            [str_of "frame_0001.png"; str_of "frame_0002.png";
                             str_of "frame_0003.png"]
                            analyses eq_refl eq_refl F))
              (scripted_client [(str_of "frame_0003.png", str_of "7")])
              [str_of "frame_0003.png"] (str_of "7") 1
              eq_refl ltac:(discriminate) ltac:(lia) eq_refl)
    as (sequence & rest & Hu & Hne & E).
  rewrite E. vm_compute in E. injection E as <-. reflexivity.
Defined.

(** ** Sequences that repeat within themselves *)

Lemma copies_of_copies {A} (v : list A) (j k : nat) :
  List.concat (repeat (List.concat (repeat v j)) k) = List.concat (repeat v (k * j)).
Proof.
  induction k as [|k IH]; [reflexivity|].
  cbn [repeat List.concat]. rewrite IH.
  replace (S k * j) with (j + k * j) by lia. now rewrite copies_split.
Qed.

(** X22: when the sequence shown is itself two or more copies of a
    shorter string [v] (as in ["1212"]), [detect_repeating_sequence]
    answers with a prefix of [v] on any number of loops of the
    sequence, and so with fewer digits than the sequence has. *)
Theorem detect_repeating_sequence_shortens_periodic :
  forall (v : str) (j k : nat),
    v <> [] -> 2 <= j -> 1 <= k ->
    exists rest,
      v = detect_repeating_sequence
            (List.concat (repeat (List.concat (repeat v j)) k)) ++ rest
      /\ List.length (detect_repeating_sequence
                        (List.concat (repeat (List.concat (repeat v j)) k)))
         < List.length (List.concat (repeat v j)).
Proof.
  intros v j k Hv Hj Hk. unfold str in *. rewrite copies_of_copies.
  destruct (detect_repeating_sequence_structure (List.concat (repeat v (k * j))))
    as (_ & _ & Hprefix).
  destruct (Hprefix v (k * j) Hv ltac:(nia) eq_refl) as (rest & Hrest).
  exists rest. split; [exact Hrest|].
  rewrite length_copies.
  assert (Hlen : List.length v
                 = List.length (detect_repeating_sequence (List.concat (repeat v (k * j))))
                   + List.length rest)
    by (rewrite Hrest at 1; apply length_app).
  assert (0 < List.length v) by (destruct v; [contradiction | simpl; lia]).
  nia.
Qed.

(** Four loops of ["1212"] are read as ["12"]. *)
Lemma detect_repeating_sequence_shortens_periodic_witness :
  detect_repeating_sequence (str_of "1212121212121212") = str_of "12"
  /\ List.length (detect_repeating_sequence (str_of "1212121212121212"))
     < List.length (str_of "1212").
Proof.
  destruct (detect_repeating_sequence_shortens_periodic (str_of "12") 2 4
              ltac:(discriminate) ltac:(lia) ltac:(lia)) as (rest & Hrest & Hlen).
  split; [reflexivity | exact Hlen].
Defined.

(** ** One digit per frame *)

Lemma find_none_filter {A} (p : A -> bool) (l : list A) :
  find p l = None -> filter p l = [].
Proof.
  induction l as [|a l IH]; [reflexivity|].
  simpl. destruct (p a); [discriminate | exact IH].
Qed.

Section DigitsPerFrame.
Context `{VisionClient}.

(** A reading is one digit, or has no digit in it. *)
Lemma read_digit_from_frame_shape (frame_path : str) (reading : str) :
  read_digit_from_frame frame_path = Ok reading ->
  (exists d, is_digit d = true /\ reading = [d]) \/ filter is_digit reading = [].
Proof.
  unfold read_digit_from_frame. intro E.
  destruct (read_bytes frame_path) as [data| |]; try discriminate. cbn [obind] in E.
  destruct (messages_create _ _) as [response| |]; try discriminate. cbn [obind] in E.
  destruct (index response 0) as [block| |]; try discriminate. cbn [obind] in E.
  unfold search_digit in E.
  destruct (find is_digit _) as [d|] eqn:F; injection E as <-.
  - left. exists d. apply find_some in F. split; [apply F | reflexivity].
  - right. now apply find_none_filter.
Qed.

Lemma read_digits_from_frames_readings (frame_paths : list str) (out : str) :
  read_digits_from_frames frame_paths = Ok out ->
  exists readings,
    Forall2 (fun fp r => read_digit_from_frame fp = Ok r) frame_paths readings
    /\ out = List.concat readings.
Proof.
  unfold read_digits_from_frames. intro E.
  destruct frame_paths as [|fp rest].
  - injection E as <-. exists []. split; [constructor | reflexivity].
  - destruct (gather _) as [readings| |] eqn:G; try discriminate.
    injection E as <-. exists readings. split; [|reflexivity].
    apply gather_ok_iff in G. remember (fp :: rest) as fps eqn:Efps. clear Efps.
    revert readings G. induction fps as [|p fps IH]; intros readings G;
      inversion G; subst; constructor; auto.
Qed.

Lemma read_digits_from_frames_digits (frame_paths : list str) (out : str) :
  read_digits_from_frames frame_paths = Ok out ->
  List.length (filter is_digit out) <= List.length frame_paths
  /\ (Forall (fun c => is_digit c = true) out -> List.length out <= List.length frame_paths)
  /\ (List.length (filter is_digit out) = List.length frame_paths ->
      List.length out = List.length frame_paths
      /\ Forall (fun c => is_digit c = true) out).
Proof.
  intro E. apply read_digits_from_frames_readings in E as (readings & F & ->).
  assert (Hshape : Forall (fun r => (exists d, is_digit d = true /\ r = [d])
                                    \/ filter is_digit r = []) readings).
  { clear -F. induction F as [|fp r fps rs E F IH]; constructor; [|exact IH].
    now apply read_digit_from_frame_shape in E. }
  apply Forall2_length in F. rewrite F. clear F.
  assert (Hcount : List.length (filter is_digit (List.concat readings))
                   <= List.length readings
                   /\ (List.length (filter is_digit (List.concat readings))
                       = List.length readings ->
                       List.length (List.concat readings) = List.length readings
                       /\ Forall (fun c => is_digit c = true) (List.concat readings))).
  { induction Hshape as [|r rs Hr Hrs [IH1 IH2]]; [now repeat split|].
    cbn [List.concat]. rewrite filter_app, !length_app. cbn [List.length].
    destruct Hr as [(d & Hd & ->) | Hr].
    - cbn [filter]. rewrite Hd. cbn [List.length]. split; [lia|].
      intro Hall. destruct IH2 as [IHl IHd]; [lia|].
      split; [lia|]. constructor; assumption.
    - rewrite Hr. cbn [List.length]. split; [lia|]. intro Hall. lia. }
  destruct Hcount as [Hle Heq]. split; [exact Hle|]. split; [|exact Heq].
  intro Hall.
  assert (Hsame : filter is_digit (List.concat readings) = List.concat readings).
  { clear -Hall. induction Hall as [|c l Hc Hl IH]; [reflexivity|].
    simpl. now rewrite Hc, IH. }
  now rewrite <- Hsame.
Qed.

End DigitsPerFrame.

(** X23: a frame contributes at most one digit to what
    [read_digits_from_frames] returns: the result holds no more digits
    than there are frames, a result made of digits only is no longer
    than the number of frames, and a result with as many digits as
    frames is exactly one digit per frame. *)
Theorem read_digits_from_frames_one_digit_per_frame :
  forall (vc : VisionClient) (frame_paths : list str) (out : str),
    read_digits_from_frames frame_paths = Ok out ->
    List.length (filter is_digit out) <= List.length frame_paths
    /\ (Forall (fun c => is_digit c = true) out ->
        List.length out <= List.length frame_paths)
    /\ (List.length (filter is_digit out) = List.length frame_paths ->
        List.length out = List.length frame_paths
        /\ Forall (fun c => is_digit c = true) out).
Proof. intros vc. apply read_digits_from_frames_digits. Qed.

(** Three frames answered with ["The digit is 7."], ["  4 "] and
    ["unclear"]: two digits, and the text of the third. *)
Lemma read_digits_from_frames_one_digit_per_frame_witness :
  @read_digits_from_frames
    (scripted_client [(str_of "a.png", str_of "The digit is 7.");
                      (str_of "b.png", str_of "  4 ");
                      (str_of "c.png", str_of "unclear")])
    [str_of "a.png"; str_of "b.png"; str_of "c.png"] = Ok (str_of "74unclear")
  /\ List.length (filter is_digit (str_of "74unclear")) <= 3.
Proof.
  split; [reflexivity|].
  apply (proj1 (read_digits_from_frames_one_digit_per_frame
                  (scripted_client [(str_of "a.png", str_of "The digit is 7.");
                                    (str_of "b.png", str_of "  4 ");
                                    (str_of "c.png", str_of "unclear")])
                  [str_of "a.png"; str_of "b.png"; str_of "c.png"]
                  (str_of "74unclear") eq_refl)).
Defined.

(** ** The pauses around a correction in the live variant *)



Section LivePauses.
Context `{RandomSource} `{MathLib}.


End LivePauses.


